(** * PG-Strom: chunked data store, parameter buffer and GPU bitonic sort

    A shallow embedding of

    - [cuda_gpusort.h]: the device kernels [gpusort_bitonic_local],
      [gpusort_bitonic_step], [gpusort_bitonic_merge] and
      [gpusort_fixup_pointers] and the control kernel [gpusort_main];
    - [datastore.c]: [pgstrom_create_kern_parambuf],
      [kern_fetch_data_store], [init_kern_data_store],
      [pgstrom_create_data_store_row], [pgstrom_file_mmap_data_store],
      [pgstrom_file_unmap_data_store], [pgstrom_release_data_store],
      [pgstrom_data_store_insert_block] and
      [pgstrom_data_store_insert_tuple];
    - [gpu_device.c]: the device filter of [pgstrom_collect_gpu_device],
      the index check of the SQL functions on a device, and
      [largest_workgroup_size].

    Integers of the C code are [Z] with the wrap-around of their width
    written out, memory is a list of bytes addressed by chunk-relative
    offsets, and fallible code returns a value of [result]. *)

From Stdlib Require Import ZArith List Lia Bool Permutation.
From Stdlib Require Import Strings.Byte.
From stdpp Require Import base list strings.
Import ListNotations.

Local Open Scope Z_scope.

(** * Part I: the embedding *)

(** ** Machine integers *)

(** [size_t], [Size] and [uintptr_t] have 64 bits, [cl_uint], [uint] and
    [unsigned int] 32 bits, [cl_int] and [int] 32 bits with a sign. *)
Definition wrap64 (x : Z) : Z := x mod 2 ^ 64.
Definition wrap32 (x : Z) : Z := x mod 2 ^ 32.

(** Conversion to [cl_int]: the low 32 bits read in two's complement. *)
Definition to_int32 (x : Z) : Z :=
  let y := wrap32 x in if y <? 2 ^ 31 then y else y - 2 ^ 32.

(** Conversion to [cl_short] and to [cl_char]: the low 16 and the low 8
    bits read in two's complement. *)
Definition to_int16 (x : Z) : Z :=
  let y := x mod 2 ^ 16 in if y <? 2 ^ 15 then y else y - 2 ^ 16.
Definition to_int8 (x : Z) : Z :=
  let y := x mod 2 ^ 8 in if y <? 2 ^ 7 then y else y - 2 ^ 8.

(** [TYPEALIGN(ALIGNVAL, LEN)] of PostgreSQL's c.h:
    [(((uintptr_t) (LEN) + ((ALIGNVAL) - 1)) & ~((uintptr_t) ((ALIGNVAL) - 1)))]. *)
Definition TYPEALIGN (alignval len : Z) : Z :=
  wrap64 (Z.land (wrap64 (len + (alignval - 1))) (Z.lnot (wrap64 (alignval - 1)))).

Definition MAXIMUM_ALIGNOF : Z := 8.
Definition MAXALIGN (len : Z) : Z := TYPEALIGN MAXIMUM_ALIGNOF len.
Definition LONGALIGN (len : Z) : Z := TYPEALIGN 8 len.

(** ** Results of fallible code *)

(** [elog(ERROR, ...)] and [ereport(ERROR, ...)] leave the function by a
    long jump; the embedding returns the message class instead. *)
Inductive result (E A : Type) : Type :=
| Ok (a : A)
| Err (e : E).
Arguments Ok {E A} a.
Arguments Err {E A} e.

Definition bind {E A B} (r : result E A) (k : A -> result E B) : result E B :=
  match r with
  | Ok a => k a
  | Err e => Err e
  end.

(** ** Arrays and parallel loops *)

(** [a[i]]; outside the array C leaves the read undefined and the
    embedding returns the default [d]. *)
Definition rd {A} (d : A) (a : list A) (i : Z) : A :=
  if i <? 0 then d else nth (Z.to_nat i) a d.

(** [a[i] = v]; a write outside the array is dropped. *)
Definition wr {A} (a : list A) (i : Z) (v : A) : list A :=
  if i <? 0 then a else <[Z.to_nat i := v]> a.

(** The ids [0, 1, ..., n-1] of the threads of a block, or of the blocks of
    a grid. *)
Definition ids (n : Z) : list Z := map Z.of_nat (seq 0 (Z.to_nat n)).

(** The threads that run between two barriers, taken one after the other
    in increasing id.  With the power-of-two sizes of a launch two threads
    of one phase touch different array cells ([step_indices_disjoint] has
    this for the step kernel), so every schedule gives this memory. *)
Definition par_for {S} (n : Z) (body : Z -> S -> S) (s : S) : S :=
  fold_left (fun s i => body i s) (ids n) s.

(** [for (i = start; i < bound; i += stride) body(i)] on [size_t]. *)
Fixpoint strided_for {S} (fuel : nat) (i bound stride : Z)
    (body : Z -> S -> S) (s : S) : S :=
  match fuel with
  | O => s
  | Datatypes.S fuel' =>
      if i <? bound
      then strided_for fuel' (wrap64 (i + stride)) bound stride body (body i s)
      else s
  end.

(** The indices [i] such a loop visits, in order. *)
Fixpoint strided_list (fuel : nat) (i bound stride : Z) : list Z :=
  match fuel with
  | O => []
  | Datatypes.S fuel' =>
      if i <? bound
      then i :: strided_list fuel' (wrap64 (i + stride)) bound stride
      else []
  end.

(** The indices the threads [0 .. lsz-1] of a block visit when each runs
    [for (i = get_local_id(); i < bound; i += get_local_size())]. *)
Definition block_indices (lsz bound : Z) : list Z :=
  flat_map (fun lid => strided_list (Z.to_nat bound) lid bound lsz) (ids lsz).

(** ** GPU bitonic sort (cuda_gpusort.h) *)

(** A cell of the shared work memory [localIdx]: the stored index and,
    as ghost information that no kernel reads, the position of
    [kresults->results] it was loaded from ([None] while the cell still
    holds what an earlier launch left there). *)
Record cell : Type := Cell { cval : Z; corigin : option Z }.

Definition stale_cell (v : Z) : cell := Cell v None.
Definition cell0 : cell := Cell 0 None.

(** The index pair of [gpusort_bitonic_local] for a thread:
    [idx0 = (lid / halfUnitSize) * unitSize + lid % halfUnitSize] and
    [idx1 = reversing ? ((idx0 & ~unitMask) | (~idx0 & unitMask))
                      : (halfUnitSize + idx0)], all of type [size_t].
    [Z.land], [Z.lor] and [Z.lnot] work on the two's complement expansion,
    of which the [size_t] value is the low 64 bits. *)
Definition local_indices (blockSize unitSize lid : Z) : Z * Z :=
  let unitMask := wrap64 (unitSize - 1) in
  let halfUnitSize := unitSize / 2 in
  let reversing := unitSize =? blockSize in
  let idx0 := wrap64 ((lid / halfUnitSize) * unitSize + lid mod halfUnitSize) in
  let idx1 := if reversing
              then wrap64 (Z.lor (Z.land idx0 (Z.lnot unitMask))
                                 (Z.land (Z.lnot idx0) unitMask))
              else wrap64 (halfUnitSize + idx0) in
  (idx0, idx1).

(** The index pair of [gpusort_bitonic_merge]: never reversing. *)
Definition merge_indices (unitSize lid : Z) : Z * Z :=
  let halfUnitSize := unitSize / 2 in
  let idx0 := wrap64 (lid / halfUnitSize * unitSize + lid mod halfUnitSize) in
  let idx1 := wrap64 (halfUnitSize + idx0) in
  (idx0, idx1).

(** The index pair of [gpusort_bitonic_step].  [idx0] and [idx1] are
    [cl_int]: the [size_t] expression is cut to 32 bits and read with a
    sign, and in [idx1] the [cl_int idx0] is widened again (sign extended)
    before it meets the [size_t] mask. *)
Definition step_indices (unitsz : Z) (reversing : bool) (gid : Z) : Z * Z :=
  let halfUnitSize := unitsz / 2 in
  let unitMask := wrap64 (unitsz - 1) in
  let idx0 := to_int32 (wrap64 ((gid / halfUnitSize) * unitsz
                                + gid mod halfUnitSize)) in
  let idx1 := to_int32 (if reversing
                        then Z.lor (Z.land idx0 (Z.lnot unitMask))
                                   (Z.land (Z.lnot idx0) unitMask)
                        else idx0 + halfUnitSize) in
  (idx0, idx1).

(** The index pair without the 32-bit cut: the pair lies in the unit
    [2 ^ k * q], the first index in its lower half and the second in its
    upper half. *)
Definition step_wide (k : Z) (reversing : bool) (g : Z) : Z * Z :=
  let h := 2 ^ (k - 1) in
  let q := g / h in
  let r := g mod h in
  (2 ^ k * q + r, 2 ^ k * q + (if reversing then 2 ^ k - 1 - r else h + r)).

(** Two index pairs share no element. *)
Definition pair_disjoint (p q : Z * Z) : Prop :=
  fst p <> fst q /\ fst p <> snd q /\ snd p <> fst q /\ snd p <> snd q.

(** A property of the shared memory that survives the exchange of two
    cells below [n]. *)
Definition swap_closed (n : Z) (P : list cell -> Prop) : Prop :=
  forall shm i0 i1,
    P shm -> 0 <= i0 < n -> 0 <= i1 < n ->
    P (wr (wr shm i0 (rd cell0 shm i1)) i1 (rd cell0 shm i0)).

(** The cell was loaded from [results[j]] for a [j] of the partition
    [lo .. hi-1]. *)
Definition loaded_from (results : list Z) (lo hi : Z) (c : cell) : Prop :=
  exists j, lo <= j < hi /\ c = Cell (rd 0 results j) (Some j).

Section GpuSort.

(** [gpusort_keycomp(kcxt, kds_slot, x_index, y_index)] is generated at run
    time; the kernels use the sign of what it returns. *)
Variable gpusort_keycomp : Z -> Z -> Z.

(** Compare [localIdx[idx0]] with [localIdx[idx1]] and swap them when the
    comparison is positive.  [conv] is the conversion the kernel applies
    to a stored index on its way to the [size_t] argument of the
    comparison. *)
Definition compare_swap (conv : Z -> Z) (shm : list cell) (idx0 idx1 : Z)
    : list cell :=
  let pos0 := rd cell0 shm idx0 in
  let pos1 := rd cell0 shm idx1 in
  if 0 <? gpusort_keycomp (conv (cval pos0)) (conv (cval pos1))
  then wr (wr shm idx0 pos1) idx1 pos0
  else shm.

(** [cl_uint pos0] passed as [size_t]: unchanged. *)
Definition conv_uint (v : Z) : Z := v.
(** [cl_int] widened to [size_t]: sign extended. *)
Definition conv_int (v : Z) : Z := wrap64 (to_int32 v).

(** *** gpusort_bitonic_local *)

(** One thread in one round of the inner loop. *)
Definition local_thread (part_size blockSize unitSize lid : Z)
    (shm : list cell) : list cell :=
  let '(idx0, idx1) := local_indices blockSize unitSize lid in
  if idx1 <? part_size then compare_swap conv_uint shm idx0 idx1 else shm.

(** [for (unitSize = blockSize; unitSize >= 2; unitSize /= 2)], a barrier
    after every round.  A [size_t] can be halved 64 times at most. *)
Fixpoint local_unit_loop (fuel : nat) (lsz part_size blockSize unitSize : Z)
    (shm : list cell) : list cell :=
  match fuel with
  | O => shm
  | Datatypes.S fuel' =>
      if 2 <=? unitSize
      then local_unit_loop fuel' lsz part_size blockSize (unitSize / 2)
             (par_for lsz (local_thread part_size blockSize unitSize) shm)
      else shm
  end.

(** [for (blockSize = 2; blockSize <= part_size; blockSize *= 2)]. *)
Fixpoint local_block_loop (fuel : nat) (lsz part_size blockSize : Z)
    (shm : list cell) : list cell :=
  match fuel with
  | O => shm
  | Datatypes.S fuel' =>
      if blockSize <=? part_size
      then local_block_loop fuel' lsz part_size (wrap64 (blockSize * 2))
             (local_unit_loop 64 lsz part_size blockSize blockSize shm)
      else shm
  end.

(** The partition a block works on: [part_size = 2 * get_local_size()],
    [part_base = part_id * part_size], and [part_size] cut to
    [nitems - part_base] when the partition runs over the end. *)
Definition partition_base (lsz part_id : Z) : Z :=
  wrap64 (part_id * wrap64 (2 * lsz)).

Definition partition_size (lsz nitems part_id : Z) : Z :=
  let part_size := wrap64 (2 * lsz) in
  let part_base := partition_base lsz part_id in
  if nitems <? wrap64 (part_base + part_size)
  then wrap64 (nitems - part_base)
  else part_size.

(** Load loop of a block:
    [for (i = get_local_id(); i < bound; i += get_local_size())
       localIdx[i] = kresults->results[part_base + i];] by every thread. *)
Definition load_shared (lsz part_base bound : Z) (results : list Z)
    (shm : list cell) : list cell :=
  par_for lsz
    (fun lid =>
       strided_for (Z.to_nat bound) lid bound lsz
         (fun i shm =>
            wr shm i (Cell (rd 0 results (wrap64 (part_base + i)))
                           (Some (wrap64 (part_base + i))))))
    shm.

(** Write-back loop of a block:
    [for (i = get_local_id(); i < part_size; i += get_local_size())
       kresults->results[part_base + i] = localIdx[i];]. *)
Definition store_shared (lsz part_base part_size : Z) (shm : list cell)
    (results : list Z) : list Z :=
  par_for lsz
    (fun lid =>
       strided_for (Z.to_nat part_size) lid part_size lsz
         (fun i results =>
            wr results (wrap64 (part_base + i)) (cval (rd cell0 shm i))))
    results.

(** The shared memory of a block of [gpusort_bitonic_local] when it reaches
    the write-back loop.  [shm0] is the work memory as the launch finds
    it, [2 * lsz] cells. *)
Definition local_shared (lsz nitems part_id : Z) (shm0 : list cell)
    (results : list Z) : list cell :=
  let part_size := partition_size lsz nitems part_id in
  let part_base := partition_base lsz part_id in
  local_block_loop 64 lsz part_size 2
    (load_shared lsz part_base part_size results shm0).

Definition gpusort_bitonic_local_block (lsz nitems : Z) (shm0 : list cell)
    (part_id : Z) (results : list Z) : list Z :=
  store_shared lsz (partition_base lsz part_id)
    (partition_size lsz nitems part_id)
    (local_shared lsz nitems part_id shm0 results) results.

(** A launch of [gpusort_bitonic_local]: the blocks work on partitions
    that do not overlap. *)
Definition gpusort_bitonic_local (grid lsz : Z) (shm0 : list cell)
    (results : list Z) : list Z :=
  par_for grid
    (gpusort_bitonic_local_block lsz (Z.of_nat (length results)) shm0)
    results.

(** *** gpusort_bitonic_step *)

(** One thread: [pos0] and [pos1] are [cl_int], the array holds [cl_uint]. *)
Definition gpusort_bitonic_step_thread (nitems unitsz : Z) (reversing : bool)
    (gid : Z) (results : list Z) : list Z :=
  let '(idx0, idx1) := step_indices unitsz reversing gid in
  if nitems <=? wrap32 idx1 then results
  else
    let pos0 := to_int32 (rd 0 results idx0) in
    let pos1 := to_int32 (rd 0 results idx1) in
    if 0 <? gpusort_keycomp (wrap64 pos0) (wrap64 pos1)
    then wr (wr results idx0 (wrap32 pos1)) idx1 (wrap32 pos0)
    else results.

Definition gpusort_bitonic_step (grid lsz unitsz : Z) (reversing : bool)
    (results : list Z) : list Z :=
  par_for (grid * lsz)
    (gpusort_bitonic_step_thread (Z.of_nat (length results)) unitsz reversing)
    results.

(** *** gpusort_bitonic_merge *)

Definition merge_thread (part_size unitSize lid : Z) (shm : list cell)
    : list cell :=
  let '(idx0, idx1) := merge_indices unitSize lid in
  if idx1 <? part_size then compare_swap conv_int shm idx0 idx1 else shm.

(** [for (unitSize = blockSize; unitSize >= 2; unitSize /= 2)]. *)
Fixpoint merge_unit_loop (fuel : nat) (lsz part_size unitSize : Z)
    (shm : list cell) : list cell :=
  match fuel with
  | O => shm
  | Datatypes.S fuel' =>
      if 2 <=? unitSize
      then merge_unit_loop fuel' lsz part_size (unitSize / 2)
             (par_for lsz (merge_thread part_size unitSize) shm)
      else shm
  end.

(** The load loop of the merge kernel stops at 2048 as well:
    [i < part_size && i < 2048]. *)
Definition merge_load_bound (part_size : Z) : Z := Z.min part_size 2048.

(** The shared memory of a block when it reaches the write-back loop;
    [blockSize] is the partition size before it is cut to [nitems]. *)
Definition merge_shared (lsz nitems part_id : Z) (shm0 : list cell)
    (results : list Z) : list cell :=
  let blockSize := wrap64 (2 * lsz) in
  let part_size := partition_size lsz nitems part_id in
  let part_base := partition_base lsz part_id in
  merge_unit_loop 64 lsz part_size blockSize
    (load_shared lsz part_base (merge_load_bound part_size) results shm0).

Definition gpusort_bitonic_merge_block (lsz nitems : Z) (shm0 : list cell)
    (part_id : Z) (results : list Z) : list Z :=
  store_shared lsz (partition_base lsz part_id)
    (partition_size lsz nitems part_id)
    (merge_shared lsz nitems part_id shm0 results) results.

Definition gpusort_bitonic_merge (grid lsz : Z) (shm0 : list cell)
    (results : list Z) : list Z :=
  par_for grid
    (gpusort_bitonic_merge_block lsz (Z.of_nat (length results)) shm0)
    results.

(** *** gpusort_main *)

(** Modelled from the spec: [get_next_log2] is declared in a header that is
    not under src/.  The spec reads [1 << (get_next_log2(x + 1) - 1)] as
    [x] rounded down to a power of two, so [get_next_log2 n] is the least
    [N] with [n <= 2 ^ N]. *)
Definition get_next_log2 (n : Z) : Z := Z.log2_up n.

Definition UINT_MAX : Z := 2 ^ 32 - 1.

(** The common block size: the least of the three largest block sizes,
    each rounded down to a power of two.  [max_block k] is what
    [pgstrom_largest_workgroup_size] reports in [block_sz.x] for the
    [k]-th kernel. *)
Definition common_block_size (max_block : Z -> Z) : Z :=
  fold_left
    (fun bsz k =>
       Z.min bsz (wrap32 (Z.shiftl 1 (get_next_log2 (wrap32 (max_block k + 1)) - 1))))
    [0; 1; 2] UINT_MAX.

(** [grid_sz.x = ((nitems + 1) / 2 + block_sz.x - 1) / block_sz.x] *)
Definition half_grid (nitems bsz : Z) : Z :=
  wrap32 (wrap32 (wrap32 (nitems + 1) / 2 + bsz - 1) / bsz).

(** [work_size = (((nitems + unitsz - 1) / unitsz) * unitsz / 2)] and
    [grid_sz.x = (work_size + block_sz.x - 1) / block_sz.x] *)
Definition step_work_size (nitems unitsz : Z) : Z :=
  wrap64 (wrap64 (wrap64 (nitems + unitsz - 1) / unitsz * unitsz) / 2).

Definition step_grid (nitems unitsz bsz : Z) : Z :=
  wrap32 (wrap64 (step_work_size nitems unitsz + bsz - 1) / bsz).

(** [for (j = 2 * i; j > block_sz.x; j /= 2)]: one launch of
    [gpusort_bitonic_step] with [unitsz = 2 * j] (an [unsigned int]
    product, widened afterwards) and [reversing = (j == 2 * i)] per
    round. *)
Fixpoint main_step_loop (fuel : nat) (bsz i j : Z) (results : list Z)
    : list Z :=
  match fuel with
  | O => results
  | Datatypes.S fuel' =>
      if bsz <? j
      then
        let unitsz := wrap32 (2 * j) in
        let reversing := j =? wrap32 (2 * i) in
        let nitems := Z.of_nat (length results) in
        main_step_loop fuel' bsz i (j / 2)
          (gpusort_bitonic_step (step_grid nitems unitsz bsz) bsz unitsz
             reversing results)
      else results
  end.

(** [for (i = block_sz.x; i < nhalf; i *= 2)]: the step launches, then one
    launch of [gpusort_bitonic_merge]. *)
Fixpoint main_outer_loop (fuel : nat) (bsz nhalf i : Z) (shm0 : list cell)
    (results : list Z) : list Z :=
  match fuel with
  | O => results
  | Datatypes.S fuel' =>
      if i <? nhalf
      then
        let nitems := Z.of_nat (length results) in
        let results := main_step_loop 33 bsz i (wrap32 (2 * i)) results in
        let results :=
          gpusort_bitonic_merge (half_grid nitems bsz) bsz shm0 results in
        main_outer_loop fuel' bsz nhalf (wrap32 (i * 2)) shm0 results
      else results
  end.

(** The control kernel on the result array, every launch and every
    synchronisation returning [cudaSuccess].  [stale] is what the shared
    work memory of a block holds when a kernel starts.  The last launch,
    [gpusort_fixup_pointers], does not write to [kresults->results]. *)
Definition gpusort_main (max_block : Z -> Z) (stale : list Z)
    (results : list Z) : list Z :=
  let nitems := Z.of_nat (length results) in
  let bsz := common_block_size max_block in
  let nhalf := wrap32 (Z.shiftl 1 (get_next_log2 (wrap32 (nitems + 1)) - 1)) in
  let shm0 := map stale_cell stale in
  let results :=
    gpusort_bitonic_local (half_grid nitems bsz) bsz shm0 results in
  main_outer_loop 33 bsz nhalf bsz shm0 results.

(** The array is in the order of the comparison: no element compares
    greater than its successor. *)
Fixpoint sorted_by (l : list Z) : bool :=
  match l with
  | [] => true
  | x :: l' =>
      match l' with
      | [] => true
      | y :: _ => (gpusort_keycomp x y <=? 0) && sorted_by l'
      end
  end.

End GpuSort.

(** A three-way comparison of the keys [key x]: negative, zero or
    positive, as a generated [gpusort_keycomp] returns it. *)
Definition keycomp_of (key : Z -> Z) (x y : Z) : Z :=
  match key x ?= key y with
  | Lt => -1
  | Eq => 0
  | Gt => 1
  end.

(** ** Bytes and chunk memory *)

Definition byte_of_Z (z : Z) : byte :=
  match Byte.of_N (Z.to_N (z mod 256)) with
  | Some b => b
  | None => x00
  end.

Definition Z_of_byte (b : byte) : Z := Z.of_N (Byte.to_N b).

(** An unsigned integer of [n] bytes in memory, least significant byte
    first (host and device are little-endian). *)
Fixpoint le_bytes (n : nat) (z : Z) : list byte :=
  match n with
  | O => []
  | S n' => byte_of_Z z :: le_bytes n' (z / 256)
  end.

Fixpoint le_value (bs : list byte) : Z :=
  match bs with
  | [] => 0
  | b :: bs' => Z_of_byte b + 256 * le_value bs'
  end.

(** The [len] bytes at offset [off]. *)
Definition load_bytes (mem : list byte) (off len : Z) : list byte :=
  take (Z.to_nat len) (drop (Z.to_nat off) mem).

(** [memcpy(mem + off, bs, |bs|)].  The region keeps its size; bytes that
    would fall outside it (undefined in C) are dropped. *)
Definition store_bytes (mem : list byte) (off : Z) (bs : list byte) : list byte :=
  if off <? 0 then mem
  else take (length mem)
         (take (Z.to_nat off) mem ++ bs ++ drop (Z.to_nat off + length bs) mem).

Definition load_u32 (mem : list byte) (off : Z) : Z := le_value (load_bytes mem off 4).
Definition store_u32 (mem : list byte) (off v : Z) : list byte :=
  store_bytes mem off (le_bytes 4 v).

(** ** Layout of the structures shared with the device *)

(** The declarations of [kern_data_store], [kern_colmeta], [kern_tupitem]
    and [kern_parambuf] and the macro [STROMALIGN] are in headers that are
    not under src/.  What the code below takes from them is collected
    here and stays a parameter of every function. *)
Record layout : Type := {
  STROMALIGN_LEN : Z;         (** alignment unit of [STROMALIGN] *)
  offsetof_colmeta : Z;       (** [offsetof(kern_data_store, colmeta)] *)
  sizeof_colmeta : Z;         (** [sizeof(kern_colmeta)] *)
  offsetof_t_self : Z;        (** [offsetof(kern_tupitem, t_self)] *)
  offsetof_htup : Z;          (** [offsetof(kern_tupitem, htup)] *)
  offsetof_poffset : Z;       (** [offsetof(kern_parambuf, poffset)] *)
  sizeof_poffset : Z          (** size of one [poffset] slot *)
}.

(** Modelled from the spec: a row item is the original row length, the
    row identity and the bytes of the row, in this order; the length field
    holds a [uint32] like [HeapTupleData.t_len] and the identity is the
    6-byte [ItemPointerData].  A parameter buffer is a header, then one
    offset slot per parameter, then the payload.  Offsets are rounded to one
    fixed power-of-two unit. *)
Definition layout_ok (L : layout) : Prop :=
  (exists k, 0 <= k <= 16 /\ STROMALIGN_LEN L = 2 ^ k) /\
  0 <= offsetof_colmeta L <= 2 ^ 16 /\
  0 <= sizeof_colmeta L <= 2 ^ 16 /\
  4 <= offsetof_t_self L /\
  offsetof_t_self L + 6 <= offsetof_htup L <= 2 ^ 16 /\
  0 <= offsetof_poffset L <= 2 ^ 16 /\
  0 < sizeof_poffset L <= 2 ^ 16.

(** A layout for concrete runs: 16-byte unit, 40-byte chunk header with
    8-byte column entries, row items with the row at offset 12, parameter
    buffers with two 4-byte header words and 4-byte slots. *)
Definition layout_x86_64 : layout :=
  {| STROMALIGN_LEN := 16; offsetof_colmeta := 40; sizeof_colmeta := 8;
     offsetof_t_self := 4; offsetof_htup := 12;
     offsetof_poffset := 8; sizeof_poffset := 4 |}.

Definition STROMALIGN (L : layout) (len : Z) : Z := TYPEALIGN (STROMALIGN_LEN L) len.

(** Constants of PostgreSQL. *)
Definition BLCKSZ : Z := 8192.
Definition INT_MAX : Z := 2 ^ 31 - 1.
Definition InvalidOid : Z := 0.
Definition NUMERICOID : Z := 1700.
Definition sizeof_Oid : Z := 4.
Definition sizeof_uint : Z := 4.
Definition sizeof_cl_ulong : Z := 8.
(** [offsetof(HeapTupleHeaderData, t_bits)] *)
Definition offsetof_t_bits : Z := 23.

Inductive error : Type :=
| ERR_unexpected_format      (** "Bug? unexpected data-store format" *)
| ERR_datatype_mismatch      (** [ERRCODE_DATATYPE_MISMATCH] *)
| ERR_cache_lookup_failed    (** "cache lookup failed for type" *)
| ERR_unexpected_node        (** "unexpected node" *)
| ERR_file_access.           (** [errcode_for_file_access()] *)

(** ** The data store (datastore.c) *)

Inductive kds_format_tag : Type :=
| KDS_FORMAT_ROW
| KDS_FORMAT_SLOT
| KDS_FORMAT_other (tag : Z).   (** any value that is neither tag *)

(** An entry of [colmeta].  The declaration of the struct is in a header
    that is not under src/: its fields are two [cl_char], [attbyval] and
    [attalign], and three [cl_short], [attlen], [attnum] and
    [attcacheoff], the 8 bytes [layout_x86_64] has for an entry.  A field
    holds a value of its type, and a store into it cuts an [int] to that
    width. *)
Record kern_colmeta : Type := {
  cm_attbyval : bool;
  cm_attalign : Z;
  cm_attlen : Z;
  cm_attnum : Z;
  cm_attcacheoff : Z
}.

(** A chunk.  The header fields and the column array of the C struct are
    record fields ([kds_] and [cm_] prefixed, as C members share no name
    space here); [kds_mem] is the whole region of the chunk, addressed by
    chunk-relative offsets, of which the code below uses the part behind
    the header: the row index and the items. *)
Record kern_data_store : Type := {
  kds_length : Z;
  kds_usage : Z;
  kds_ncols : Z;
  kds_nitems : Z;
  kds_nrooms : Z;
  kds_format : kds_format_tag;
  kds_tdhasoid : bool;
  kds_tdtypeid : Z;
  kds_tdtypmod : Z;
  kds_colmeta : list kern_colmeta;
  kds_mem : list byte
}.

(** [HeapTupleData]: [t_self] is the 6 bytes of an [ItemPointerData],
    [t_data] the bytes [t_data] points to. *)
Record HeapTupleData : Type := {
  t_len : Z;
  t_self : list byte;
  t_data : list byte
}.

(** The header fields are in the range of their C types ([cl_uint]) and
    the region has [length] bytes. *)
Definition kds_wf (kds : kern_data_store) : Prop :=
  Z.of_nat (length (kds_mem kds)) = kds_length kds /\
  kds_length kds < 2 ^ 32 /\
  0 <= kds_usage kds < 2 ^ 32 /\
  0 <= kds_ncols kds < 2 ^ 32 /\
  0 <= kds_nitems kds < 2 ^ 32 /\
  0 <= kds_nrooms kds < 2 ^ 32.

(** [t_len] is a [uint32] and counts the bytes at [t_data]; [t_self] has
    the 6 bytes of an [ItemPointerData]. *)
Definition tuple_wf (tuple : HeapTupleData) : Prop :=
  0 <= t_len tuple < 2 ^ 32 /\
  length (t_self tuple) = 6%nat /\
  Z.of_nat (length (t_data tuple)) = t_len tuple.

(** [STROMALIGN(offsetof(kern_data_store, colmeta[ncols]))], which is also
    where [KERN_DATA_STORE_BODY] starts. *)
Definition KERN_DATA_STORE_HEAD_LENGTH (L : layout) (ncols : Z) : Z :=
  STROMALIGN L (wrap64 (offsetof_colmeta L + wrap64 (sizeof_colmeta L * ncols))).

(** Offset of [((uint * ) KERN_DATA_STORE_BODY(kds))[i]]. *)
Definition rowindex_offset (L : layout) (kds : kern_data_store) (i : Z) : Z :=
  wrap64 (KERN_DATA_STORE_HEAD_LENGTH L (kds_ncols kds) + wrap64 (sizeof_uint * i)).

(** Modelled from the spec: the macro [KERN_DATA_STORE_TUPITEM] is not under
    src/; the item of a row is located through the index array, whose entry
    is the chunk-relative offset of the item. *)
Definition KERN_DATA_STORE_TUPITEM (L : layout) (kds : kern_data_store) (i : Z) : Z :=
  load_u32 (kds_mem kds) (rowindex_offset L kds i).

(** What a fetch leaves in the caller's slot. *)
Inductive fetched : Type :=
| FetchedRow (tuple : HeapTupleData)   (** [ExecStoreTuple(tuple, slot, ...)] *)
| FetchedSlot (row_index : Z).         (** the value and null arrays of the row *)

(** [kern_fetch_data_store]: [None] is the [false] of an index out of
    range.  [tuple->t_data] points into the chunk; the embedding gives the
    [t_len] bytes it points to. *)
Definition kern_fetch_data_store (L : layout) (kds : kern_data_store)
    (row_index : Z) : result error (option fetched) :=
  if kds_nitems kds <=? row_index then Ok None
  else
    match kds_format kds with
    | KDS_FORMAT_ROW =>
        let tup_item := KERN_DATA_STORE_TUPITEM L kds row_index in
        let len := load_u32 (kds_mem kds) tup_item in
        Ok (Some (FetchedRow
          {| t_len := len;
             t_self := load_bytes (kds_mem kds) (tup_item + offsetof_t_self L) 6;
             t_data := load_bytes (kds_mem kds) (tup_item + offsetof_htup L) len |}))
    | KDS_FORMAT_SLOT => Ok (Some (FetchedSlot row_index))
    | KDS_FORMAT_other _ => Err ERR_unexpected_format
    end.

(** Writes [tup_item->t_len], [tup_item->t_self] and the row at
    [&tup_item->htup]. *)
Definition store_tupitem (L : layout) (mem : list byte) (tup_item : Z)
    (tuple : HeapTupleData) : list byte :=
  let mem := store_u32 mem tup_item (t_len tuple) in
  let mem := store_bytes mem (tup_item + offsetof_t_self L) (take 6 (t_self tuple)) in
  store_bytes mem (tup_item + offsetof_htup L)
    (take (Z.to_nat (t_len tuple)) (t_data tuple)).

(** [pgstrom_data_store_insert_tuple]; the tuple is what
    [ExecFetchSlotTuple(slot)] returns. *)
Definition pgstrom_data_store_insert_tuple (L : layout) (kds : kern_data_store)
    (tuple : HeapTupleData) : result error (bool * kern_data_store) :=
  if kds_nrooms kds <=? kds_nitems kds then Ok (false, kds)
  else
    match kds_format kds with
    | KDS_FORMAT_ROW =>
        let item_size := LONGALIGN (wrap64 (offsetof_htup L + t_len tuple)) in
        let consume :=
          wrap64 (wrap64 (rowindex_offset L kds (kds_nitems kds + 1)
                          + kds_usage kds) + item_size) in
        if kds_length kds <? consume then Ok (false, kds)
        else
          let usage := wrap32 (kds_usage kds + item_size) in
          let tup_item := wrap64 (kds_length kds - usage) in
          let mem := store_tupitem L (kds_mem kds) tup_item tuple in
          let mem := store_u32 mem (rowindex_offset L kds (kds_nitems kds))
                       (wrap32 tup_item) in
          Ok (true,
              {| kds_length := kds_length kds;
                 kds_usage := usage;
                 kds_ncols := kds_ncols kds;
                 kds_nitems := wrap32 (kds_nitems kds + 1);
                 kds_nrooms := kds_nrooms kds;
                 kds_format := kds_format kds;
                 kds_tdhasoid := kds_tdhasoid kds;
                 kds_tdtypeid := kds_tdtypeid kds;
                 kds_tdtypmod := kds_tdtypmod kds;
                 kds_colmeta := kds_colmeta kds;
                 kds_mem := mem |})
    | _ => Err ERR_unexpected_format
    end.

(** The space the chunk needs once the tuple is appended: the end of the
    row index with one more entry, the bytes already used at the tail, and
    the new item rounded to 8 bytes. *)
Definition space_after_append (L : layout) (kds : kern_data_store)
    (tuple : HeapTupleData) : Z :=
  KERN_DATA_STORE_HEAD_LENGTH L (kds_ncols kds) + sizeof_uint * (kds_nitems kds + 1)
  + kds_usage kds + LONGALIGN (offsetof_htup L + t_len tuple).

(** *** Loading a page *)

(** A line pointer of a heap page with the tuple it points to:
    [ItemIdIsNormal], [ItemIdGetLength], the bytes [PageGetItem] returns,
    and what [HeapTupleSatisfiesVisibility] answers for the tuple under the
    snapshot of the call. *)
Record ItemIdData : Type := {
  lp_normal : bool;
  lp_len : Z;
  lp_item : list byte;
  lp_visible : bool
}.

Record Page : Type := {
  pd_linp : list ItemIdData;
  pd_all_visible : bool          (** [PageIsAllVisible] *)
}.

Record SnapshotData : Type := { takenDuringRecovery : bool }.

Definition PageGetMaxOffsetNumber (page : Page) : Z := Z.of_nat (length (pd_linp page)).

(** [ItemPointerSet(&tup.t_self, blknum, lineoff)]: the block number in two
    [uint16] halves, high half first, then the offset number. *)
Definition ItemPointerSet (blknum lineoff : Z) : list byte :=
  le_bytes 2 (Z.shiftr blknum 16) ++ le_bytes 2 (Z.land blknum 65535)
  ++ le_bytes 2 lineoff.

(** The estimate of [pgstrom_data_store_insert_block], as the C expression
    computes it: [kds->nitems + lines] is an [unsigned int] sum, the rest
    is [Size] arithmetic. *)
Definition insert_block_max_consume (L : layout) (kds : kern_data_store)
    (lines : Z) : Z :=
  wrap64 (wrap64 (wrap64 (wrap64
    (KERN_DATA_STORE_HEAD_LENGTH L (kds_ncols kds)
     + wrap64 (sizeof_uint * wrap32 (kds_nitems kds + lines)))
     + wrap64 (offsetof_htup L * lines))
     + BLCKSZ)
     + kds_usage kds).

(** The estimate in the words of the spec: header, one index entry per
    stored or expected tuple, the item header of every expected tuple, one
    page, and the bytes already used. *)
Definition worst_case_estimate (L : layout) (kds : kern_data_store)
    (lines : Z) : Z :=
  KERN_DATA_STORE_HEAD_LENGTH L (kds_ncols kds)
  + sizeof_uint * (kds_nitems kds + lines)
  + offsetof_htup L * lines + BLCKSZ + kds_usage kds.

(** One round of the scan loop.  The state is [kds->usage], [ntup] and the
    chunk memory; [tup_index] is the offset of the first free index entry. *)
Definition insert_block_line (L : layout) (kds : kern_data_store)
    (blknum : Z) (all_visible : bool) (tup_index : Z)
    (st : Z * Z * list byte) (line : Z * ItemIdData) : Z * Z * list byte :=
  let '(usage, ntup, mem) := st in
  let '(lineoff, lpp) := line in
  if negb (lp_normal lpp) then st
  else
    let valid := if all_visible then true else lp_visible lpp in
    if negb valid then st
    else
      let usage := wrap32 (usage + LONGALIGN (lp_len lpp)) in
      let tup_item := wrap64 (kds_length kds - usage) in
      let mem := store_u32 mem (wrap64 (tup_index + wrap64 (sizeof_uint * ntup)))
                   (wrap32 tup_item) in
      let mem := store_tupitem L mem tup_item
                   {| t_len := lp_len lpp;
                      t_self := ItemPointerSet blknum lineoff;
                      t_data := lp_item lpp |} in
      (usage, ntup + 1, mem).

(** [pgstrom_data_store_insert_block] on the chunk: the number of tuples
    stored, or -1 when the page has to go to the next chunk.  Reading,
    pruning and locking the buffer act on the page, not on the chunk. *)
Definition pgstrom_data_store_insert_block (L : layout) (kds : kern_data_store)
    (page : Page) (blknum : Z) (snapshot : SnapshotData)
    : Z * kern_data_store :=
  let lines := PageGetMaxOffsetNumber page in
  if kds_length kds <? insert_block_max_consume L kds lines then (-1, kds)
  else
    let all_visible := pd_all_visible page && negb (takenDuringRecovery snapshot) in
    let tup_index := rowindex_offset L kds (kds_nitems kds) in
    let '(usage, ntup, mem) :=
      fold_left (insert_block_line L kds blknum all_visible tup_index)
        (combine (map Z.of_nat (seq 1 (length (pd_linp page)))) (pd_linp page))
        (kds_usage kds, 0, kds_mem kds) in
    (ntup,
     {| kds_length := kds_length kds;
        kds_usage := usage;
        kds_ncols := kds_ncols kds;
        kds_nitems := wrap32 (kds_nitems kds + ntup);
        kds_nrooms := kds_nrooms kds;
        kds_format := kds_format kds;
        kds_tdhasoid := kds_tdhasoid kds;
        kds_tdtypeid := kds_tdtypeid kds;
        kds_tdtypmod := kds_tdtypmod kds;
        kds_colmeta := kds_colmeta kds;
        kds_mem := mem |}).

(** *** Initialising a chunk *)

(** [pg_attribute.attalign]: one of the codes ['c'], ['s'], ['i'], ['d']. *)
Inductive attalign_code : Type := ALIGN_c | ALIGN_s | ALIGN_i | ALIGN_d.

(** Modelled from the spec: [typealign_get_width] is not under src/; a
    column entry holds the required alignment in bytes, which for the four
    codes of PostgreSQL is 1, 2, 4 and 8. *)
Definition typealign_get_width (a : attalign_code) : Z :=
  match a with
  | ALIGN_c => 1
  | ALIGN_s => 2
  | ALIGN_i => 4
  | ALIGN_d => 8
  end.

(** The fields of [pg_attribute] a chunk is concerned with.  [attnotnull]
    is false for a nullable column. *)
Record Form_pg_attribute : Type := {
  attbyval : bool;
  attalign : attalign_code;
  attlen : Z;
  attnum : Z;
  atttypid : Z;
  attnotnull : bool
}.

(** [natts] is the length of [attrs]. *)
Record TupleDesc : Type := {
  attrs : list Form_pg_attribute;
  tdhasoid : bool;
  tdtypeid : Z;
  tdtypmod : Z
}.

Definition natts (tupdesc : TupleDesc) : Z := Z.of_nat (length (attrs tupdesc)).

(** [attcacheoff] before the loop: the fixed row header, the OID if any,
    rounded by [MAXALIGN]. *)
Definition initial_attcacheoff (hasoid : bool) : Z :=
  to_int32 (MAXALIGN (offsetof_t_bits + (if hasoid then sizeof_Oid else 0))).

(** One round of the loop over the columns; the state is the [int
    attcacheoff] and the entries written so far.  The entry takes the
    [int] values of the round cut to its [cl_char] and [cl_short] fields;
    the loop goes on with the [int]. *)
Definition init_colmeta_step (internal_format : bool)
    (st : Z * list kern_colmeta) (attr : Form_pg_attribute)
    : Z * list kern_colmeta :=
  let '(attcacheoff, colmeta) := st in
  let '(byval, align, len) :=
    if internal_format && (atttypid attr =? NUMERICOID)
    then (true, sizeof_cl_ulong, sizeof_cl_ulong)
    else (attbyval attr, typealign_get_width (attalign attr), attlen attr) in
  let attcacheoff :=
    if 0 <? attcacheoff
    then (if 0 <? len then to_int32 (TYPEALIGN align attcacheoff) else -1)
    else attcacheoff in
  let entry :=
    {| cm_attbyval := byval; cm_attalign := to_int8 align;
       cm_attlen := to_int16 len; cm_attnum := to_int16 (attnum attr);
       cm_attcacheoff := to_int16 attcacheoff |} in
  (if 0 <=? attcacheoff then attcacheoff + len else attcacheoff,
   colmeta ++ [entry]).

(** [init_kern_data_store] on the region [mem]. *)
Definition init_kern_data_store (mem : list byte) (tupdesc : TupleDesc)
    (length : Z) (format : kds_format_tag) (nrooms : Z)
    (internal_format : bool) : kern_data_store :=
  {| kds_length := wrap32 length;
     kds_usage := 0;
     kds_ncols := wrap32 (natts tupdesc);
     kds_nitems := 0;
     kds_nrooms := wrap32 nrooms;
     kds_format := format;
     kds_tdhasoid := tdhasoid tupdesc;
     kds_tdtypeid := tdtypeid tupdesc;
     kds_tdtypmod := tdtypmod tupdesc;
     kds_colmeta :=
       snd (fold_left (init_colmeta_step internal_format) (attrs tupdesc)
              (initial_attcacheoff (tdhasoid tupdesc), []));
     kds_mem := mem |}.

(** *** Cached offsets in the words of the spec *)

Definition round_up (off align : Z) : Z := (off + align - 1) / align * align.

(** Length and alignment of a column in the chunk: those of the
    descriptor, or 8 and 8 for a numeric column in the device encoding. *)
Definition column_length (internal_format : bool) (attr : Form_pg_attribute) : Z :=
  if internal_format && (atttypid attr =? NUMERICOID) then 8 else attlen attr.

Definition column_alignment (internal_format : bool) (attr : Form_pg_attribute) : Z :=
  if internal_format && (atttypid attr =? NUMERICOID) then 8
  else typealign_get_width (attalign attr).

(** The offsets of the columns: [running] is the running offset while it
    is known; a column for which [freezes] holds gets -1 and so does every
    later column; any other column gets the running offset rounded up to
    its alignment, and the running offset then advances by its length. *)
Fixpoint offsets_by (freezes : Form_pg_attribute -> bool)
    (internal_format : bool) (running : option Z)
    (cols : list Form_pg_attribute) : list Z :=
  match cols with
  | [] => []
  | attr :: cols' =>
      match running with
      | None => -1 :: offsets_by freezes internal_format None cols'
      | Some off =>
          if freezes attr
          then -1 :: offsets_by freezes internal_format None cols'
          else
            let cached := round_up off (column_alignment internal_format attr) in
            cached :: offsets_by freezes internal_format
                        (Some (cached + column_length internal_format attr)) cols'
      end
  end.

Definition variable_width (internal_format : bool) (attr : Form_pg_attribute) : bool :=
  column_length internal_format attr <=? 0.

(** The row header, plus the OID slot if any, rounded to 8 bytes. *)
Definition header_offset (hasoid : bool) : Z :=
  round_up (23 + (if hasoid then 4 else 0)) 8.

(** As the specification states them: frozen by the first column that is
    variable-width or nullable. *)
Definition stated_offsets (internal_format : bool) (tupdesc : TupleDesc) : list Z :=
  offsets_by (fun attr => variable_width internal_format attr || negb (attnotnull attr))
    internal_format (Some (header_offset (tdhasoid tupdesc))) (attrs tupdesc).

(** As the code has it: frozen by the first variable-width column. *)
Definition cached_offsets (internal_format : bool) (tupdesc : TupleDesc) : list Z :=
  offsets_by (variable_width internal_format)
    internal_format (Some (header_offset (tdhasoid tupdesc))) (attrs tupdesc).

(** The offsets of the code fit the [cl_short] that holds them: the
    columns of fixed width in front of the first one of variable width
    start within 32767 bytes. *)
Definition offsets_fit (internal_format : bool) (tupdesc : TupleDesc) : Prop :=
  Forall (fun off => off < 2 ^ 15) (cached_offsets internal_format tupdesc).

(** The descriptor is in the range of its types: [attlen] is an [int16]
    and there are at most [MaxTupleAttributeNumber] columns. *)
Definition tupdesc_wf (tupdesc : TupleDesc) : Prop :=
  (length (attrs tupdesc) <= 1664)%nat /\
  Forall (fun attr => -2 ^ 15 <= attlen attr < 2 ^ 15) (attrs tupdesc).

(** *** Concrete chunks, tuples and descriptors *)

Definition int4_column (num : Z) (notnull : bool) : Form_pg_attribute :=
  {| attbyval := true; attalign := ALIGN_i; attlen := 4; attnum := num;
     atttypid := 23; attnotnull := notnull |}.

(** A [name] column: 64 bytes, aligned to 1. *)
Definition name_column (num : Z) : Form_pg_attribute :=
  {| attbyval := false; attalign := ALIGN_c; attlen := 64; attnum := num;
     atttypid := 19; attnotnull := true |}.

(** 520 [name] columns. *)
Definition tupdesc_520_names : TupleDesc :=
  {| attrs := map (fun i => name_column (Z.of_nat i)) (seq 1 520);
     tdhasoid := false; tdtypeid := 0; tdtypmod := -1 |}.

(** Two [int4] columns, the first of them nullable. *)
Definition tupdesc_two_int4 : TupleDesc :=
  {| attrs := [int4_column 1 false; int4_column 2 true];
     tdhasoid := false; tdtypeid := 0; tdtypmod := -1 |}.

(** An empty chunk of 256 bytes for rows of one column. *)
Definition chunk_empty (format : kds_format_tag) : kern_data_store :=
  {| kds_length := 256; kds_usage := 0; kds_ncols := 1; kds_nitems := 0;
     kds_nrooms := INT_MAX; kds_format := format; kds_tdhasoid := false;
     kds_tdtypeid := 0; kds_tdtypmod := -1;
     kds_colmeta := []; kds_mem := repeat x00 256 |}.

Definition tuple_3bytes : HeapTupleData :=
  {| t_len := 3; t_self := [x00; x00; x07; x00; x01; x00]; t_data := [x0a; x0b; x0c] |}.

(** A tuple of 300 bytes: larger than the whole chunk above. *)
Definition tuple_300bytes : HeapTupleData :=
  {| t_len := 300; t_self := [x00; x00; x07; x00; x02; x00]; t_data := repeat xff 300 |}.

Definition page_one_line : Page :=
  {| pd_linp := [{| lp_normal := true; lp_len := 3; lp_item := [x0a; x0b; x0c];
                    lp_visible := true |}];
     pd_all_visible := false |}.

(** *** Creating a row-format data store *)

Inductive open_flag : Type := O_RDWR | O_CREAT | O_TRUNC | PG_BINARY.
Inductive prot_flag : Type := PROT_READ | PROT_WRITE.
Inductive map_flag : Type := MAP_SHARED | MAP_POPULATE.

(** The calls of [pgstrom_create_data_store_row] that provide the storage,
    with their arguments. *)
Inductive syscall : Type :=
| SYS_MemoryContextAlloc (size : Z)
| SYS_OpenTransientFile (fname : string) (flags : list open_flag) (mode : Z)
| SYS_ftruncate (fd len : Z)
| SYS_mmap (len : Z) (prot : list prot_flag) (flags : list map_flag) (fd off : Z)
| SYS_CloseTransientFile (fd : Z).

(** What the environment answers: the name [get_pgstrom_temp_filename]
    returns, the descriptor [OpenTransientFile] returns (negative on
    failure), the return code of [ftruncate], and whether [mmap] of a given
    length succeeds.  Allocated memory has no defined content
    ([alloc_content]); a mapping shows the zero bytes of the new file. *)
Record os_env : Type := {
  temp_filename : string;
  open_result : Z;
  ftruncate_result : Z;
  mmap_succeeds : Z -> bool;
  alloc_content : Z -> list byte
}.

(** A [dlist_node]: its links [prev] and [next] are the [NULL] of a
    zeroed structure, or point to the neighbours on the list that
    [dlist_push_tail] has put the node on. *)
Inductive dlist_node : Type :=
| DLIST_NULL
| DLIST_LINKED.

(** [pgstrom_data_store]; [pds_chain] is the node [chain] that links the
    store to its [GpuContext], [pds_kds] is the chunk [pds->kds] points to
    and [pds_ktoast] is always [NULL] here. *)
Record pgstrom_data_store : Type := {
  pds_chain : dlist_node;
  pds_kds_fname : option string;
  pds_kds_length : Z;
  pds_kds_offset : Z;
  pds_kds : kern_data_store
}.

(** [pgstrom_create_data_store_row].  The local [Size kds_length] is
    declared and never assigned: what [mmap] and the error messages read
    from it is indeterminate, and [kds_length_local] stands for it.  The
    store is put on the list of its [GpuContext] by [dlist_push_tail].
    The calls made are returned with the outcome. *)
Definition pgstrom_create_data_store_row (L : layout) (env : os_env)
    (kds_length_local : Z) (tupdesc : TupleDesc) (length : Z)
    (file_mapped : bool) : list syscall * result error pgstrom_data_store :=
  let kds_fname := if file_mapped then Some (temp_filename env) else None in
  let pds_kds_length :=
    wrap64 (KERN_DATA_STORE_HEAD_LENGTH L (natts tupdesc) + STROMALIGN L length) in
  let finish (mem : list byte) : pgstrom_data_store :=
    {| pds_chain := DLIST_LINKED;
       pds_kds_fname := kds_fname;
       pds_kds_length := pds_kds_length;
       pds_kds_offset := 0;
       pds_kds := init_kern_data_store mem tupdesc pds_kds_length
                    KDS_FORMAT_ROW INT_MAX false |} in
  match kds_fname with
  | None =>
      ([SYS_MemoryContextAlloc pds_kds_length],
       Ok (finish (alloc_content env pds_kds_length)))
  | Some fname =>
      let kds_fdesc := open_result env in
      let t1 := [SYS_OpenTransientFile fname [O_RDWR; O_CREAT; O_TRUNC; PG_BINARY] 384] in
      if kds_fdesc <? 0 then (t1, Err ERR_file_access)
      else
        let t2 := t1 ++ [SYS_ftruncate kds_fdesc pds_kds_length] in
        if negb (ftruncate_result env =? 0) then (t2, Err ERR_file_access)
        else
          let t3 := t2 ++ [SYS_mmap kds_length_local [PROT_READ; PROT_WRITE]
                             [MAP_SHARED; MAP_POPULATE] kds_fdesc 0] in
          if negb (mmap_succeeds env kds_length_local) then (t3, Err ERR_file_access)
          else
            (t3 ++ [SYS_CloseTransientFile kds_fdesc],
             Ok (finish (repeat x00 (Z.to_nat kds_length_local))))
  end.

(** The length of the region a successful file-mapped creation maps. *)
Definition mapped_length (trace : list syscall) : option Z :=
  match
    omap (fun c => match c with SYS_mmap len _ _ _ _ => Some len | _ => None end) trace
  with
  | len :: _ => Some len
  | [] => None
  end.

(** An environment in which every call succeeds. *)
Definition env_success : os_env :=
  {| temp_filename := "base/pgsql_tmp/pgsql_tmp_strom_1.0"%string;
     open_result := 3;
     ftruncate_result := 0;
     mmap_succeeds := fun _ => true;
     alloc_content := fun size => repeat x00 (Z.to_nat size) |}.

(** ** The parameter buffer (datastore.c) *)

(** A [Const] node: [constvalue] is the [Datum]; for a type passed by
    reference with [constlen <= 0], [constdata] is the varlena it points
    to, all [VARSIZE] bytes of it. *)
Record Const : Type := {
  constisnull : bool;
  constlen : Z;
  constvalue : Z;
  constdata : list byte
}.

Record Param : Type := { paramid : Z; paramtype : Z }.

Inductive Node : Type :=
| T_Const (con : Const)
| T_Param (param : Param)
| T_other (tag : Z).            (** any other expression node *)

(** [ParamExternData]; [prm_data] is the varlena [value] points to when
    the type is passed by reference. *)
Record ParamExternData : Type := {
  prm_value : Z;
  prm_isnull : bool;
  prm_ptype : Z;
  prm_data : list byte
}.

(** [ParamListInfoData].  The hook [paramFetch(param_info, paramid)] fills
    in entries of the [params] array: it maps the array to the array it
    leaves. *)
Record ParamListInfoData : Type := {
  numParams : Z;
  params : list ParamExternData;
  paramFetch : option (list ParamExternData -> Z -> list ParamExternData)
}.

(** [econtext->ecxt_param_list_info], [None] for [NULL]. *)
Record ExprContext : Type := {
  ecxt_param_list_info : option ParamListInfoData
}.

Definition OidIsValid (oid : Z) : bool := negb (oid =? InvalidOid).

(** Modelled from the spec: the declaration of [kern_parambuf] is not under
    src/; the buffer is a header with the total length and the parameter
    count, an offset slot per parameter where 0 means null, and the
    payload.  The header words and the slots are record fields; [kp_data]
    is the whole buffer, of which the code below addresses the part behind
    the slots. *)
Record kern_parambuf : Type := {
  kp_length : Z;
  kp_nparams : Z;
  kp_poffset : list Z;
  kp_data : list byte
}.

(** The variables of the loop in [pgstrom_create_kern_parambuf]:
    [str.data] up to [str.len], the slots [kpbuf->poffset], [index], and
    the [params] array of the parameter list. *)
Record parambuf_state : Type := {
  st_str : list byte;
  st_poffset : list Z;
  st_index : Z;
  st_params : list ParamExternData
}.

Definition str_len (st : parambuf_state) : Z := Z.of_nat (length (st_str st)).

(** [appendBinaryStringInfo(&str, data, datalen)] *)
Definition appendBinaryStringInfo (st : parambuf_state) (data : list byte)
    (datalen : Z) : parambuf_state :=
  {| st_str := st_str st ++ take (Z.to_nat datalen) data;
     st_poffset := st_poffset st;
     st_index := st_index st;
     st_params := st_params st |}.

(** [kpbuf->poffset[index] = v] *)
Definition set_poffset (st : parambuf_state) (v : Z) : parambuf_state :=
  {| st_str := st_str st;
     st_poffset := wr (st_poffset st) (st_index st) v;
     st_index := st_index st;
     st_params := st_params st |}.

Definition next_index (st : parambuf_state) : parambuf_state :=
  {| st_str := st_str st;
     st_poffset := st_poffset st;
     st_index := st_index st + 1;
     st_params := st_params st |}.

Definition set_params (st : parambuf_state) (prms : list ParamExternData)
    : parambuf_state :=
  {| st_str := st_str st;
     st_poffset := st_poffset st;
     st_index := st_index st;
     st_params := prms |}.

(** The bytes of a [Datum] passed by value that a copy of [len] bytes from
    its address takes: the value is in the low bytes. *)
Definition datum_bytes (len : Z) (datum : Z) : list byte :=
  le_bytes (Z.to_nat len) datum.

(** The end of a round: pad [str] to the alignment unit from the array
    [padding], which the function never initialises, then [index++]. *)
Definition align_and_advance (L : layout) (padding : list byte)
    (st : parambuf_state) : parambuf_state :=
  let st :=
    if STROMALIGN L (str_len st) =? str_len st then st
    else appendBinaryStringInfo st padding (STROMALIGN L (str_len st) - str_len st) in
  next_index st.

Definition default_prm : ParamExternData :=
  {| prm_value := 0; prm_isnull := true; prm_ptype := InvalidOid; prm_data := [] |}.

(** Whether the [Param] branch resolves the parameter at all:
    [param_info && param->paramid > 0 && param->paramid <= numParams]. *)
Definition param_resolvable (econtext : ExprContext) (param : Param) : bool :=
  match ecxt_param_list_info econtext with
  | None => false
  | Some param_info =>
      (0 <? paramid param) && (paramid param <=? numParams param_info)
  end.

(** Every slot from the index on still holds the 0 of the initial
    [memset]. *)
Definition slots_clear (st : parambuf_state) : Prop :=
  forall j, st_index st <= j -> rd 0 (st_poffset st) j = 0.

(** One round of [foreach (cell, used_params)]. *)
Definition parambuf_step (L : layout) (get_typlen : Z -> Z)
    (padding : list byte) (econtext : ExprContext) (st : parambuf_state)
    (node : Node) : result error parambuf_state :=
  match node with
  | T_Const con =>
      let st :=
        if constisnull con then set_poffset st 0
        else
          let st := set_poffset st (wrap32 (str_len st)) in
          if 0 <? constlen con
          then appendBinaryStringInfo st
                 (datum_bytes (constlen con) (constvalue con)) (constlen con)
          else appendBinaryStringInfo st (constdata con)
                 (Z.of_nat (length (constdata con))) in
      Ok (align_and_advance L padding st)
  | T_Param param =>
      match ecxt_param_list_info econtext with
      | Some param_info =>
          if (0 <? paramid param) && (paramid param <=? numParams param_info)
          then
            let slot := paramid param - 1 in
            let st :=
              match paramFetch param_info with
              | Some hook =>
                  if OidIsValid (prm_ptype (rd default_prm (st_params st) slot))
                  then st
                  else set_params st (hook (st_params st) (paramid param))
              | None => st
              end in
            let prm := rd default_prm (st_params st) slot in
            if negb (OidIsValid (prm_ptype prm))
            then Ok (next_index (set_poffset st 0))
            else if negb (prm_ptype prm =? paramtype param)
            then Err ERR_datatype_mismatch
            else if prm_isnull prm
            then Ok (align_and_advance L padding (set_poffset st 0))
            else
              let typlen := get_typlen (prm_ptype prm) in
              if typlen =? 0 then Err ERR_cache_lookup_failed
              else if 0 <? typlen
              then Ok (align_and_advance L padding
                         (appendBinaryStringInfo st
                            (datum_bytes typlen (prm_value prm)) typlen))
              else Ok (align_and_advance L padding
                         (appendBinaryStringInfo st (prm_data prm)
                            (Z.of_nat (length (prm_data prm)))))
          else Ok (align_and_advance L padding st)
      | None => Ok (align_and_advance L padding st)
      end
  | T_other _ => Err ERR_unexpected_node
  end.

Fixpoint parambuf_loop (L : layout) (get_typlen : Z -> Z) (padding : list byte)
    (econtext : ExprContext) (nodes : list Node) (st : parambuf_state)
    : result error parambuf_state :=
  match nodes with
  | [] => Ok st
  | node :: nodes' =>
      bind (parambuf_step L get_typlen padding econtext st node)
        (parambuf_loop L get_typlen padding econtext nodes')
  end.

(** [STROMALIGN(offsetof(kern_parambuf, poffset[nparams]))] *)
Definition parambuf_head (L : layout) (nparams : Z) : Z :=
  STROMALIGN L (wrap64 (offsetof_poffset L + wrap64 (sizeof_poffset L * nparams))).

(** The state before the loop: the head of the buffer zeroed, which makes
    every slot 0. *)
Definition parambuf_init (L : layout) (econtext : ExprContext)
    (nparams : Z) : parambuf_state :=
  {| st_str := repeat x00 (Z.to_nat (parambuf_head L nparams));
     st_poffset := repeat 0 (Z.to_nat nparams);
     st_index := 0;
     st_params := match ecxt_param_list_info econtext with
                  | Some param_info => params param_info
                  | None => []
                  end |}.

(** [pgstrom_create_kern_parambuf] *)
Definition pgstrom_create_kern_parambuf (L : layout) (get_typlen : Z -> Z)
    (padding : list byte) (used_params : list Node) (econtext : ExprContext)
    : result error kern_parambuf :=
  let nparams := Z.of_nat (length used_params) in
  bind (parambuf_loop L get_typlen padding econtext used_params
          (parambuf_init L econtext nparams))
    (fun st =>
       Ok {| kp_length := wrap32 (str_len st);
             kp_nparams := wrap32 nparams;
             kp_poffset := st_poffset st;
             kp_data := st_str st |}).

(** A null constant. *)
Definition null_const : Const :=
  {| constisnull := true; constlen := 4; constvalue := 0; constdata := [] |}.

(** A 4-byte integer constant passed by value. *)
Definition int4_const (v : Z) : Const :=
  {| constisnull := false; constlen := 4; constvalue := v; constdata := [] |}.

(** ** Row chunks in use *)

(** The item of row [i] lies in the used tail of the chunk: it starts at
    or behind [length - usage] and its row ends inside the chunk. *)
Definition item_in_tail (L : layout) (kds : kern_data_store) (i : Z) : Prop :=
  let tup_item := KERN_DATA_STORE_TUPITEM L kds i in
  kds_length kds - kds_usage kds <= tup_item /\
  tup_item + offsetof_htup L + load_u32 (kds_mem kds) tup_item <= kds_length kds.

(** A row chunk between two calls: the row index with [nitems] entries and
    the used tail do not meet, and every item lies in the tail. *)
Definition chunk_inv (L : layout) (kds : kern_data_store) : Prop :=
  kds_wf kds /\
  KERN_DATA_STORE_HEAD_LENGTH L (kds_ncols kds) + sizeof_uint * kds_nitems kds
    + kds_usage kds <= kds_length kds /\
  forall i, 0 <= i < kds_nitems kds -> item_in_tail L kds i.

(** [pgstrom_data_store_insert_tuple] called for one tuple after the other,
    until a call refuses its tuple. *)
Fixpoint insert_tuples (L : layout) (kds : kern_data_store)
    (tuples : list HeapTupleData) : result error (bool * kern_data_store) :=
  match tuples with
  | [] => Ok (true, kds)
  | tuple :: tuples' =>
      bind (pgstrom_data_store_insert_tuple L kds tuple)
        (fun r => if fst r then insert_tuples L (snd r) tuples' else Ok (false, snd r))
  end.

(** *** Lines of a page *)

(** Whether the scan loop of [pgstrom_data_store_insert_block] stores the
    tuple of a line: the line pointer is normal, and the tuple is visible
    or the page is taken as all-visible. *)
Definition line_stored (all_visible : bool) (lpp : ItemIdData) : bool :=
  lp_normal lpp && (if all_visible then true else lp_visible lpp).

(** The bytes the loop adds to [kds->usage] for the lines it stores. *)
Definition lines_usage (lines : list ItemIdData) : Z :=
  fold_right (fun lpp acc => LONGALIGN (lp_len lpp) + acc) 0 lines.

(** A heap page: the tuples, each rounded to 8 bytes, fit into the
    block. *)
Definition page_wf (page : Page) : Prop :=
  Forall (fun lpp => 0 <= lp_len lpp <= BLCKSZ) (pd_linp page) /\
  lines_usage (pd_linp page) <= BLCKSZ.

(** Three tuples for a scan. *)
Definition tuple_5bytes : HeapTupleData :=
  {| t_len := 5; t_self := [x00; x00; x07; x00; x02; x00];
     t_data := [x01; x02; x03; x04; x05] |}.

Definition page_two_lines : Page :=
  {| pd_linp := [{| lp_normal := true; lp_len := 3; lp_item := [x0a; x0b; x0c];
                    lp_visible := true |};
                 {| lp_normal := false; lp_len := 0; lp_item := [];
                    lp_visible := false |};
                 {| lp_normal := true; lp_len := 9;
                    lp_item := [x01; x02; x03; x04; x05; x06; x07; x08; x09];
                    lp_visible := false |}];
     pd_all_visible := true |}.

(** An empty row chunk of [len] bytes for rows of one column. *)
Definition chunk_of_length (len : Z) : kern_data_store :=
  {| kds_length := len; kds_usage := 0; kds_ncols := 1; kds_nitems := 0;
     kds_nrooms := INT_MAX; kds_format := KDS_FORMAT_ROW; kds_tdhasoid := false;
     kds_tdtypeid := 0; kds_tdtypmod := -1;
     kds_colmeta := []; kds_mem := repeat x00 (Z.to_nat len) |}.

(** The chunk [chunk_empty KDS_FORMAT_ROW] with [tuple_3bytes] in it. *)
Definition chunk_one_row : kern_data_store :=
  Eval vm_compute in
    match pgstrom_data_store_insert_tuple layout_x86_64 (chunk_empty KDS_FORMAT_ROW)
            tuple_3bytes with
    | Ok (_, kds) => kds
    | Err _ => chunk_empty KDS_FORMAT_ROW
    end.

(** *** Mapping and releasing a data store *)

(** [pgstrom_file_mmap_data_store]: the calls made and the outcome.
    [chunk] is the chunk the file holds at [kds_offset], which the mapping
    makes [pds->kds]; the [Size] sum handed to [ftruncate] wraps.  The
    store comes from [palloc0] and is put on no list: its [chain] stays
    zeroed. *)
Definition pgstrom_file_mmap_data_store (env : os_env) (chunk : kern_data_store)
    (kds_fname : string) (kds_offset kds_length : Z)
    : list syscall * result error pgstrom_data_store :=
  let kds_fdesc := open_result env in
  let t1 := [SYS_OpenTransientFile kds_fname [O_RDWR; PG_BINARY] 384] in
  if kds_fdesc <? 0 then (t1, Err ERR_file_access)
  else
    let t2 := t1 ++ [SYS_ftruncate kds_fdesc (wrap64 (kds_offset + kds_length))] in
    if negb (ftruncate_result env =? 0) then (t2, Err ERR_file_access)
    else
      let t3 := t2 ++ [SYS_mmap kds_length [PROT_READ; PROT_WRITE]
                         [MAP_SHARED; MAP_POPULATE] kds_fdesc kds_offset] in
      if negb (mmap_succeeds env kds_length) then (t3, Err ERR_file_access)
      else
        (t3 ++ [SYS_CloseTransientFile kds_fdesc],
         Ok {| pds_chain := DLIST_NULL;
               pds_kds_fname := Some kds_fname;
               pds_kds_length := kds_length;
               pds_kds_offset := kds_offset;
               pds_kds := chunk |}).

(** What a release does, call by call; a [WARNING] is reported and the
    function goes on. *)
Inductive release_call : Type :=
| REL_dlist_delete
| REL_munmap (len : Z)
| REL_unlink (fname : string)
| REL_warning
| REL_pfree_fname
| REL_pfree_kds
| REL_pfree_pds.

(** The return codes of [munmap] and [unlink]. *)
Record release_env : Type := {
  munmap_result : Z;
  unlink_result : string -> Z
}.

(** [pgstrom_file_unmap_data_store] *)
Definition pgstrom_file_unmap_data_store (renv : release_env)
    (pds : pgstrom_data_store) : list release_call :=
  REL_munmap (pds_kds_length pds)
  :: (if negb (munmap_result renv =? 0) then [REL_warning] else []).

(** A data store as a release sees it: with [pds->ktoast] [NULL], or with
    the toast store it points to. *)
Inductive pds_with_toast : Type :=
| PdsPlain (pds : pgstrom_data_store)
| PdsToast (pds : pgstrom_data_store) (ktoast : pds_with_toast).

(** A release that cannot go on: it reads or writes through [NULL]. *)
Inductive fault : Type := FAULT_null_dereference.

(** [dlist_delete(node)] of PostgreSQL's ilist.h:
    [node->prev->next = node->next; node->next->prev = node->prev;].  It
    writes through both links of the node. *)
Definition dlist_delete (node : dlist_node) : result fault unit :=
  match node with
  | DLIST_LINKED => Ok tt
  | DLIST_NULL => Err FAULT_null_dereference
  end.

(** The body of [pgstrom_release_data_store] behind the release of the
    toast store: the calls made, and whether the body came to its end. *)
Definition release_body (renv : release_env) (pds : pgstrom_data_store)
    : list release_call * result fault unit :=
  match dlist_delete (pds_chain pds) with
  | Err f => ([REL_dlist_delete], Err f)
  | Ok _ =>
      ([REL_dlist_delete]
       ++ (match pds_kds_fname pds with
           | Some fname =>
               pgstrom_file_unmap_data_store renv pds
               ++ [REL_unlink fname]
               ++ (if negb (unlink_result renv fname =? 0) then [REL_warning] else [])
               ++ [REL_pfree_fname]
           | None => [REL_pfree_kds]
           end)
       ++ [REL_pfree_pds],
       Ok tt)
  end.

(** [pgstrom_release_data_store]: nothing follows a call that did not come
    to its end. *)
Fixpoint pgstrom_release_data_store (renv : release_env) (c : pds_with_toast)
    : list release_call * result fault unit :=
  match c with
  | PdsPlain pds => release_body renv pds
  | PdsToast pds ktoast =>
      match pgstrom_release_data_store renv ktoast with
      | (calls, Ok _) =>
          (calls ++ fst (release_body renv pds), snd (release_body renv pds))
      | (calls, Err f) => (calls, Err f)
      end
  end.

(** Whether the store is on a list. *)
Definition linked (pds : pgstrom_data_store) : bool :=
  match pds_chain pds with
  | DLIST_LINKED => true
  | DLIST_NULL => false
  end.

(** The stores in front of the first one that is on no list. *)
Fixpoint linked_prefix (stores : list pgstrom_data_store) : list pgstrom_data_store :=
  match stores with
  | [] => []
  | pds :: stores' => if linked pds then pds :: linked_prefix stores' else []
  end.

(** The stores of a chain, the toast stores first. *)
Fixpoint chain_stores (c : pds_with_toast) : list pgstrom_data_store :=
  match c with
  | PdsPlain pds => [pds]
  | PdsToast pds ktoast => chain_stores ktoast ++ [pds]
  end.

(** The regions unmapped and the files unlinked by a run of calls. *)
Definition unmapped_lengths (calls : list release_call) : list Z :=
  omap (fun c => match c with REL_munmap len => Some len | _ => None end) calls.

Definition unlinked_files (calls : list release_call) : list string :=
  omap (fun c => match c with REL_unlink fname => Some fname | _ => None end) calls.

(** The number of [pgstrom_data_store] structures freed. *)
Definition freed_stores (calls : list release_call) : nat :=
  length (List.filter (fun c => match c with REL_pfree_pds => true | _ => false end) calls).

(** The descriptor is given back. *)
Definition closes (trace : list syscall) : bool :=
  existsb (fun c => match c with SYS_CloseTransientFile _ => true | _ => false end) trace.

(** An environment in which the file cannot be truncated. *)
Definition env_truncate_fails : os_env :=
  {| temp_filename := "base/pgsql_tmp/pgsql_tmp_strom_1.0"%string;
     open_result := 3;
     ftruncate_result := -1;
     mmap_succeeds := fun _ => true;
     alloc_content := fun size => repeat x00 (Z.to_nat size) |}.

(** *** Constants in a parameter buffer *)

(** The bytes [pgstrom_create_kern_parambuf] appends for a constant that
    is not null: [constlen] bytes from the address of the [Datum] when the
    length is positive, the varlena otherwise. *)
Definition const_payload (con : Const) : list byte :=
  if 0 <? constlen con
  then datum_bytes (constlen con) (constvalue con)
  else constdata con.

(** A constant passed by value has no more bytes than a [Datum]. *)
Definition const_wf (con : Const) : Prop := constlen con <= 8.

(** A parameter list with one [int4] parameter of value 42, and the
    [Param] node that refers to it. *)
Definition econtext_one_int4 : ExprContext :=
  {| ecxt_param_list_info :=
       Some {| numParams := 1;
               params := [{| prm_value := 42; prm_isnull := false; prm_ptype := 23;
                             prm_data := [] |}];
               paramFetch := None |} |}.

Definition param_one_int4 : Param := {| paramid := 1; paramtype := 23 |}.

(** ** GPU devices and launch sizes (gpu_device.c) *)

(** The fields of [DevAttributes] the code below reads or writes, each an
    [int]. *)
Record DevAttributes : Type := {
  DEV_ID : Z;
  COMPUTE_CAPABILITY_MAJOR : Z;
  COMPUTE_CAPABILITY_MINOR : Z;
  MAX_THREADS_PER_BLOCK : Z;
  MULTIPROCESSOR_COUNT : Z;
  CORES_PER_MPU : Z
}.

(** What [MemoryContextAllocZero] leaves in an entry. *)
Definition dev_zero : DevAttributes :=
  {| DEV_ID := 0; COMPUTE_CAPABILITY_MAJOR := 0; COMPUTE_CAPABILITY_MINOR := 0;
     MAX_THREADS_PER_BLOCK := 0; MULTIPROCESSOR_COUNT := 0; CORES_PER_MPU := 0 |}.

(** "Determine CORES_PER_MPU by CC" *)
Definition cores_per_mpu (major minor : Z) : Z :=
  if major =? 1 then 8
  else if major =? 2
       then (if minor =? 0 then 32 else if minor =? 1 then 48 else -1)
  else if major =? 3 then 192
  else if major =? 5 then 128
  else if major =? 6 then (if minor =? 0 then 64 else 128)
  else if major =? 7 then 64
  else 0.

Definition set_CORES_PER_MPU (dattrs : DevAttributes) (v : Z) : DevAttributes :=
  {| DEV_ID := DEV_ID dattrs;
     COMPUTE_CAPABILITY_MAJOR := COMPUTE_CAPABILITY_MAJOR dattrs;
     COMPUTE_CAPABILITY_MINOR := COMPUTE_CAPABILITY_MINOR dattrs;
     MAX_THREADS_PER_BLOCK := MAX_THREADS_PER_BLOCK dattrs;
     MULTIPROCESSOR_COUNT := MULTIPROCESSOR_COUNT dattrs;
     CORES_PER_MPU := v |}.

(** The globals [devAttrs], [numDevAttrs], [devComputeCapability] (a
    [cl_ulong]) and [devBaselineMaxThreadsPerBlock] (a [cl_uint]); while
    the second loop of [pgstrom_collect_gpu_device] runs, [numDevAttrs]
    stands for its counter [j]. *)
Record device_state : Type := {
  devAttrs : list DevAttributes;
  numDevAttrs : Z;
  devComputeCapability : Z;
  devBaselineMaxThreadsPerBlock : Z
}.

(** [Min(x, y)] of PostgreSQL's c.h: [((x) < (y) ? (x) : (y))]. *)
Definition Min (x y : Z) : Z := if x <? y then x else y.

(** One round of [for (i=0, j=0; i < num_devices; i++)].  In the two
    [Min] the [int] operand is converted to the unsigned type of the
    global. *)
Definition collect_device (st : device_state) (i : Z) : device_state :=
  let dattrs := rd dev_zero (devAttrs st) i in
  if COMPUTE_CAPABILITY_MAJOR dattrs <? 6 then st
  else
    let compute_capability :=
      to_int32 (COMPUTE_CAPABILITY_MAJOR dattrs * 10 + COMPUTE_CAPABILITY_MINOR dattrs) in
    let dattrs' :=
      set_CORES_PER_MPU dattrs
        (cores_per_mpu (COMPUTE_CAPABILITY_MAJOR dattrs) (COMPUTE_CAPABILITY_MINOR dattrs)) in
    let j := numDevAttrs st in
    let arr := wr (devAttrs st) i dattrs' in
    {| devAttrs := if i =? j then arr else wr arr j (rd dev_zero arr i);
       numDevAttrs := j + 1;
       devComputeCapability :=
         Min (devComputeCapability st) (wrap64 compute_capability);
       devBaselineMaxThreadsPerBlock :=
         Min (devBaselineMaxThreadsPerBlock st) (wrap32 (MAX_THREADS_PER_BLOCK dattrs)) |}.

Inductive device_error : Type :=
| ERR_no_supported_device      (** "PG-Strom: no supported GPU devices found" *)
| ERR_invalid_device_index.    (** "invalid GPU device index" *)

(** The second part of [pgstrom_collect_gpu_device]: [attrs] is the array
    the lines of [gpuinfo -md] have filled, one entry per device. *)
Definition pgstrom_collect_gpu_device (attrs : list DevAttributes)
    : result device_error device_state :=
  let num_devices := Z.of_nat (length attrs) in
  let st :=
    fold_left collect_device (ids num_devices)
      {| devAttrs := attrs; numDevAttrs := 0;
         devComputeCapability := UINT_MAX;
         devBaselineMaxThreadsPerBlock := UINT_MAX |} in
  if numDevAttrs st =? 0 then Err ERR_no_supported_device else Ok st.

(** The check every SQL function on a device makes before it reads
    [devAttrs[cuda_dindex]]. *)
Definition device_entry (st : device_state) (cuda_dindex : Z)
    : result device_error DevAttributes :=
  if (cuda_dindex <? 0) || (numDevAttrs st <=? cuda_dindex)
  then Err ERR_invalid_device_index
  else Ok (rd dev_zero (devAttrs st) cuda_dindex).

(** [pgstrom_gpu_cc_major] *)
Definition pgstrom_gpu_cc_major (st : device_state) (cuda_dindex : Z)
    : result device_error Z :=
  bind (device_entry st cuda_dindex) (fun dattr => Ok (COMPUTE_CAPABILITY_MAJOR dattr)).

(** [pgstrom_gpu_num_cuda_cores]: an [int] product. *)
Definition pgstrom_gpu_num_cuda_cores (st : device_state) (cuda_dindex : Z)
    : result device_error Z :=
  bind (device_entry st cuda_dindex)
    (fun dattr => Ok (to_int32 (CORES_PER_MPU dattr * MULTIPROCESSOR_COUNT dattr))).

(** A device is kept when its compute capability is 6.0 or later. *)
Definition supported (dattrs : DevAttributes) : bool :=
  negb (COMPUTE_CAPABILITY_MAJOR dattrs <? 6).

(** The entry of a kept device. *)
Definition with_cores (dattrs : DevAttributes) : DevAttributes :=
  set_CORES_PER_MPU dattrs
    (cores_per_mpu (COMPUTE_CAPABILITY_MAJOR dattrs) (COMPUTE_CAPABILITY_MINOR dattrs)).

(** *** The largest block size of a kernel *)

Inductive launch_error : Type :=
| ERR_shared_memory       (** "too large fixed amount of shared memory consumption" *)
| ERR_too_large_nitems.   (** "to large nitems to launch kernel" *)

(** [largest_workgroup_size], every CUDA call returning [CUDA_SUCCESS]
    with the attribute values [maxBlockSize], [staticShmemSize],
    [warpSize] and [maxShmemSize] (each a [cl_int]).  An [int] that meets
    a [size_t] is converted to [size_t], a [size_t] stored into a [cl_int]
    is cut to 32 bits, and [int] division truncates.  The result is
    [( *p_grid_size, *p_block_size)]; the last division is by
    [maxBlockSize], undefined in C when that is 0. *)
Definition largest_workgroup_size (maxBlockSize staticShmemSize warpSize maxShmemSize : Z)
    (nitems dynamic_shmem_per_block dynamic_shmem_per_thread : Z)
    : result launch_error (Z * Z) :=
  let shmemSizeTotal :=
    to_int32 (wrap64 (wrap64 (wrap64 staticShmemSize + dynamic_shmem_per_block)
                      + wrap64 (dynamic_shmem_per_thread * wrap64 maxBlockSize))) in
  let fitted :=
    if maxShmemSize <? shmemSizeTotal
    then
      if (0 <? dynamic_shmem_per_thread)
         && (wrap64 (wrap64 (wrap64 staticShmemSize + dynamic_shmem_per_block)
                     + wrap64 (dynamic_shmem_per_thread * wrap64 warpSize))
             <=? wrap64 maxShmemSize)
      then
        let maxBlockSize :=
          to_int32 (wrap64 (wrap64 (to_int32 (maxShmemSize - staticShmemSize))
                            - dynamic_shmem_per_block)
                    / dynamic_shmem_per_thread) in
        Ok (to_int32 (Z.quot maxBlockSize warpSize * warpSize))
      else Err ERR_shared_memory
    else Ok maxBlockSize in
  bind fitted (fun maxBlockSize =>
    if wrap64 (wrap64 maxBlockSize * INT_MAX) <? nitems then Err ERR_too_large_nitems
    else
      Ok (wrap64 (wrap64 (nitems + wrap64 maxBlockSize) - 1) / wrap64 maxBlockSize,
          wrap64 maxBlockSize)).

(** Two devices of an older generation and two supported ones. *)
Definition device_of (id major minor : Z) : DevAttributes :=
  {| DEV_ID := id; COMPUTE_CAPABILITY_MAJOR := major; COMPUTE_CAPABILITY_MINOR := minor;
     MAX_THREADS_PER_BLOCK := 1024; MULTIPROCESSOR_COUNT := 20; CORES_PER_MPU := 0 |}.

Definition devices_mixed : list DevAttributes :=
  [device_of 0 3 5; device_of 1 6 1; device_of 2 5 2; device_of 3 7 0].

(** *** gpusort_fixup_pointers *)

(** The slot-format chunk a sort works on, as far as the kernel uses it:
    the column entries, the field [hostptr] and the device address of
    that field, and per row the [Datum] array [KERN_DATA_STORE_VALUES] and
    the null flags [KERN_DATA_STORE_ISNULL] give. *)
Record kern_slot_store : Type := {
  ks_ncols : Z;
  ks_colmeta : list kern_colmeta;
  ks_hostptr : Z;
  ks_hostptr_addr : Z;            (** [(hostptr_t) &kds_slot->hostptr] *)
  ks_values : list (list Z);
  ks_isnull : list (list bool)
}.

Definition colmeta0 : kern_colmeta :=
  {| cm_attbyval := false; cm_attalign := 0; cm_attlen := 0; cm_attnum := 0;
     cm_attcacheoff := 0 |}.

(** [(hostptr_t) tup_values[i] - (hostptr_t) &kds_slot->hostptr
     + kds_slot->hostptr], 64-bit unsigned arithmetic. *)
Definition fixup_datum (kds_slot : kern_slot_store) (datum : Z) : Z :=
  wrap64 (wrap64 (datum - ks_hostptr_addr kds_slot) + ks_hostptr kds_slot).

(** One round of [for (i=0; i < kds_slot->ncols; i++)]. *)
Definition fixup_column (kds_slot : kern_slot_store) (tup_isnull : list bool)
    (tup_values : list Z) (i : Z) : list Z :=
  let cmeta := rd colmeta0 (ks_colmeta kds_slot) i in
  if cm_attbyval cmeta then tup_values
  else if rd false tup_isnull i then tup_values
  else wr tup_values i (fixup_datum kds_slot (rd 0 tup_values i)).

(** One thread: the row [kresults->results[get_global_id()]]. *)
Definition fixup_thread (kds_slot : kern_slot_store) (results : list Z)
    (gid : Z) (values : list (list Z)) : list (list Z) :=
  if gid <? Z.of_nat (length results)
  then
    let kds_index := rd 0 results gid in
    let tup_values := rd [] values kds_index in
    let tup_isnull := rd [] (ks_isnull kds_slot) kds_index in
    wr values kds_index
      (fold_left (fixup_column kds_slot tup_isnull) (ids (ks_ncols kds_slot)) tup_values)
  else values.

(** A launch with [nthreads] threads; the kernel writes the value arrays
    and nothing else. *)
Definition gpusort_fixup_pointers (nthreads : Z) (results : list Z)
    (kds_slot : kern_slot_store) : list (list Z) :=
  par_for nthreads (fixup_thread kds_slot results) (ks_values kds_slot).

(** Whether the kernel translates the cell of row [r] and column [c]. *)
Definition fixup_applies (kds_slot : kern_slot_store) (results : list Z) (r c : Z) : bool :=
  existsb (Z.eqb r) results
  && negb (cm_attbyval (rd colmeta0 (ks_colmeta kds_slot) c))
  && negb (rd false (rd [] (ks_isnull kds_slot) r) c).

(** Two rows of an [int4] column and a [text] column. *)
Definition slot_store_two_rows : kern_slot_store :=
  {| ks_ncols := 2;
     ks_colmeta := [{| cm_attbyval := true; cm_attalign := 4; cm_attlen := 4;
                       cm_attnum := 1; cm_attcacheoff := 24 |};
                    {| cm_attbyval := false; cm_attalign := 4; cm_attlen := -1;
                       cm_attnum := 2; cm_attcacheoff := -1 |}];
     ks_hostptr := 139637976727552;
     ks_hostptr_addr := 30064771104;
     ks_values := [[7; 30064775200]; [9; 0]];
     ks_isnull := [[false; false]; [false; true]] |}.

(** * Part II: properties *)

(** ** Facts on alignment and on 32-bit conversion *)

Lemma pow2_pos (k : Z) : 0 <= k -> 0 < 2 ^ k.
Proof. intros; apply Z.pow_pos_nonneg; lia. Qed.

Lemma wrap32_small (x : Z) : 0 <= x < 2 ^ 32 -> wrap32 x = x.
Proof. intros; unfold wrap32; apply Z.mod_small; lia. Qed.

Lemma wrap64_small (x : Z) : 0 <= x < 2 ^ 64 -> wrap64 x = x.
Proof. intros; unfold wrap64; apply Z.mod_small; lia. Qed.

Lemma to_int32_wrap (x : Z) : wrap32 (to_int32 x) = wrap32 x.
Proof.
  unfold to_int32.
  assert (H : 0 <= wrap32 x < 2 ^ 32) by (unfold wrap32; apply Z.mod_pos_bound; lia).
  destruct (wrap32 x <? 2 ^ 31).
  - apply wrap32_small; exact H.
  - unfold wrap32 at 1.
    replace (wrap32 x - 2 ^ 32) with (wrap32 x + (-1) * 2 ^ 32) by lia.
    rewrite Z.mod_add by lia. apply wrap32_small; exact H.
Qed.

Lemma to_int32_inj (x y : Z) :
  0 <= x < 2 ^ 32 -> 0 <= y < 2 ^ 32 -> to_int32 x = to_int32 y -> x = y.
Proof.
  intros Hx Hy H. apply (f_equal wrap32) in H.
  rewrite !to_int32_wrap in H. rewrite !wrap32_small in H; assumption.
Qed.

(** On a power of two [TYPEALIGN] rounds up to the next multiple. *)
Lemma land_lnot_ones (x k : Z) :
  0 <= k -> Z.land x (Z.lnot (2 ^ k - 1)) = 2 ^ k * (x / 2 ^ k).
Proof.
  intros Hk.
  replace (2 ^ k - 1) with (Z.ones k) by (rewrite Z.ones_equiv; lia).
  rewrite <- Z.ldiff_land, Z.ldiff_ones_r by lia.
  rewrite Z.shiftl_mul_pow2, Z.shiftr_div_pow2 by lia. lia.
Qed.

Lemma TYPEALIGN_pow2 (k len : Z) :
  0 <= k -> 0 <= len -> len + 2 ^ k <= 2 ^ 64 ->
  TYPEALIGN (2 ^ k) len = 2 ^ k * ((len + (2 ^ k - 1)) / 2 ^ k).
Proof.
  intros Hk Hl Hb. pose proof (pow2_pos k Hk) as Hp. unfold TYPEALIGN.
  rewrite (wrap64_small (len + _)) by lia.
  rewrite (wrap64_small (2 ^ k - 1)) by lia.
  rewrite land_lnot_ones by lia.
  apply wrap64_small.
  assert (0 <= (len + (2 ^ k - 1)) / 2 ^ k) by (apply Z.div_pos; lia).
  pose proof (Z.mul_div_le (len + (2 ^ k - 1)) (2 ^ k) Hp). nia.
Qed.

Lemma TYPEALIGN_bounds (k len : Z) :
  0 <= k -> 0 <= len -> len + 2 ^ k <= 2 ^ 64 ->
  len <= TYPEALIGN (2 ^ k) len < len + 2 ^ k.
Proof.
  intros Hk Hl Hb. pose proof (pow2_pos k Hk) as Hp.
  rewrite TYPEALIGN_pow2 by assumption.
  pose proof (Z.mul_div_le (len + (2 ^ k - 1)) (2 ^ k) Hp).
  pose proof (Z.mul_succ_div_gt (len + (2 ^ k - 1)) (2 ^ k) Hp). lia.
Qed.

Lemma TYPEALIGN_aligned (k len : Z) :
  0 <= k -> 0 <= len -> len + 2 ^ k <= 2 ^ 64 ->
  (TYPEALIGN (2 ^ k) len) mod 2 ^ k = 0.
Proof.
  intros Hk Hl Hb. rewrite TYPEALIGN_pow2 by assumption.
  rewrite Z.mul_comm. apply Z.mod_mul. pose proof (pow2_pos k Hk); lia.
Qed.

Lemma TYPEALIGN_idem (k len : Z) :
  0 <= k -> 0 <= len -> len + 2 ^ k <= 2 ^ 64 -> len mod 2 ^ k = 0 ->
  TYPEALIGN (2 ^ k) len = len.
Proof.
  intros Hk Hl Hb Hm. pose proof (pow2_pos k Hk) as Hp.
  rewrite TYPEALIGN_pow2 by assumption.
  apply Z.mod_divide in Hm; [| lia]. destruct Hm as [m Hm].
  rewrite Hm at 1. replace (m * 2 ^ k + (2 ^ k - 1)) with (m * 2 ^ k + (2 ^ k - 1)) by lia.
  rewrite Z.div_add_l by lia. rewrite (Z.div_small (2 ^ k - 1)) by lia. lia.
Qed.

(** ** Index pairs of the global step kernel *)

Lemma land_mul_pow2_small (k m r : Z) :
  0 <= k -> 0 <= r < 2 ^ k -> Z.land (2 ^ k * m) r = 0.
Proof.
  intros Hk Hr. apply Z.bits_inj'. intros n Hn.
  rewrite Z.land_spec, Z.bits_0.
  destruct (Z.lt_ge_cases n k) as [Hlt | Hge].
  - rewrite (Z.mul_comm (2 ^ k) m), Z.mul_pow2_bits_low by lia. reflexivity.
  - replace r with (r mod 2 ^ k) by (apply Z.mod_small; lia).
    rewrite Z.mod_pow2_bits_high by lia. apply andb_false_r.
Qed.

Lemma lor_mul_pow2_small (k m r : Z) :
  0 <= k -> 0 <= r < 2 ^ k -> Z.lor (2 ^ k * m) r = 2 ^ k * m + r.
Proof.
  intros Hk Hr. pose proof (land_mul_pow2_small k m r Hk Hr) as H0.
  rewrite <- Z.lxor_lor by exact H0. symmetry. apply Z.add_nocarry_lxor. exact H0.
Qed.

Lemma lnot_mod_pow2 (k s : Z) :
  0 <= k -> Z.lnot s mod 2 ^ k = 2 ^ k - 1 - s mod 2 ^ k.
Proof.
  intros Hk. pose proof (pow2_pos k Hk) as Hp.
  pose proof (Z.mod_pos_bound s (2 ^ k) Hp) as Hm.
  pose proof (Z.div_mod s (2 ^ k) ltac:(lia)) as Hd.
  symmetry. apply (Z.mod_unique _ _ (- (s / 2 ^ k) - 1)); [lia |].
  unfold Z.lnot. lia.
Qed.

(** The reversing index flips the low bits below the unit size. *)
Lemma reversing_value (k s : Z) :
  0 <= k ->
  Z.lor (Z.land s (Z.lnot (2 ^ k - 1))) (Z.land (Z.lnot s) (2 ^ k - 1))
  = 2 ^ k * (s / 2 ^ k) + (2 ^ k - 1 - s mod 2 ^ k).
Proof.
  intros Hk. pose proof (pow2_pos k Hk) as Hp.
  rewrite land_lnot_ones by lia.
  replace (Z.land (Z.lnot s) (2 ^ k - 1)) with (Z.lnot s mod 2 ^ k)
    by (rewrite <- Z.land_ones, Z.ones_equiv by lia; reflexivity).
  rewrite lnot_mod_pow2 by lia.
  apply lor_mul_pow2_small; [lia |].
  pose proof (Z.mod_pos_bound s (2 ^ k) Hp). lia.
Qed.

Lemma to_int32_shift (x c : Z) : to_int32 (x + c * 2 ^ 32) = to_int32 x.
Proof. unfold to_int32, wrap32. rewrite Z.mod_add by lia. reflexivity. Qed.

Lemma to_int32_repr (x : Z) : exists c, to_int32 x = x + c * 2 ^ 32.
Proof.
  unfold to_int32, wrap32.
  pose proof (Z.div_mod x (2 ^ 32) ltac:(lia)) as Hd.
  destruct (x mod 2 ^ 32 <? 2 ^ 31).
  - exists (- (x / 2 ^ 32)). lia.
  - exists (- (x / 2 ^ 32) - 1). lia.
Qed.

Lemma half_pow2 (k : Z) : 1 <= k -> 2 ^ k = 2 * 2 ^ (k - 1) /\ 2 ^ k / 2 = 2 ^ (k - 1).
Proof.
  intros Hk.
  assert (H : 2 ^ k = 2 * 2 ^ (k - 1)).
  { replace k with (1 + (k - 1)) at 1 by lia. rewrite Z.pow_add_r by lia. reflexivity. }
  split; [exact H |]. rewrite H, Z.mul_comm. apply Z.div_mul. lia.
Qed.

Lemma step_wide_range (k : Z) (reversing : bool) (g : Z) :
  1 <= k <= 32 -> 0 <= g < 2 ^ 31 ->
  let h := 2 ^ (k - 1) in
  0 <= g / h /\ 0 <= g mod h < h /\ 2 ^ k * (g / h + 1) <= 2 ^ 32 /\ 2 ^ k = 2 * h.
Proof.
  intros Hk Hg h. destruct (half_pow2 k ltac:(lia)) as [H2 _].
  assert (Hh : 0 < h) by (apply pow2_pos; lia).
  assert (Hq : 0 <= g / h) by (apply Z.div_pos; lia).
  pose proof (Z.mod_pos_bound g h Hh) as Hr.
  assert (Hpow : 2 ^ 31 = h * 2 ^ (32 - k)).
  { unfold h. rewrite <- Z.pow_add_r by lia. f_equal. lia. }
  assert (Hlt : g / h < 2 ^ (32 - k)).
  { apply Z.div_lt_upper_bound; lia. }
  repeat split; try lia. fold h in H2. rewrite H2. nia.
Qed.

Lemma step_indices_wide (k : Z) (reversing : bool) (g : Z) :
  1 <= k <= 32 -> 0 <= g < 2 ^ 31 ->
  step_indices (2 ^ k) reversing g
  = (to_int32 (fst (step_wide k reversing g)), to_int32 (snd (step_wide k reversing g))).
Proof.
  intros Hk Hg.
  destruct (step_wide_range k reversing g Hk Hg) as (Hq & Hr & Hb & H2).
  destruct (half_pow2 k ltac:(lia)) as [_ Hhalf].
  pose proof (pow2_pos k ltac:(lia)) as Hp.
  unfold step_indices, step_wide. cbn [fst snd]. rewrite Hhalf.
  set (h := 2 ^ (k - 1)) in *. set (q := g / h) in *. set (r := g mod h) in *.
  assert (Hw : wrap64 (q * 2 ^ k + r) = 2 ^ k * q + r).
  { rewrite wrap64_small by nia. lia. }
  rewrite Hw. f_equal.
  destruct (to_int32_repr (2 ^ k * q + r)) as [c Hc]. rewrite Hc.
  destruct reversing.
  - rewrite (wrap64_small (2 ^ k - 1)) by (assert (2 ^ k <= 2 ^ 32) by nia; lia).
    rewrite reversing_value by lia.
    assert (Hc32 : c * 2 ^ 32 = (c * 2 ^ (32 - k)) * 2 ^ k).
    { rewrite <- Z.mul_assoc, <- Z.pow_add_r by lia. do 2 f_equal. lia. }
    rewrite Hc32, Z.div_add, Z.mod_add by lia.
    assert (Hdiv : (2 ^ k * q + r) / 2 ^ k = q).
    { symmetry. apply (Z.div_unique _ _ q r); lia. }
    assert (Hmod : (2 ^ k * q + r) mod 2 ^ k = r).
    { symmetry. apply (Z.mod_unique _ _ q r); lia. }
    rewrite Hdiv, Hmod.
    replace (2 ^ k * (q + c * 2 ^ (32 - k)) + (2 ^ k - 1 - r))
      with (2 ^ k * q + (2 ^ k - 1 - r) + c * 2 ^ 32) by (rewrite Hc32; lia).
    apply to_int32_shift.
  - replace (2 ^ k * q + r + c * 2 ^ 32 + h) with (2 ^ k * q + (h + r) + c * 2 ^ 32) by lia.
    apply to_int32_shift.
Qed.

Lemma step_wide_disjoint (k : Z) (reversing : bool) (g g' : Z) :
  1 <= k <= 32 -> 0 <= g < 2 ^ 31 -> 0 <= g' < 2 ^ 31 -> g <> g' ->
  pair_disjoint (step_wide k reversing g) (step_wide k reversing g').
Proof.
  intros Hk Hg Hg' Hne.
  destruct (step_wide_range k reversing g Hk Hg) as (Hq & Hr & _ & H2).
  destruct (step_wide_range k reversing g' Hk Hg') as (Hq' & Hr' & _ & _).
  assert (Hh : 0 < 2 ^ (k - 1)) by (apply pow2_pos; lia).
  pose proof (Z.div_mod g (2 ^ (k - 1)) ltac:(lia)) as Hd.
  pose proof (Z.div_mod g' (2 ^ (k - 1)) ltac:(lia)) as Hd'.
  unfold pair_disjoint, step_wide. cbn [fst snd].
  set (h := 2 ^ (k - 1)) in *. set (q := g / h) in *. set (r := g mod h) in *.
  set (q' := g' / h) in *. set (r' := g' mod h) in *.
  rewrite H2.
  assert (Huniq : forall a a', 0 <= a < 2 * h -> 0 <= a' < 2 * h ->
                    2 * h * q + a = 2 * h * q' + a' -> q = q' /\ a = a').
  { intros a a' Ha Ha' He.
    apply (Z.div_mod_unique (2 * h) q q' a a'); [left; lia | left; lia | exact He]. }
  destruct reversing; repeat split; intros He; apply Huniq in He; lia.
Qed.

(** C8: for a power-of-two unit size and two different workers of one
    round of [gpusort_bitonic_step], the index pairs [(idx0, idx1)] the
    kernel computes have no element in common, reversing or not.  Worker
    ids are below [2 ^ 31] and the unit size is at most [2 ^ 32]: this is
    the range of every launch [gpusort_main] makes for a [cl_uint] item
    count (see [step_worker_range]). *)
Theorem step_indices_disjoint (k : Z) (reversing : bool) (g g' : Z) :
  1 <= k <= 32 -> 0 <= g < 2 ^ 31 -> 0 <= g' < 2 ^ 31 -> g <> g' ->
  pair_disjoint (step_indices (2 ^ k) reversing g)
                (step_indices (2 ^ k) reversing g').
Proof.
  intros Hk Hg Hg' Hne.
  rewrite !step_indices_wide by assumption.
  pose proof (step_wide_disjoint k reversing g g' Hk Hg Hg' Hne) as Hd.
  destruct (step_wide_range k reversing g Hk Hg) as (Hq & Hr & Hb & H2).
  destruct (step_wide_range k reversing g' Hk Hg') as (Hq' & Hr' & Hb' & _).
  assert (Hh : 0 < 2 ^ (k - 1)) by (apply pow2_pos; lia).
  assert (R : forall b, 0 <= fst (step_wide k b g) < 2 ^ 32 /\
                        0 <= snd (step_wide k b g) < 2 ^ 32 /\
                        0 <= fst (step_wide k b g') < 2 ^ 32 /\
                        0 <= snd (step_wide k b g') < 2 ^ 32).
  { intros b. unfold step_wide. cbn [fst snd].
    set (h := 2 ^ (k - 1)) in *. destruct b; nia. }
  destruct (R reversing) as (R1 & R2 & R3 & R4).
  unfold pair_disjoint in *. cbn [fst snd].
  destruct Hd as (D1 & D2 & D3 & D4).
  repeat split; intros He; apply to_int32_inj in He; auto.
Qed.

Lemma step_indices_disjoint_witness :
  pair_disjoint (step_indices (2 ^ 2) true 0) (step_indices (2 ^ 2) true 1).
Proof.
  apply (step_indices_disjoint 2 true 0 1); lia.
Defined.

(** Every worker that [gpusort_main] launches for a round of
    [gpusort_bitonic_step] has an id below [2 ^ 31]: the item count is a
    [cl_uint], the unit size [2 * j] a power of two up to [2 ^ 32], and
    the block size a smaller power of two ([block_sz.x < j]). *)
Lemma step_worker_range (nitems k b gid : Z) :
  0 <= nitems < 2 ^ 32 -> 1 <= k <= 32 -> 0 <= b < k - 1 ->
  0 <= gid < step_grid nitems (2 ^ k) (2 ^ b) * 2 ^ b ->
  gid < 2 ^ 31.
Proof.
  intros Hn Hk Hb Hg.
  destruct (half_pow2 k ltac:(lia)) as [H2 _].
  assert (Hh : 0 < 2 ^ (k - 1)) by (apply pow2_pos; lia).
  assert (Hbs : 0 < 2 ^ b) by (apply pow2_pos; lia).
  assert (Hu32 : 2 ^ 32 = 2 ^ k * 2 ^ (32 - k))
    by (rewrite <- Z.pow_add_r by lia; f_equal; lia).
  assert (Hhb : 2 ^ (k - 1) = 2 ^ (k - 1 - b) * 2 ^ b)
    by (rewrite <- Z.pow_add_r by lia; f_equal; lia).
  assert (Hc0 : 0 < 2 ^ (32 - k)) by (apply pow2_pos; lia).
  assert (Hd0 : 0 < 2 ^ (k - 1 - b)) by (apply pow2_pos; lia).
  set (u := 2 ^ k) in *. set (h := 2 ^ (k - 1)) in *. set (bsz := 2 ^ b) in *.
  assert (Hule : u <= 2 ^ 32) by nia.
  set (c := (nitems + u - 1) / u).
  assert (Hc : 0 <= c <= 2 ^ (32 - k)).
  { split; [apply Z.div_pos; lia |].
    assert (c < 2 ^ (32 - k) + 1); [| lia].
    apply Z.div_lt_upper_bound; nia. }
  assert (Hws : step_work_size nitems u = c * h).
  { unfold step_work_size. rewrite (wrap64_small (nitems + u - 1)) by lia. fold c.
    rewrite (wrap64_small (c * u)) by nia.
    replace (c * u) with (c * h * 2) by lia. rewrite Z.div_mul by lia.
    apply wrap64_small. nia. }
  assert (Hgrid : step_grid nitems u bsz * bsz = c * h).
  { unfold step_grid. rewrite Hws. rewrite (wrap64_small (c * h + bsz - 1)) by nia.
    replace (c * h + bsz - 1) with (c * 2 ^ (k - 1 - b) * bsz + (bsz - 1)) by lia.
    rewrite Z.div_add_l by lia. rewrite (Z.div_small (bsz - 1)) by lia.
    rewrite wrap32_small by nia. lia. }
  rewrite Hgrid in Hg. nia.
Qed.

(** ** Arrays, strided loops *)

Lemma length_wr {A} (a : list A) (i : Z) (v : A) : length (wr a i v) = length a.
Proof. unfold wr. destruct (i <? 0); [reflexivity | apply length_insert]. Qed.

Lemma rd_wr_same {A} (d : A) (a : list A) (i : Z) (v : A) :
  0 <= i < Z.of_nat (length a) -> rd d (wr a i v) i = v.
Proof.
  intros Hi. unfold rd, wr.
  destruct (i <? 0) eqn:E; [apply Z.ltb_lt in E; lia |].
  rewrite nth_lookup, list_lookup_insert_eq by lia. reflexivity.
Qed.

Lemma rd_wr_other {A} (d : A) (a : list A) (i j : Z) (v : A) :
  i <> j -> rd d (wr a i v) j = rd d a j.
Proof.
  intros Hne. unfold rd, wr.
  destruct (j <? 0) eqn:Ej; [reflexivity |].
  destruct (i <? 0) eqn:Ei; [reflexivity |].
  apply Z.ltb_ge in Ej, Ei.
  rewrite !nth_lookup, list_lookup_insert_ne by lia. reflexivity.
Qed.

Lemma wr_same_value {A} (d : A) (a : list A) (i : Z) :
  wr a i (rd d a i) = a.
Proof.
  unfold wr, rd. destruct (i <? 0); [reflexivity |].
  destruct (a !! Z.to_nat i) as [x |] eqn:E.
  - rewrite nth_lookup, E. cbn. apply list_insert_id. exact E.
  - apply list_insert_ge. apply lookup_ge_None. exact E.
Qed.

Lemma in_ids (n i : Z) : In i (ids n) <-> 0 <= i < n.
Proof.
  unfold ids. rewrite in_map_iff. split.
  - intros (k & <- & Hk). apply in_seq in Hk. lia.
  - intros Hi. exists (Z.to_nat i). split; [lia | apply in_seq; lia].
Qed.

Lemma strided_for_list {S} (body : Z -> S -> S) (fuel : nat) (i bound stride : Z) (s : S) :
  strided_for fuel i bound stride body s
  = fold_left (fun s i => body i s) (strided_list fuel i bound stride) s.
Proof.
  revert i s. induction fuel as [| fuel IH]; intros i s; cbn; [reflexivity |].
  destruct (i <? bound); [cbn; apply IH | reflexivity].
Qed.

Lemma fold_left_flat_map {S B} (g : S -> Z -> S) (h : B -> list Z) (l : list B) (s : S) :
  fold_left g (flat_map h l) s = fold_left (fun s b => fold_left g (h b) s) l s.
Proof.
  revert s. induction l as [| b l IH]; intros s; cbn; [reflexivity |].
  rewrite fold_left_app. apply IH.
Qed.

Lemma fold_left_pointwise {S B} (g g' : S -> B -> S) (l : list B) (s : S) :
  (forall s b, g s b = g' s b) -> fold_left g l s = fold_left g' l s.
Proof.
  intros He. revert s. induction l as [| b l IH]; intros s; cbn; [reflexivity |].
  rewrite He. apply IH.
Qed.

(** A block that runs a strided loop in every thread runs the body once
    for each index of [block_indices]. *)
Lemma par_for_strided {S} (body : Z -> S -> S) (lsz bound : Z) (s : S) :
  par_for lsz (fun lid => strided_for (Z.to_nat bound) lid bound lsz body) s
  = fold_left (fun s i => body i s) (block_indices lsz bound) s.
Proof.
  unfold par_for, block_indices. rewrite fold_left_flat_map.
  apply fold_left_pointwise. intros s' lid. apply strided_for_list.
Qed.

Lemma strided_list_sound (fuel : nat) (i bound stride x : Z) :
  0 <= i -> In x (strided_list fuel i bound stride) -> 0 <= x < bound.
Proof.
  revert i. induction fuel as [| fuel IH]; intros i Hi; cbn; [tauto |].
  destruct (i <? bound) eqn:E; [| cbn; tauto].
  apply Z.ltb_lt in E. intros [<- | Hin]; [lia |].
  apply (IH (wrap64 (i + stride))); [| exact Hin].
  unfold wrap64. apply Z.mod_pos_bound. lia.
Qed.

Lemma strided_list_complete (m : nat) :
  forall (fuel : nat) (i bound stride : Z),
    0 <= i -> 0 < stride -> bound + stride <= 2 ^ 64 ->
    i + Z.of_nat m * stride < bound -> (m < fuel)%nat ->
    In (i + Z.of_nat m * stride) (strided_list fuel i bound stride).
Proof.
  induction m as [| m IH]; intros fuel i bound stride Hi Hs Hb Hlt Hf;
    destruct fuel as [| fuel]; try lia; cbn [strided_list].
  - assert (E : (i <? bound) = true) by (apply Z.ltb_lt; lia).
    rewrite E. left. lia.
  - assert (E : (i <? bound) = true) by (apply Z.ltb_lt; nia).
    rewrite E. right.
    assert (Hw : wrap64 (i + stride) = i + stride) by (apply wrap64_small; nia).
    rewrite Hw.
    replace (i + Z.of_nat (Datatypes.S m) * stride)
      with (i + stride + Z.of_nat m * stride) by lia.
    apply IH; lia.
Qed.

(** Together the threads of a block visit exactly the indices below the
    bound. *)
Lemma in_block_indices (lsz bound x : Z) :
  0 < lsz -> bound + lsz <= 2 ^ 64 ->
  In x (block_indices lsz bound) <-> 0 <= x < bound.
Proof.
  intros Hl Hb. unfold block_indices. rewrite in_flat_map. split.
  - intros (lid & Hlid & Hin). apply in_ids in Hlid.
    apply (strided_list_sound (Z.to_nat bound) lid bound lsz x); [lia | exact Hin].
  - intros Hx. exists (x mod lsz).
    pose proof (Z.mod_pos_bound x lsz Hl) as Hm.
    pose proof (Z.div_mod x lsz ltac:(lia)) as Hd.
    assert (Hq : 0 <= x / lsz) by (apply Z.div_pos; lia).
    split; [apply in_ids; lia |].
    assert (Hx' : x mod lsz + Z.of_nat (Z.to_nat (x / lsz)) * lsz = x) by lia.
    pose proof (strided_list_complete (Z.to_nat (x / lsz)) (Z.to_nat bound)
                  (x mod lsz) bound lsz) as Hc.
    rewrite Hx' in Hc. apply Hc; try lia. nia.
Qed.

(** What a run of writes [a[pos i] = f i] leaves in the array. *)
Lemma fold_wr_length {A} (pos : Z -> Z) (f : Z -> list A -> A) (l : list Z) (a : list A) :
  length (fold_left (fun a i => wr a (pos i) (f i a)) l a) = length a.
Proof.
  revert a. induction l as [| x l IH]; intros a; cbn; [reflexivity |].
  rewrite IH. apply length_wr.
Qed.

Lemma fold_wr_miss {A} (d : A) (pos : Z -> Z) (f : Z -> A) (l : list Z) (a : list A) (p : Z) :
  (forall i, In i l -> pos i <> p) ->
  rd d (fold_left (fun a i => wr a (pos i) (f i)) l a) p = rd d a p.
Proof.
  revert a. induction l as [| x l IH]; intros a Hm; cbn; [reflexivity |].
  rewrite IH by (intros i Hi; apply Hm; right; exact Hi).
  apply rd_wr_other. apply Hm. left. reflexivity.
Qed.

Lemma fold_wr_hit {A} (d : A) (pos : Z -> Z) (f : Z -> A) (l : list Z) (a : list A) (i : Z) :
  (forall j, In j l -> 0 <= pos j < Z.of_nat (length a)) ->
  (forall j, In j l -> pos j = pos i -> j = i) ->
  In i l ->
  rd d (fold_left (fun a i => wr a (pos i) (f i)) l a) (pos i) = f i.
Proof.
  revert a. induction l as [| x l IH]; intros a Hr Hinj Hin; [destruct Hin |].
  cbn [fold_left].
  destruct (in_dec Z.eq_dec i l) as [Hil | Hnil].
  - apply IH; [| | exact Hil].
    + intros j Hj. rewrite length_wr. apply Hr. right. exact Hj.
    + intros j Hj. apply Hinj. right. exact Hj.
  - destruct Hin as [-> | Hil]; [| contradiction].
    rewrite fold_wr_miss.
    + apply rd_wr_same. apply Hr. left. reflexivity.
    + intros j Hj He. apply Hinj in He; [| right; exact Hj]. subst j. contradiction.
Qed.

(** ** The merge kernel and its shared memory *)

Section MergeShared.

Variable keycomp : Z -> Z -> Z.

Lemma par_for_preserves {S} (P : S -> Prop) (n : Z) (body : Z -> S -> S) (s : S) :
  (forall i s, 0 <= i < n -> P s -> P (body i s)) -> P s -> P (par_for n body s).
Proof.
  intros Hb. unfold par_for.
  assert (H : forall l, (forall i, In i l -> 0 <= i < n) ->
                        forall s, P s -> P (fold_left (fun s i => body i s) l s)).
  { induction l as [| x l IH]; intros Hl s0 Hs; cbn; [exact Hs |].
    apply IH; [intros i Hi; apply Hl; right; exact Hi |].
    apply Hb; [apply Hl; left; reflexivity | exact Hs]. }
  apply H. intros i Hi. apply in_ids. exact Hi.
Qed.

Lemma merge_indices_range (lsz unitSize lid : Z) :
  0 < lsz < 2 ^ 31 -> 2 <= unitSize <= 2 * lsz -> 0 <= lid < lsz ->
  0 <= fst (merge_indices unitSize lid) < snd (merge_indices unitSize lid).
Proof.
  intros Hl Hu Hlid. unfold merge_indices. cbn [fst snd].
  set (h := unitSize / 2).
  assert (Hh : 1 <= h) by (apply Z.div_le_lower_bound; lia).
  assert (Hh2 : h <= lsz) by (apply Z.div_le_upper_bound; lia).
  assert (Hq : 0 <= lid / h <= lid).
  { split; [apply Z.div_pos; lia |]. apply Z.div_le_upper_bound; nia. }
  pose proof (Z.mod_pos_bound lid h ltac:(lia)) as Hm.
  assert (Hx : 0 <= lid / h * unitSize + lid mod h < 2 ^ 63) by nia.
  rewrite (wrap64_small (lid / h * unitSize + lid mod h)) by lia.
  rewrite wrap64_small by lia. lia.
Qed.

Lemma merge_thread_preserves (P : list cell -> Prop) (lsz part_size unitSize lid : Z)
    (shm : list cell) :
  swap_closed part_size P ->
  0 < lsz < 2 ^ 31 -> 2 <= unitSize <= 2 * lsz -> 0 <= lid < lsz ->
  P shm -> P (merge_thread keycomp part_size unitSize lid shm).
Proof.
  intros Hc Hl Hu Hlid HP.
  pose proof (merge_indices_range lsz unitSize lid Hl Hu Hlid) as Hr.
  unfold merge_thread. destruct (merge_indices unitSize lid) as [idx0 idx1].
  cbn [fst snd] in Hr.
  destruct (idx1 <? part_size) eqn:E; [| exact HP].
  apply Z.ltb_lt in E. unfold compare_swap.
  destruct (0 <? keycomp _ _); [| exact HP].
  apply Hc; [exact HP | lia | lia].
Qed.

Lemma merge_unit_loop_preserves (P : list cell -> Prop) (lsz part_size : Z) (fuel : nat) :
  swap_closed part_size P -> 0 < lsz < 2 ^ 31 ->
  forall unitSize shm,
    0 <= unitSize <= 2 * lsz -> P shm ->
    P (merge_unit_loop keycomp fuel lsz part_size unitSize shm).
Proof.
  intros Hc Hl. induction fuel as [| fuel IH]; intros u shm Hu HP; cbn; [exact HP |].
  destruct (2 <=? u) eqn:E; [| exact HP]. apply Z.leb_le in E.
  apply IH.
  - split; [apply Z.div_pos; lia |]. apply Z.div_le_upper_bound; lia.
  - apply par_for_preserves; [| exact HP].
    intros lid s Hlid Hs. apply (merge_thread_preserves P lsz); auto; lia.
Qed.

End MergeShared.
Lemma load_shared_length (lsz base bound : Z) (results : list Z) (shm : list cell) :
  length (load_shared lsz base bound results shm) = length shm.
Proof.
  unfold load_shared. rewrite par_for_strided.
  apply (fold_wr_length (fun i => i)
           (fun i _ => Cell (rd 0 results (wrap64 (base + i))) (Some (wrap64 (base + i))))).
Qed.

Lemma load_shared_hit (lsz base bound : Z) (results : list Z) (shm : list cell) (i : Z) :
  0 < lsz -> bound + lsz <= 2 ^ 64 -> bound <= Z.of_nat (length shm) ->
  0 <= i < bound ->
  rd cell0 (load_shared lsz base bound results shm) i
  = Cell (rd 0 results (wrap64 (base + i))) (Some (wrap64 (base + i))).
Proof.
  intros Hl Hb Hlen Hi. unfold load_shared. rewrite par_for_strided.
  apply (fold_wr_hit cell0 (fun i => i)
           (fun i => Cell (rd 0 results (wrap64 (base + i))) (Some (wrap64 (base + i))))).
  - intros j Hj. apply in_block_indices in Hj; lia.
  - intros j _ Hj. exact Hj.
  - apply in_block_indices; lia.
Qed.

Lemma load_shared_miss (lsz base bound : Z) (results : list Z) (shm : list cell) (p : Z) :
  0 < lsz -> bound + lsz <= 2 ^ 64 -> bound <= p ->
  rd cell0 (load_shared lsz base bound results shm) p = rd cell0 shm p.
Proof.
  intros Hl Hb Hp. unfold load_shared. rewrite par_for_strided.
  apply (fold_wr_miss cell0 (fun i => i)
           (fun i => Cell (rd 0 results (wrap64 (base + i))) (Some (wrap64 (base + i))))).
  intros j Hj. apply in_block_indices in Hj; lia.
Qed.

Lemma store_shared_hit (lsz base part_size : Z) (shm : list cell) (results : list Z) (i : Z) :
  0 < lsz -> part_size + lsz <= 2 ^ 64 -> 0 <= base ->
  base + part_size <= Z.of_nat (length results) -> base + part_size <= 2 ^ 64 ->
  0 <= i < part_size ->
  rd 0 (store_shared lsz base part_size shm results) (base + i) = cval (rd cell0 shm i).
Proof.
  intros Hl Hb Hbase Hlen Hw Hi. unfold store_shared. rewrite par_for_strided.
  rewrite <- (wrap64_small (base + i)) at 1 by lia.
  apply (fold_wr_hit 0 (fun i => wrap64 (base + i)) (fun i => cval (rd cell0 shm i))).
  - intros j Hj. apply in_block_indices in Hj; [| lia | lia].
    rewrite wrap64_small by lia. lia.
  - intros j Hj He. apply in_block_indices in Hj; [| lia | lia].
    rewrite !wrap64_small in He by lia. lia.
  - apply in_block_indices; lia.
Qed.

(** The two properties the merge rounds keep. *)
Lemma all_loaded_swap_closed (results : list Z) (lo hi n len : Z) :
  n <= len ->
  swap_closed n (fun shm =>
    Z.of_nat (length shm) = len /\
    forall i, 0 <= i < n -> loaded_from results lo hi (rd cell0 shm i)).
Proof.
  intros Hn shm i0 i1 [Hlen HP] H0 H1. split; [rewrite !length_wr; exact Hlen |].
  intros i Hi.
  destruct (Z.eq_dec i1 i) as [-> | Hne1].
  - rewrite rd_wr_same by (rewrite length_wr; lia). apply HP. lia.
  - rewrite rd_wr_other by exact Hne1.
    destruct (Z.eq_dec i0 i) as [-> | Hne0].
    + rewrite rd_wr_same by lia. apply HP. lia.
    + rewrite rd_wr_other by exact Hne0. apply HP. exact Hi.
Qed.

Lemma some_stale_swap_closed (n len : Z) :
  n <= len ->
  swap_closed n (fun shm =>
    Z.of_nat (length shm) = len /\
    exists p, 0 <= p < n /\ corigin (rd cell0 shm p) = None).
Proof.
  intros Hn shm i0 i1 [Hlen (p & Hp & Hst)] H0 H1.
  split; [rewrite !length_wr; exact Hlen |].
  destruct (Z.eq_dec i0 p) as [-> | Hne0].
  - exists i1. split; [lia |]. rewrite rd_wr_same by (rewrite length_wr; lia). exact Hst.
  - destruct (Z.eq_dec i1 p) as [-> | Hne1].
    + exists i0. split; [lia |].
      rewrite rd_wr_other by congruence. rewrite rd_wr_same by lia. exact Hst.
    + exists p. split; [lia |]. rewrite !rd_wr_other by assumption. exact Hst.
Qed.

Lemma partition_facts (lsz nitems part_id : Z) :
  0 < lsz < 2 ^ 31 -> nitems <= 2 ^ 32 ->
  0 <= partition_base lsz part_id < nitems ->
  0 < partition_size lsz nitems part_id <= 2 * lsz /\
  partition_base lsz part_id + partition_size lsz nitems part_id <= nitems.
Proof.
  intros Hl Hn Hb. unfold partition_size.
  set (base := partition_base lsz part_id) in *.
  rewrite (wrap64_small (2 * lsz)) by lia.
  rewrite (wrap64_small (base + 2 * lsz)) by lia.
  destruct (nitems <? base + 2 * lsz) eqn:E.
  - apply Z.ltb_lt in E. rewrite wrap64_small by lia. lia.
  - apply Z.ltb_ge in E. lia.
Qed.

Lemma rd_stale (stale : list Z) (p : Z) :
  corigin (rd cell0 (map stale_cell stale) p) = None.
Proof.
  unfold rd. destruct (p <? 0); [reflexivity |].
  change cell0 with (stale_cell 0). rewrite map_nth. reflexivity.
Qed.

(** C9: a block of [gpusort_bitonic_merge] writes back the cells
    [localIdx[0 .. part_size-1]].  When the partition (twice the work-group
    size, cut at [nitems]) has at most 2048 entries, each of these cells
    was loaded from an entry of the same partition.  When it has more than
    2048 entries, the load loop stops at 2048 and a cell that was never
    loaded is written back. *)
Theorem merge_writeback_origin (keycomp : Z -> Z -> Z) (lsz part_id : Z)
    (stale results : list Z) :
  let nitems := Z.of_nat (length results) in
  let base := partition_base lsz part_id in
  let part_size := partition_size lsz nitems part_id in
  let shm := merge_shared keycomp lsz nitems part_id (map stale_cell stale) results in
  let results' :=
    gpusort_bitonic_merge_block keycomp lsz nitems (map stale_cell stale) part_id results in
  0 < lsz < 2 ^ 31 -> nitems <= 2 ^ 32 -> 0 <= base < nitems ->
  Z.of_nat (length stale) = 2 * lsz ->
  (forall i, 0 <= i < part_size ->
     rd 0 results' (base + i) = cval (rd cell0 shm i)) /\
  (part_size <= 2048 ->
     forall i, 0 <= i < part_size ->
       loaded_from results base (base + part_size) (rd cell0 shm i)) /\
  (2048 < part_size ->
     exists i, 0 <= i < part_size /\ corigin (rd cell0 shm i) = None).
Proof.
  intros nitems base part_size shm results' Hl Hn Hb Hst.
  destruct (partition_facts lsz nitems part_id Hl Hn Hb) as [Hps Hend].
  fold base part_size in Hps, Hend.
  assert (Hlen0 : Z.of_nat (length (map stale_cell stale)) = 2 * lsz)
    by (rewrite length_map; exact Hst).
  split; [| split].
  - intros i Hi. unfold results', gpusort_bitonic_merge_block.
    fold base part_size shm. apply store_shared_hit; lia.
  - intros Hsmall.
    assert (HP : Z.of_nat (length shm) = 2 * lsz /\
                 forall i, 0 <= i < part_size ->
                   loaded_from results base (base + part_size) (rd cell0 shm i)).
    { unfold shm, merge_shared. fold base part_size.
      apply (merge_unit_loop_preserves keycomp _ lsz part_size 64
               (all_loaded_swap_closed results base (base + part_size)
                  part_size (2 * lsz) ltac:(lia)) Hl).
      - rewrite wrap64_small by lia. lia.
      - split; [rewrite load_shared_length; exact Hlen0 |].
        intros i Hi. unfold merge_load_bound. rewrite Z.min_l by lia.
        rewrite load_shared_hit by lia.
        exists (base + i). rewrite wrap64_small by lia. split; [lia | reflexivity]. }
    exact (proj2 HP).
  - intros Hbig.
    assert (HP : Z.of_nat (length shm) = 2 * lsz /\
                 exists p, 0 <= p < part_size /\ corigin (rd cell0 shm p) = None).
    { unfold shm, merge_shared. fold base part_size.
      apply (merge_unit_loop_preserves keycomp _ lsz part_size 64
               (some_stale_swap_closed part_size (2 * lsz) ltac:(lia)) Hl).
      - rewrite wrap64_small by lia. lia.
      - split; [rewrite load_shared_length; exact Hlen0 |].
        exists 2048. split; [lia |].
        unfold merge_load_bound. rewrite Z.min_r by lia.
        rewrite load_shared_miss by lia. apply rd_stale. }
    exact (proj2 HP).
Qed.

Lemma merge_writeback_origin_witness :
  let keycomp := keycomp_of (fun x => x) in
  let stale := [9; 9; 9; 9] in
  let results := [3; 1; 2; 0] in
  let shm := merge_shared keycomp 2 4 0 (map stale_cell stale) results in
  let results' := gpusort_bitonic_merge_block keycomp 2 4 (map stale_cell stale) 0 results in
  (forall i, 0 <= i < 4 -> rd 0 results' (0 + i) = cval (rd cell0 shm i)) /\
  (4 <= 2048 ->
     forall i, 0 <= i < 4 -> loaded_from results 0 (0 + 4) (rd cell0 shm i)) /\
  (2048 < 4 -> exists i, 0 <= i < 4 /\ corigin (rd cell0 shm i) = None).
Proof.
  apply (merge_writeback_origin (keycomp_of (fun x => x)) 2 0 [9; 9; 9; 9] [3; 1; 2; 0]).
  - lia.
  - cbn. lia.
  - vm_compute. split; [discriminate | reflexivity].
  - reflexivity.
Defined.

(** ** The whole pipeline *)

(** C1 (the code departs from it): with three items the single partition
    is cut to [part_size = 3], the local sort runs [blockSize = 2] only
    (the next size, 4, exceeds [part_size]), the third item is never
    compared, and with [nhalf = 2] no step or merge launch follows for a
    block size of 2 or more.  The array [1; 2; 0], compared by value, comes
    back unchanged and unsorted. *)
Theorem gpusort_main_leaves_unsorted :
  let keycomp := keycomp_of (fun x => x) in
  (forall b, In b [2; 4; 8; 16; 32; 64; 128; 256; 512; 1024] ->
     gpusort_main keycomp (fun _ => b) (repeat 0 (Z.to_nat (2 * b))) [1; 2; 0]
     = [1; 2; 0]) /\
  sorted_by keycomp [1; 2; 0] = false.
Proof.
  split; [| reflexivity].
  intros b Hb. cbn [In] in Hb.
  repeat (destruct Hb as [<- | Hb]; [vm_compute; reflexivity |]).
  destruct Hb.
Qed.

(** ** The model at work *)

(** Sixteen items, blocks of two threads: the local sort, three rounds of
    steps and merges. *)
Example gpusort_main_sixteen :
  gpusort_main (keycomp_of (fun x => x)) (fun _ => 2) [0; 0; 0; 0]
    [5; 3; 8; 1; 9; 2; 7; 0; 4; 6; 11; 10; 15; 14; 12; 13]
  = [0; 1; 2; 3; 4; 5; 6; 7; 8; 9; 10; 11; 12; 13; 14; 15].
Proof. vm_compute. reflexivity. Qed.

(** Thirteen items, blocks of four threads: the last partition has five
    entries, of which the local sort orders the first four only. *)
Example gpusort_main_thirteen :
  gpusort_main (keycomp_of (fun x => x)) (fun _ => 4) [0; 0; 0; 0; 0; 0; 0; 0]
    [10; 11; 12; 13; 14; 15; 16; 17; 5; 6; 7; 8; 1]
  = [1; 6; 7; 8; 5; 10; 11; 12; 13; 14; 15; 16; 17].
Proof. vm_compute. reflexivity. Qed.

(** ** Bytes and chunk memory *)

Lemma Z_of_byte_of_Z (z : Z) : Z_of_byte (byte_of_Z z) = z mod 256.
Proof.
  unfold Z_of_byte, byte_of_Z.
  pose proof (Z.mod_pos_bound z 256 ltac:(lia)) as Hm.
  destruct (Byte.of_N (Z.to_N (z mod 256))) as [b |] eqn:E.
  - apply Byte.to_of_N in E. rewrite E. lia.
  - apply Byte.of_N_None_iff in E. lia.
Qed.

Lemma length_le_bytes (n : nat) (z : Z) : length (le_bytes n z) = n.
Proof. revert z. induction n as [| n IH]; intros z; cbn; [reflexivity | rewrite IH; reflexivity]. Qed.

Lemma le_value_le_bytes (n : nat) (z : Z) :
  le_value (le_bytes n z) = z mod 256 ^ Z.of_nat n.
Proof.
  revert z. induction n as [| n IH]; intros z.
  - cbn. rewrite Z.mod_1_r. reflexivity.
  - cbn [le_bytes le_value]. rewrite IH, Z_of_byte_of_Z.
    rewrite Nat2Z.inj_succ, Z.pow_succ_r by lia.
    rewrite Z.rem_mul_r by (try apply Z.pow_pos_nonneg; lia). reflexivity.
Qed.

Lemma le_value_u32 (z : Z) : 0 <= z < 2 ^ 32 -> le_value (le_bytes 4 z) = z.
Proof. intros Hz. rewrite le_value_le_bytes. apply Z.mod_small. exact Hz. Qed.

Lemma length_store_bytes (mem : list byte) (off : Z) (bs : list byte) :
  length (store_bytes mem off bs) = length mem.
Proof.
  unfold store_bytes. destruct (off <? 0); [reflexivity |].
  rewrite length_take, !length_app, length_take, length_drop. lia.
Qed.

Lemma store_bytes_inside (mem : list byte) (off : Z) (bs : list byte) :
  0 <= off -> off + Z.of_nat (length bs) <= Z.of_nat (length mem) ->
  store_bytes mem off bs
  = take (Z.to_nat off) mem ++ bs ++ drop (Z.to_nat off + length bs) mem.
Proof.
  intros H0 Hin. unfold store_bytes.
  destruct (off <? 0) eqn:E; [apply Z.ltb_lt in E; lia |].
  apply take_ge. rewrite !length_app, length_take, length_drop. lia.
Qed.

Lemma load_store_same (mem : list byte) (off : Z) (bs : list byte) :
  0 <= off -> off + Z.of_nat (length bs) <= Z.of_nat (length mem) ->
  load_bytes (store_bytes mem off bs) off (Z.of_nat (length bs)) = bs.
Proof.
  intros H0 Hin. rewrite store_bytes_inside by assumption. unfold load_bytes.
  rewrite drop_app_length' by (rewrite length_take; lia).
  rewrite Nat2Z.id. apply take_app_length.
Qed.

Lemma load_store_other (mem : list byte) (off : Z) (bs : list byte) (off' len' : Z) :
  0 <= off -> off + Z.of_nat (length bs) <= Z.of_nat (length mem) ->
  0 <= off' -> 0 <= len' ->
  off' + len' <= off \/ off + Z.of_nat (length bs) <= off' ->
  load_bytes (store_bytes mem off bs) off' len' = load_bytes mem off' len'.
Proof.
  intros H0 Hin H0' Hl' Hdis. rewrite store_bytes_inside by assumption.
  unfold load_bytes. apply list_eq. intros i.
  rewrite !lookup_take. destruct (decide (i < Z.to_nat len')%nat) as [Hi | Hi]; [| reflexivity].
  rewrite !lookup_drop.
  destruct Hdis as [Hd | Hd].
  - rewrite lookup_app_l by (rewrite length_take; lia).
    rewrite lookup_take. rewrite decide_True by lia. reflexivity.
  - rewrite lookup_app_r by (rewrite length_take; lia).
    rewrite lookup_app_r by (rewrite length_take; lia).
    rewrite length_take, lookup_drop. f_equal. lia.
Qed.

Lemma load_store_hit (mem : list byte) (off len : Z) (bs : list byte) :
  0 <= off -> len = Z.of_nat (length bs) -> off + len <= Z.of_nat (length mem) ->
  load_bytes (store_bytes mem off bs) off len = bs.
Proof. intros H0 -> Hin. apply load_store_same; assumption. Qed.

(** ** Row insertion and fetch *)

Lemma head_length_range (L : layout) (ncols : Z) :
  layout_ok L -> 0 <= ncols < 2 ^ 32 ->
  0 <= KERN_DATA_STORE_HEAD_LENGTH L ncols < 2 ^ 50.
Proof.
  intros ((k & Hk & Ha) & Hc & Hs & _) Hn.
  unfold KERN_DATA_STORE_HEAD_LENGTH, STROMALIGN. rewrite Ha.
  assert (Hm : 0 <= sizeof_colmeta L * ncols < 2 ^ 48) by nia.
  rewrite (wrap64_small (sizeof_colmeta L * ncols)) by lia.
  rewrite wrap64_small by lia.
  assert (Hp : 0 < 2 ^ k <= 2 ^ 16).
  { split; [apply pow2_pos; lia | apply Z.pow_le_mono_r; lia]. }
  pose proof (TYPEALIGN_bounds k (offsetof_colmeta L + sizeof_colmeta L * ncols)
                ltac:(lia) ltac:(lia) ltac:(lia)).
  lia.
Qed.

Lemma rowindex_offset_value (L : layout) (kds : kern_data_store) (i : Z) :
  layout_ok L -> 0 <= kds_ncols kds < 2 ^ 32 -> 0 <= i <= 2 ^ 32 ->
  rowindex_offset L kds i = KERN_DATA_STORE_HEAD_LENGTH L (kds_ncols kds) + 4 * i.
Proof.
  intros HL Hn Hi. pose proof (head_length_range L (kds_ncols kds) HL Hn) as Hh.
  unfold rowindex_offset, sizeof_uint.
  rewrite (wrap64_small (4 * i)) by lia. apply wrap64_small. lia.
Qed.

Lemma LONGALIGN_bounds (len : Z) :
  0 <= len < 2 ^ 40 -> len <= LONGALIGN len < len + 8.
Proof.
  intros Hl. unfold LONGALIGN. change 8 with (2 ^ 3).
  apply TYPEALIGN_bounds; lia.
Qed.

(** What a successful insertion did. *)
Lemma insert_tuple_success (L : layout) (kds kds' : kern_data_store)
    (tuple : HeapTupleData) :
  layout_ok L -> kds_wf kds -> tuple_wf tuple ->
  pgstrom_data_store_insert_tuple L kds tuple = Ok (true, kds') ->
  let head := KERN_DATA_STORE_HEAD_LENGTH L (kds_ncols kds) in
  let item_size := LONGALIGN (offsetof_htup L + t_len tuple) in
  let tup_item := kds_length kds - (kds_usage kds + item_size) in
  kds_format kds = KDS_FORMAT_ROW /\
  kds_nitems kds < kds_nrooms kds /\
  head + 4 * (kds_nitems kds + 1) <= tup_item /\
  offsetof_htup L + t_len tuple <= item_size /\
  kds_ncols kds' = kds_ncols kds /\
  kds_format kds' = KDS_FORMAT_ROW /\
  kds_nitems kds' = kds_nitems kds + 1 /\
  kds_usage kds' = kds_usage kds + item_size /\
  kds_length kds' = kds_length kds /\
  kds_mem kds' = store_u32 (store_tupitem L (kds_mem kds) tup_item tuple)
                   (head + 4 * kds_nitems kds) tup_item.
Proof.
  intros HL (Hmem & Hlen & Hus & Hnc & Hni & Hnr) (Htl & Hts & Htd) Hins head item_size tup_item.
  pose proof HL as (_ & _ & _ & Hself & Hhtup & _).
  pose proof (head_length_range L (kds_ncols kds) HL Hnc) as Hh. fold head in Hh.
  unfold pgstrom_data_store_insert_tuple in Hins.
  destruct (kds_nrooms kds <=? kds_nitems kds) eqn:Eroom; [discriminate |].
  apply Z.leb_gt in Eroom.
  destruct (kds_format kds) eqn:Efmt; try discriminate.
  rewrite (wrap64_small (offsetof_htup L + t_len tuple)) in Hins by lia.
  fold item_size in Hins.
  pose proof (LONGALIGN_bounds (offsetof_htup L + t_len tuple) ltac:(lia)) as Hit.
  fold item_size in Hit.
  rewrite !rowindex_offset_value in Hins by (auto; lia). fold head in Hins.
  rewrite (wrap64_small (head + 4 * (kds_nitems kds + 1) + kds_usage kds)) in Hins by lia.
  rewrite (wrap64_small (head + 4 * (kds_nitems kds + 1) + kds_usage kds + item_size))
    in Hins by lia.
  destruct (kds_length kds <? _) eqn:Efit; [discriminate |].
  apply Z.ltb_ge in Efit.
  rewrite (wrap32_small (kds_usage kds + item_size)) in Hins by lia.
  fold tup_item in Hins.
  rewrite (wrap64_small tup_item) in Hins by (unfold tup_item; lia).
  rewrite (wrap32_small tup_item) in Hins by (unfold tup_item; lia).
  rewrite (wrap32_small (kds_nitems kds + 1)) in Hins by lia.
  injection Hins as <-. cbn.
  repeat split; try reflexivity; lia.
Qed.

Lemma length_store_u32 (mem : list byte) (off v : Z) :
  length (store_u32 mem off v) = length mem.
Proof. apply length_store_bytes. Qed.

Lemma length_store_tupitem (L : layout) (mem : list byte) (off : Z) (tuple : HeapTupleData) :
  length (store_tupitem L mem off tuple) = length mem.
Proof. unfold store_tupitem. rewrite !length_store_bytes. apply length_store_u32. Qed.

(** The three fields of an item read back from where [store_tupitem] put
    them. *)
Lemma load_store_tupitem (L : layout) (mem : list byte) (off : Z) (tuple : HeapTupleData) :
  layout_ok L -> tuple_wf tuple -> 0 <= off ->
  off + offsetof_htup L + t_len tuple <= Z.of_nat (length mem) ->
  let mem' := store_tupitem L mem off tuple in
  load_u32 mem' off = t_len tuple /\
  load_bytes mem' (off + offsetof_t_self L) 6 = t_self tuple /\
  load_bytes mem' (off + offsetof_htup L) (t_len tuple) = t_data tuple.
Proof.
  intros (_ & _ & _ & Hself & Hhtup & _) (Htl & Hts & Htd) H0 Hin mem'.
  unfold mem', store_tupitem.
  assert (Hs6 : take 6 (t_self tuple) = t_self tuple) by (apply take_ge; lia).
  assert (Hsd : take (Z.to_nat (t_len tuple)) (t_data tuple) = t_data tuple)
    by (apply take_ge; lia).
  rewrite Hs6, Hsd.
  set (m1 := store_u32 mem off (t_len tuple)).
  set (m2 := store_bytes m1 (off + offsetof_t_self L) (t_self tuple)).
  assert (Hl1 : length m1 = length mem) by apply length_store_u32.
  assert (Hl2 : length m2 = length mem) by (unfold m2; rewrite length_store_bytes; exact Hl1).
  repeat split.
  - unfold load_u32.
    rewrite load_store_other by lia.
    unfold m2. rewrite load_store_other by lia.
    unfold m1, store_u32. rewrite load_store_hit by (rewrite ?length_le_bytes; lia).
    apply le_value_u32. exact Htl.
  - rewrite load_store_other by lia.
    unfold m2. apply load_store_hit; lia.
  - apply load_store_hit; lia.
Qed.

(** C2: when [pgstrom_data_store_insert_tuple] returns true for a tuple,
    which then has the index [nitems] the chunk had before the call,
    [kern_fetch_data_store] at that index succeeds and yields the row
    length, the row identity and the row bytes of the inserted tuple. *)
Theorem insert_tuple_fetch_roundtrip (L : layout) (kds kds' : kern_data_store)
    (tuple : HeapTupleData) :
  layout_ok L -> kds_wf kds -> tuple_wf tuple ->
  pgstrom_data_store_insert_tuple L kds tuple = Ok (true, kds') ->
  kern_fetch_data_store L kds' (kds_nitems kds) = Ok (Some (FetchedRow tuple)).
Proof.
  intros HL Hwf Htw Hins.
  pose proof (insert_tuple_success L kds kds' tuple HL Hwf Htw Hins) as
    (Hfmt & Hroom & Hfit & Hsz & Hnc' & Hfmt' & Hni' & Hus' & Hlen' & Hmem').
  pose proof Hwf as (Hmem & Hlen & Hus & Hnc & Hni & Hnr).
  pose proof Htw as (Htl & Hts & Htd).
  pose proof HL as (_ & _ & _ & Hself & Hhtup & _).
  pose proof (head_length_range L (kds_ncols kds) HL Hnc) as Hh.
  set (head := KERN_DATA_STORE_HEAD_LENGTH L (kds_ncols kds)) in *.
  set (item_size := LONGALIGN (offsetof_htup L + t_len tuple)) in *.
  set (tup_item := kds_length kds - (kds_usage kds + item_size)) in *.
  set (m3 := store_tupitem L (kds_mem kds) tup_item tuple) in *.
  assert (Hl3 : length m3 = length (kds_mem kds)) by apply length_store_tupitem.
  destruct (load_store_tupitem L (kds_mem kds) tup_item tuple HL Htw ltac:(lia) ltac:(lia))
    as (Rlen & Rself & Rdata).
  fold m3 in Rlen, Rself, Rdata.
  unfold kern_fetch_data_store.
  assert (E : (kds_nitems kds' <=? kds_nitems kds) = false) by (apply Z.leb_gt; lia).
  rewrite E, Hfmt'.
  assert (Hitem : KERN_DATA_STORE_TUPITEM L kds' (kds_nitems kds) = tup_item).
  { unfold KERN_DATA_STORE_TUPITEM.
    rewrite rowindex_offset_value by (auto; rewrite ?Hnc'; lia).
    rewrite Hnc', Hmem'. fold head. unfold load_u32, store_u32.
    rewrite load_store_hit by (rewrite ?length_le_bytes; lia).
    apply le_value_u32. lia. }
  assert (Hskip : forall off' len',
             0 <= len' -> head + 4 * kds_nitems kds + 4 <= off' ->
             load_bytes (store_u32 m3 (head + 4 * kds_nitems kds) tup_item) off' len'
             = load_bytes m3 off' len').
  { intros off' len' Hl' Ho'. unfold store_u32.
    apply load_store_other; rewrite ?length_le_bytes; lia. }
  rewrite Hitem, Hmem'. unfold load_u32 in *.
  rewrite (Hskip tup_item 4), Rlen by lia.
  rewrite (Hskip (tup_item + offsetof_t_self L) 6), Rself by lia.
  rewrite (Hskip (tup_item + offsetof_htup L) (t_len tuple)), Rdata by lia.
  destruct tuple; reflexivity.
Qed.

(** The concrete layout, chunk and tuples are well formed: by evaluation. *)
Ltac layout_evaluated :=
  split; [exists 4; split; [lia | reflexivity] | cbn; lia].

Ltac evaluated := repeat split; vm_compute; congruence.

Lemma insert_tuple_fetch_roundtrip_witness :
  exists kds',
    pgstrom_data_store_insert_tuple layout_x86_64 (chunk_empty KDS_FORMAT_ROW) tuple_3bytes
    = Ok (true, kds') /\
    kern_fetch_data_store layout_x86_64 kds' 0 = Ok (Some (FetchedRow tuple_3bytes)).
Proof.
  eexists. split; [reflexivity |].
  apply (insert_tuple_fetch_roundtrip layout_x86_64 (chunk_empty KDS_FORMAT_ROW) _ tuple_3bytes).
  - layout_evaluated.
  - evaluated.
  - evaluated.
  - reflexivity.
Defined.

(** ** Capacity checks *)

(** C5: a chunk whose item count has reached its capacity refuses every
    tuple: the call returns false and the chunk stays as it is, usage and
    item count included; a row-format chunk, the format the function
    stores into, does the same when the row index with one more entry,
    the used tail and the new item rounded to 8 bytes do not fit into its
    length. *)
Theorem insert_tuple_refused (L : layout) (kds : kern_data_store)
    (tuple : HeapTupleData) :
  layout_ok L -> kds_wf kds -> tuple_wf tuple ->
  (kds_nrooms kds <= kds_nitems kds ->
     pgstrom_data_store_insert_tuple L kds tuple = Ok (false, kds)) /\
  (kds_format kds = KDS_FORMAT_ROW ->
     kds_length kds < space_after_append L kds tuple ->
     pgstrom_data_store_insert_tuple L kds tuple = Ok (false, kds)).
Proof.
  intros HL (Hmem & Hlen & Hus & Hnc & Hni & Hnr) (Htl & Hts & Htd).
  pose proof HL as (_ & _ & _ & Hself & Hhtup & _).
  pose proof (head_length_range L (kds_ncols kds) HL Hnc) as Hh.
  unfold pgstrom_data_store_insert_tuple.
  split.
  - intros Hfull. apply Z.leb_le in Hfull. rewrite Hfull. reflexivity.
  - intros Hrow Hbig. rewrite Hrow.
    destruct (kds_nrooms kds <=? kds_nitems kds); [reflexivity |].
    unfold space_after_append, sizeof_uint in Hbig.
    pose proof (LONGALIGN_bounds (offsetof_htup L + t_len tuple) ltac:(lia)) as Hit.
    rewrite (wrap64_small (offsetof_htup L + t_len tuple)) by lia.
    rewrite rowindex_offset_value by (auto; lia).
    rewrite (wrap64_small (_ + kds_usage kds)) by lia.
    rewrite wrap64_small by lia.
    apply Z.ltb_lt in Hbig. rewrite Hbig. reflexivity.
Qed.

Lemma insert_tuple_refused_witness :
  let kds := chunk_empty KDS_FORMAT_ROW in
  kds_length kds < space_after_append layout_x86_64 kds tuple_300bytes /\
  pgstrom_data_store_insert_tuple layout_x86_64 kds tuple_300bytes = Ok (false, kds).
Proof.
  intros kds.
  assert (Hbig : kds_length kds < space_after_append layout_x86_64 kds tuple_300bytes)
    by (vm_compute; reflexivity).
  split; [exact Hbig |].
  apply (insert_tuple_refused layout_x86_64 kds tuple_300bytes);
    [layout_evaluated | evaluated | evaluated | reflexivity | exact Hbig].
Defined.

(** The guard between the two tests: a chunk with free rooms that is not
    in row format makes the call raise the unexpected-format error. *)
Lemma insert_tuple_other_format (L : layout) (kds : kern_data_store)
    (tuple : HeapTupleData) :
  kds_nitems kds < kds_nrooms kds -> kds_format kds <> KDS_FORMAT_ROW ->
  pgstrom_data_store_insert_tuple L kds tuple = Err ERR_unexpected_format.
Proof.
  intros Hroom Hfmt. unfold pgstrom_data_store_insert_tuple.
  apply Z.leb_gt in Hroom. rewrite Hroom.
  destruct (kds_format kds); [contradiction | reflexivity | reflexivity].
Qed.

(** ** The pre-check of a page load *)

Lemma insert_block_max_consume_value (L : layout) (kds : kern_data_store) (lines : Z) :
  layout_ok L -> kds_wf kds -> 0 <= lines -> kds_nitems kds + lines < 2 ^ 32 ->
  insert_block_max_consume L kds lines = worst_case_estimate L kds lines.
Proof.
  intros HL (Hmem & Hlen & Hus & Hnc & Hni & Hnr) Hl Hsum.
  pose proof HL as (_ & _ & _ & Hself & Hhtup & _).
  pose proof (head_length_range L (kds_ncols kds) HL Hnc) as Hh.
  unfold insert_block_max_consume, worst_case_estimate, sizeof_uint, BLCKSZ.
  rewrite (wrap32_small (kds_nitems kds + lines)) by lia.
  assert (Hm : 0 <= offsetof_htup L * lines < 2 ^ 48) by nia.
  rewrite (wrap64_small (4 * _)) by lia.
  rewrite (wrap64_small (offsetof_htup L * lines)) by lia.
  rewrite (wrap64_small (_ + 4 * _)) by lia.
  rewrite (wrap64_small (_ + offsetof_htup L * lines)) by lia.
  rewrite (wrap64_small (_ + 8192)) by lia.
  apply wrap64_small. lia.
Qed.

(** C4: when the worst-case estimate for a page (the header, an index
    entry for every stored tuple and every line of the page, the item
    header for every line, one page, and the bytes in use) exceeds the
    length of the chunk, [pgstrom_data_store_insert_block] returns -1 and
    the chunk is the one it was given. *)
Theorem insert_block_retry (L : layout) (kds : kern_data_store) (page : Page)
    (blknum : Z) (snapshot : SnapshotData) :
  layout_ok L -> kds_wf kds ->
  kds_nitems kds + PageGetMaxOffsetNumber page < 2 ^ 32 ->
  kds_length kds < worst_case_estimate L kds (PageGetMaxOffsetNumber page) ->
  pgstrom_data_store_insert_block L kds page blknum snapshot = (-1, kds).
Proof.
  intros HL Hwf Hsum Hbig. unfold pgstrom_data_store_insert_block.
  rewrite insert_block_max_consume_value
    by (auto; unfold PageGetMaxOffsetNumber; lia).
  apply Z.ltb_lt in Hbig. rewrite Hbig. reflexivity.
Qed.

Lemma insert_block_retry_witness :
  pgstrom_data_store_insert_block layout_x86_64 (chunk_empty KDS_FORMAT_ROW)
    page_one_line 7 {| takenDuringRecovery := false |}
  = (-1, chunk_empty KDS_FORMAT_ROW).
Proof.
  apply (insert_block_retry layout_x86_64 (chunk_empty KDS_FORMAT_ROW) page_one_line 7
           {| takenDuringRecovery := false |}).
  - layout_evaluated.
  - evaluated.
  - vm_compute. reflexivity.
  - vm_compute. reflexivity.
Defined.

(** ** Cached column offsets *)

Lemma align_width_pow2 (a : attalign_code) :
  exists k, 0 <= k <= 3 /\ typealign_get_width a = 2 ^ k.
Proof.
  destruct a; [exists 0 | exists 1 | exists 2 | exists 3]; split; (lia || reflexivity).
Qed.

Lemma column_alignment_pow2 (internal_format : bool) (attr : Form_pg_attribute) :
  exists k, 0 <= k <= 3 /\ column_alignment internal_format attr = 2 ^ k.
Proof.
  unfold column_alignment.
  destruct (internal_format && (atttypid attr =? NUMERICOID)).
  - exists 3. split; [lia | reflexivity].
  - apply align_width_pow2.
Qed.

Lemma TYPEALIGN_round_up (k off : Z) :
  0 <= k <= 3 -> 0 <= off < 2 ^ 31 - 8 ->
  to_int32 (TYPEALIGN (2 ^ k) off) = round_up off (2 ^ k) /\
  off <= round_up off (2 ^ k) < off + 8.
Proof.
  intros Hk Ho.
  assert (Hp : 0 < 2 ^ k <= 8).
  { split; [apply pow2_pos; lia |]. change 8 with (2 ^ 3). apply Z.pow_le_mono_r; lia. }
  pose proof (TYPEALIGN_bounds k off ltac:(lia) ltac:(lia) ltac:(lia)) as Hb.
  rewrite TYPEALIGN_pow2 in * by lia.
  assert (Hr : round_up off (2 ^ k) = 2 ^ k * ((off + (2 ^ k - 1)) / 2 ^ k)).
  { unfold round_up. rewrite Z.mul_comm. do 2 f_equal. lia. }
  rewrite Hr. split; [| lia].
  unfold to_int32. rewrite wrap32_small by lia.
  destruct (_ <? 2 ^ 31) eqn:E; [reflexivity | apply Z.ltb_ge in E; lia].
Qed.

Lemma round_up_facts (off align : Z) :
  0 < align -> off <= round_up off align /\ round_up off align mod align = 0.
Proof.
  intros Ha. unfold round_up.
  pose proof (Z.div_mod (off + align - 1) align ltac:(lia)) as Hd.
  pose proof (Z.mod_pos_bound (off + align - 1) align Ha) as Hm.
  split; [nia | apply Z.mod_mul; lia].
Qed.

Lemma column_alignment_pos (internal_format : bool) (attr : Form_pg_attribute) :
  0 < column_alignment internal_format attr.
Proof.
  destruct (column_alignment_pow2 internal_format attr) as (k & Hk & ->).
  apply pow2_pos. lia.
Qed.

Lemma to_int16_small (x : Z) : - 2 ^ 15 <= x < 2 ^ 15 -> to_int16 x = x.
Proof.
  intros Hx. unfold to_int16.
  destruct (Z_lt_le_dec x 0) as [Hn | Hp].
  - replace (x mod 2 ^ 16) with (x + 2 ^ 16)
      by (apply Z.mod_unique with (q := -1); lia).
    destruct (_ <? 2 ^ 15) eqn:E; [apply Z.ltb_lt in E; lia | lia].
  - rewrite Z.mod_small by lia.
    destruct (_ <? 2 ^ 15) eqn:E; [reflexivity | apply Z.ltb_ge in E; lia].
Qed.

Lemma to_int16_range (x : Z) : - 2 ^ 15 <= to_int16 x < 2 ^ 15.
Proof.
  unfold to_int16. pose proof (Z.mod_pos_bound x (2 ^ 16) ltac:(lia)) as Hm.
  destruct (_ <? 2 ^ 15) eqn:E; [apply Z.ltb_lt in E | apply Z.ltb_ge in E]; lia.
Qed.

(** Every entry the loop writes holds [cl_short] values in its three
    [cl_short] fields. *)
Lemma init_colmeta_fields_short (internal_format : bool) (cols : list Form_pg_attribute) :
  let short := fun e => (- 2 ^ 15 <= cm_attlen e < 2 ^ 15) /\
                        (- 2 ^ 15 <= cm_attnum e < 2 ^ 15) /\
                        (- 2 ^ 15 <= cm_attcacheoff e < 2 ^ 15) in
  forall off colmeta,
    Forall short colmeta ->
    Forall short (snd (fold_left (init_colmeta_step internal_format) cols (off, colmeta))).
Proof.
  intros short. induction cols as [| attr cols IH]; intros off colmeta Hc;
    cbn [fold_left snd]; [exact Hc |].
  destruct (init_colmeta_step internal_format (off, colmeta) attr) as [off1 cm1] eqn:E.
  apply IH.
  unfold init_colmeta_step in E.
  destruct (internal_format && (atttypid attr =? NUMERICOID));
    injection E as _ <-; apply Forall_app; (split; [exact Hc |]);
    repeat constructor; cbn [cm_attlen cm_attnum cm_attcacheoff];
    try apply to_int16_range.
Qed.

(** The offsets of the words of the spec are -1 or at the running offset
    and beyond. *)
Lemma offsets_by_lower (freezes : Form_pg_attribute -> bool) (internal_format : bool)
    (cols : list Form_pg_attribute) :
  (forall attr, freezes attr = false -> 0 <= column_length internal_format attr) ->
  forall running,
    match running with Some r => 0 <= r | None => True end ->
    Forall (fun off => -1 <= off) (offsets_by freezes internal_format running cols).
Proof.
  intros Hf. induction cols as [| attr cols IH]; intros running Hr; cbn [offsets_by];
    [constructor |].
  destruct running as [r |]; [| constructor; [lia | apply IH; exact I]].
  destruct (freezes attr) eqn:E; [constructor; [lia | apply IH; exact I] |].
  destruct (round_up_facts r (column_alignment internal_format attr)
              (column_alignment_pos internal_format attr)) as [Hle _].
  specialize (Hf attr E).
  constructor; [lia | apply IH; lia].
Qed.

Lemma map_to_int16_fit (l : list Z) :
  Forall (fun off => -1 <= off) l -> Forall (fun off => off < 2 ^ 15) l ->
  map to_int16 l = l.
Proof.
  induction 1 as [| x l Hx Hl IH]; intros Hfit; [reflexivity |].
  apply Forall_cons in Hfit as [Hx' Hfit]. cbn [map].
  rewrite IH by assumption. rewrite to_int16_small by lia. reflexivity.
Qed.

(** The step of the code on the effective length and alignment. *)
Lemma init_colmeta_step_eq (internal_format : bool) (off : Z)
    (colmeta : list kern_colmeta) (attr : Form_pg_attribute) :
  let len := column_length internal_format attr in
  let align := column_alignment internal_format attr in
  let off' := if 0 <? off
              then (if 0 <? len then to_int32 (TYPEALIGN align off) else -1)
              else off in
  exists entry,
    init_colmeta_step internal_format (off, colmeta) attr
    = (if 0 <=? off' then off' + len else off', colmeta ++ [entry]) /\
    cm_attcacheoff entry = to_int16 off'.
Proof.
  unfold init_colmeta_step, column_length, column_alignment.
  destruct (internal_format && (atttypid attr =? NUMERICOID));
    eexists; split; reflexivity.
Qed.

Lemma colmeta_frozen (internal_format : bool) (cols : list Form_pg_attribute) :
  forall colmeta,
    map cm_attcacheoff
      (snd (fold_left (init_colmeta_step internal_format) cols (-1, colmeta)))
    = map cm_attcacheoff colmeta
      ++ map to_int16
           (offsets_by (variable_width internal_format) internal_format None cols).
Proof.
  induction cols as [| attr cols IH]; intros colmeta; cbn [fold_left offsets_by snd].
  - rewrite app_nil_r. reflexivity.
  - destruct (init_colmeta_step_eq internal_format (-1) colmeta attr) as (entry & -> & He).
    cbn in He |- *. rewrite IH, map_app, <- app_assoc. cbn. rewrite He. reflexivity.
Qed.

Lemma colmeta_running (internal_format : bool) (cols : list Form_pg_attribute) :
  forall off colmeta,
    0 < off -> off + Z.of_nat (length cols) * 2 ^ 16 < 2 ^ 31 ->
    Forall (fun attr => - 2 ^ 15 <= attlen attr < 2 ^ 15) cols ->
    map cm_attcacheoff
      (snd (fold_left (init_colmeta_step internal_format) cols (off, colmeta)))
    = map cm_attcacheoff colmeta
      ++ map to_int16
           (offsets_by (variable_width internal_format) internal_format (Some off) cols).
Proof.
  induction cols as [| attr cols IH]; intros off colmeta Hpos Hb Hwf;
    cbn [fold_left offsets_by snd].
  - rewrite app_nil_r. reflexivity.
  - apply Forall_cons in Hwf as [Hattr Hwf].
    rewrite length_cons, Nat2Z.inj_succ in Hb.
    destruct (init_colmeta_step_eq internal_format off colmeta attr) as (entry & -> & He).
    cbv zeta in He.
    assert (E : (0 <? off) = true) by (apply Z.ltb_lt; lia).
    rewrite E in *.
    assert (Hlen : column_length internal_format attr < 2 ^ 15).
    { unfold column_length. destruct (_ && _); lia. }
    unfold variable_width at 1.
    destruct (0 <? column_length internal_format attr) eqn:El.
    + apply Z.ltb_lt in El.
      assert (El' : (column_length internal_format attr <=? 0) = false) by (apply Z.leb_gt; lia).
      rewrite El'.
      destruct (column_alignment_pow2 internal_format attr) as (k & Hk & Ha).
      rewrite Ha in *.
      destruct (TYPEALIGN_round_up k off Hk ltac:(lia)) as [Hr Hrb].
      rewrite Hr in *.
      assert (E0 : (0 <=? round_up off (2 ^ k)) = true) by (apply Z.leb_le; lia).
      rewrite E0.
      rewrite IH by (try assumption; lia).
      rewrite map_app, <- app_assoc. cbn. rewrite He. reflexivity.
    + apply Z.ltb_ge in El.
      assert (El' : (column_length internal_format attr <=? 0) = true) by (apply Z.leb_le; lia).
      rewrite El'. cbn [Z.leb Z.compare].
      change (0 <=? -1) with false. cbv iota.
      rewrite colmeta_frozen, map_app, <- app_assoc. cbn. rewrite He. reflexivity.
Qed.

Lemma initial_attcacheoff_value (hasoid : bool) :
  initial_attcacheoff hasoid = header_offset hasoid /\ 0 < header_offset hasoid <= 32.
Proof. destruct hasoid; vm_compute; repeat split; discriminate. Qed.

(** C3, as the code has it: the cached offset of a column starts behind
    the row header (with the OID slot, rounded to 8 bytes), is the running
    offset rounded up to the alignment of the column, and advances by its
    length; the first variable-width column and every column after it get
    -1.  Nullability is not consulted.  The entry holds the offset cut to
    its 16-bit field, which is the offset itself when the offsets stay
    below 32768. *)
Theorem init_attcacheoff_spec (mem : list byte) (tupdesc : TupleDesc)
    (length : Z) (format : kds_format_tag) (nrooms : Z) (internal_format : bool) :
  tupdesc_wf tupdesc ->
  let colmeta :=
    kds_colmeta (init_kern_data_store mem tupdesc length format nrooms internal_format) in
  map cm_attcacheoff colmeta = map to_int16 (cached_offsets internal_format tupdesc) /\
  (offsets_fit internal_format tupdesc ->
   map cm_attcacheoff colmeta = cached_offsets internal_format tupdesc).
Proof.
  intros [Hn Hwf] colmeta.
  assert (Hcut : map cm_attcacheoff colmeta
                 = map to_int16 (cached_offsets internal_format tupdesc)).
  { unfold colmeta, init_kern_data_store, cached_offsets. cbn [kds_colmeta].
    destruct (initial_attcacheoff_value (tdhasoid tupdesc)) as [-> Hh].
    rewrite colmeta_running by (try assumption; lia). reflexivity. }
  split; [exact Hcut |].
  intros Hfit. rewrite Hcut. apply map_to_int16_fit; [| exact Hfit].
  destruct (initial_attcacheoff_value (tdhasoid tupdesc)) as [_ Hh].
  apply offsets_by_lower; [| lia].
  intros attr Hv. unfold variable_width in Hv. apply Z.leb_gt in Hv. lia.
Qed.

Lemma init_attcacheoff_spec_witness :
  let colmeta :=
    kds_colmeta (init_kern_data_store [] tupdesc_two_int4 4096 KDS_FORMAT_ROW INT_MAX false) in
  tupdesc_wf tupdesc_two_int4 /\
  offsets_fit false tupdesc_two_int4 /\
  map cm_attcacheoff colmeta = map to_int16 (cached_offsets false tupdesc_two_int4) /\
  map cm_attcacheoff colmeta = cached_offsets false tupdesc_two_int4.
Proof.
  intros colmeta.
  assert (Hwf : tupdesc_wf tupdesc_two_int4)
    by (split; [cbn; lia | repeat constructor; cbn; lia]).
  assert (Hfit : offsets_fit false tupdesc_two_int4)
    by (repeat constructor; vm_compute; reflexivity).
  destruct (init_attcacheoff_spec [] tupdesc_two_int4 4096 KDS_FORMAT_ROW INT_MAX false Hwf)
    as [Hcut Hsame].
  split; [exact Hwf | split; [exact Hfit | split; [exact Hcut | exact (Hsame Hfit)]]].
Defined.

(** The cut shows on wide rows: of 520 [name] columns, the one at index
    511 starts at byte 32728 and has that offset, the next one starts at
    byte 32792 and has -32744. *)
Lemma wide_row_offsets_wrap :
  let colmeta :=
    kds_colmeta (init_kern_data_store [] tupdesc_520_names 65536 KDS_FORMAT_ROW INT_MAX false) in
  tupdesc_wf tupdesc_520_names /\
  map cm_attcacheoff (take 2 (drop 511 colmeta)) = [32728; -32744] /\
  take 2 (drop 511 (cached_offsets false tupdesc_520_names)) = [32728; 32792].
Proof.
  split; [| vm_compute; split; reflexivity].
  split; [vm_compute; lia |].
  unfold tupdesc_520_names. cbn [attrs].
  apply List.Forall_forall. intros attr Hin. apply in_map_iff in Hin as (i & <- & _).
  cbn. lia.
Qed.

(** C3 as the specification states it fails: a nullable [int4] column gets
    the offset 24 and the column after it 28, where the statement has -1
    for both. *)
Lemma nullable_column_counterexample :
  let kds := init_kern_data_store [] tupdesc_two_int4 4096 KDS_FORMAT_ROW INT_MAX false in
  map cm_attcacheoff (kds_colmeta kds) = [24; 28] /\
  stated_offsets false tupdesc_two_int4 = [-1; -1] /\
  map cm_attcacheoff (kds_colmeta kds) <> stated_offsets false tupdesc_two_int4.
Proof. vm_compute. repeat split; discriminate. Qed.

(** ** Creating a file-mapped chunk *)

(** C6 (the code departs from it): the file is created and truncated to
    the computed chunk length, 176 bytes here, and that length is recorded
    in the chunk header, but the length handed to [mmap] is read from the
    local [kds_length], which the function never assigns: the mapping has
    whatever length that variable holds. *)
Theorem create_data_store_row_mapping_length (kds_length_local : Z) :
  let out := pgstrom_create_data_store_row layout_x86_64 env_success
               kds_length_local tupdesc_two_int4 100 true in
  fst out
  = [SYS_OpenTransientFile (temp_filename env_success)
       [O_RDWR; O_CREAT; O_TRUNC; PG_BINARY] 384;
     SYS_ftruncate 3 176;
     SYS_mmap kds_length_local [PROT_READ; PROT_WRITE] [MAP_SHARED; MAP_POPULATE] 3 0;
     SYS_CloseTransientFile 3] /\
  mapped_length (fst out) = Some kds_length_local /\
  exists pds,
    snd out = Ok pds /\ pds_kds_length pds = 176 /\ kds_length (pds_kds pds) = 176.
Proof.
  cbv zeta. unfold pgstrom_create_data_store_row.
  change (KERN_DATA_STORE_HEAD_LENGTH layout_x86_64 (natts tupdesc_two_int4)) with 64.
  change (STROMALIGN layout_x86_64 100) with 112.
  change (wrap64 (64 + 112)) with 176.
  cbn [temp_filename open_result ftruncate_result mmap_succeeds env_success].
  change (3 <? 0) with false. change (negb (0 =? 0)) with false. cbn [negb].
  cbv iota. cbn [fst snd app].
  repeat split. eexists. repeat split.
Qed.

(** ** The parameter buffer *)

Lemma STROMALIGN_facts (L : layout) (len : Z) :
  layout_ok L -> 0 <= len < 2 ^ 40 ->
  len <= STROMALIGN L len < len + STROMALIGN_LEN L /\
  STROMALIGN L (STROMALIGN L len) = STROMALIGN L len.
Proof.
  intros ((k & Hk & Ha) & _) Hl. unfold STROMALIGN. rewrite Ha.
  assert (Hp : 0 < 2 ^ k <= 2 ^ 16).
  { split; [apply pow2_pos; lia | apply Z.pow_le_mono_r; lia]. }
  pose proof (TYPEALIGN_bounds k len ltac:(lia) ltac:(lia) ltac:(lia)) as Hb.
  split; [exact Hb |].
  apply TYPEALIGN_idem; try lia. apply TYPEALIGN_aligned; lia.
Qed.

Lemma parambuf_head_facts (L : layout) (nparams : Z) :
  layout_ok L -> 0 <= nparams < 2 ^ 20 ->
  offsetof_poffset L + sizeof_poffset L * nparams <= parambuf_head L nparams
    < offsetof_poffset L + sizeof_poffset L * nparams + STROMALIGN_LEN L /\
  STROMALIGN L (parambuf_head L nparams) = parambuf_head L nparams.
Proof.
  intros HL Hn. pose proof HL as ((k & Hk & Ha) & _ & _ & _ & _ & Hpo & Hps).
  assert (Hp : 0 < STROMALIGN_LEN L <= 2 ^ 16).
  { rewrite Ha. split; [apply pow2_pos; lia | apply Z.pow_le_mono_r; lia]. }
  unfold parambuf_head.
  assert (Hm : 0 <= sizeof_poffset L * nparams < 2 ^ 37) by nia.
  rewrite (wrap64_small (sizeof_poffset L * nparams)) by lia.
  rewrite wrap64_small by lia.
  destruct (STROMALIGN_facts L (offsetof_poffset L + sizeof_poffset L * nparams) HL
              ltac:(lia)) as [Hb Hi].
  split; [lia | exact Hi].
Qed.

Lemma align_and_advance_aligned (L : layout) (padding : list byte) (st : parambuf_state) :
  STROMALIGN L (str_len st) = str_len st ->
  align_and_advance L padding st = next_index st.
Proof.
  intros H. unfold align_and_advance. apply Z.eqb_eq in H. rewrite H. reflexivity.
Qed.

Lemma align_and_advance_spec (L : layout) (padding : list byte) (st : parambuf_state) :
  layout_ok L -> Z.of_nat (length padding) = STROMALIGN_LEN L -> str_len st < 2 ^ 40 ->
  let st' := align_and_advance L padding st in
  str_len st' = STROMALIGN L (str_len st) /\
  (exists pad, st_str st' = st_str st ++ pad) /\
  st_poffset st' = st_poffset st /\
  st_index st' = st_index st + 1 /\
  st_params st' = st_params st.
Proof.
  intros HL Hpad Hlen st'. unfold st', align_and_advance.
  assert (H0 : 0 <= str_len st) by (unfold str_len; lia).
  destruct (STROMALIGN_facts L (str_len st) HL ltac:(lia)) as [Hb _].
  destruct (STROMALIGN L (str_len st) =? str_len st) eqn:E.
  - apply Z.eqb_eq in E. cbn. repeat split; auto.
    exists []. rewrite app_nil_r. reflexivity.
  - cbn. repeat split; auto.
    + unfold str_len in *. cbn. rewrite length_app, length_take. lia.
    + eexists. reflexivity.
Qed.

(** C7: for a list of two constants, the first null and the second a
    4-byte integer passed by value, the buffer has two parameters, the
    offset 0 in the first slot and a non-zero offset in the second, the
    four bytes of the integer at that offset, and as its length the
    position behind these bytes rounded up to the alignment unit. *)
Theorem parambuf_null_and_int4 (L : layout) (get_typlen : Z -> Z)
    (padding : list byte) (econtext : ExprContext) (c0 : Const) (v : Z) :
  layout_ok L -> Z.of_nat (length padding) = STROMALIGN_LEN L ->
  constisnull c0 = true ->
  exists buf,
    pgstrom_create_kern_parambuf L get_typlen padding
      [T_Const c0; T_Const (int4_const v)] econtext = Ok buf /\
    kp_nparams buf = 2 /\
    rd 0 (kp_poffset buf) 0 = 0 /\
    rd 0 (kp_poffset buf) 1 <> 0 /\
    load_bytes (kp_data buf) (rd 0 (kp_poffset buf) 1) 4 = le_bytes 4 v /\
    kp_length buf = STROMALIGN L (rd 0 (kp_poffset buf) 1 + 4) /\
    kp_length buf = Z.of_nat (length (kp_data buf)).
Proof.
  intros HL Hpad Hnull.
  pose proof HL as (_ & _ & _ & _ & _ & Hpo & Hps).
  destruct (parambuf_head_facts L 2 HL ltac:(lia)) as [Hh Hha].
  assert (Hl16 : STROMALIGN_LEN L <= 2 ^ 16).
  { destruct HL as ((k & Hk & ->) & _). apply Z.pow_le_mono_r; lia. }
  unfold pgstrom_create_kern_parambuf.
  change (Z.of_nat (length [T_Const c0; T_Const (int4_const v)])) with 2.
  set (head := parambuf_head L 2) in *.
  assert (Hlen0 : Z.of_nat (length (repeat x00 (Z.to_nat head))) = head)
    by (rewrite repeat_length; lia).
  cbn [parambuf_loop bind parambuf_step]. rewrite Hnull.
  assert (Ha1 : STROMALIGN L (str_len (set_poffset (parambuf_init L econtext 2) 0))
               = str_len (set_poffset (parambuf_init L econtext 2) 0)).
  { unfold str_len, set_poffset, parambuf_init. cbn [st_str]. fold head.
    rewrite Hlen0. exact Hha. }
  rewrite (align_and_advance_aligned L padding _ Ha1).
  cbn [bind int4_const constisnull constlen constvalue].
  change (0 <? 4) with true. cbv iota.
  set (s2 := appendBinaryStringInfo _ _ _).
  assert (Hs2 : st_str s2 = repeat x00 (Z.to_nat head) ++ le_bytes 4 v).
  { unfold s2, appendBinaryStringInfo, set_poffset, next_index, parambuf_init, datum_bytes.
    cbn [st_str]. fold head. reflexivity. }
  assert (Hp2 : st_poffset s2 = [0; head]).
  { unfold s2, appendBinaryStringInfo, set_poffset, next_index, parambuf_init, str_len.
    cbn [st_str st_poffset st_index]. fold head. rewrite Hlen0.
    rewrite wrap32_small by lia. reflexivity. }
  assert (Hl2 : str_len s2 = head + 4).
  { unfold str_len. rewrite Hs2, length_app, length_le_bytes. lia. }
  destruct (align_and_advance_spec L padding s2 HL Hpad ltac:(lia))
    as (Hl3 & (pad & Hs3) & Hp3 & _ & _).
  set (s3 := align_and_advance L padding s2) in *.
  destruct (STROMALIGN_facts L (head + 4) HL ltac:(lia)) as [Hb4 _].
  eexists. split; [reflexivity |]. cbn [kp_nparams kp_poffset kp_data kp_length].
  rewrite Hp3, Hp2, Hl3, Hl2.
  change (rd 0 [0; head] 0) with 0. change (rd 0 [0; head] 1) with head.
  repeat split.
  - lia.
  - rewrite Hs3, Hs2. unfold load_bytes.
    rewrite <- app_assoc.
    rewrite drop_app_length' by (rewrite repeat_length; lia).
    rewrite <- (length_le_bytes 4 v) at 1. change (Z.to_nat 4) with 4%nat.
    rewrite <- (length_le_bytes 4 v) at 1. apply take_app_length.
  - apply wrap32_small. lia.
  - rewrite wrap32_small by lia. fold (str_len s3). rewrite Hl3, Hl2. reflexivity.
Qed.

Lemma parambuf_null_and_int4_witness :
  exists buf,
    pgstrom_create_kern_parambuf layout_x86_64 (fun _ => 4) (repeat xff 16)
      [T_Const null_const; T_Const (int4_const 258)]
      {| ecxt_param_list_info := None |} = Ok buf /\
    kp_nparams buf = 2 /\
    rd 0 (kp_poffset buf) 0 = 0 /\
    rd 0 (kp_poffset buf) 1 <> 0 /\
    load_bytes (kp_data buf) (rd 0 (kp_poffset buf) 1) 4 = le_bytes 4 258 /\
    kp_length buf = STROMALIGN layout_x86_64 (rd 0 (kp_poffset buf) 1 + 4) /\
    kp_length buf = Z.of_nat (length (kp_data buf)).
Proof.
  apply (parambuf_null_and_int4 layout_x86_64 (fun _ => 4) (repeat xff 16)
           {| ecxt_param_list_info := None |} null_const 258).
  - layout_evaluated.
  - reflexivity.
  - reflexivity.
Defined.

(** *** Parameters that cannot be resolved *)

Lemma step_unresolved (L : layout) (get_typlen : Z -> Z) (padding : list byte)
    (econtext : ExprContext) (st : parambuf_state) (param : Param) :
  param_resolvable econtext param = false ->
  parambuf_step L get_typlen padding econtext st (T_Param param)
  = Ok (align_and_advance L padding st).
Proof.
  unfold param_resolvable, parambuf_step.
  destruct (ecxt_param_list_info econtext) as [param_info |]; [| reflexivity].
  intros ->. reflexivity.
Qed.

(** A round writes no slot but the one of its index, and moves the index on
    by one. *)
Lemma step_shape (L : layout) (get_typlen : Z -> Z) (padding : list byte)
    (econtext : ExprContext) (st st' : parambuf_state) (node : Node) :
  parambuf_step L get_typlen padding econtext st node = Ok st' ->
  st_index st' = st_index st + 1 /\
  (st_poffset st' = st_poffset st \/
   exists v, st_poffset st' = wr (st_poffset st) (st_index st) v).
Proof.
  assert (Ha : forall s, st_index (align_and_advance L padding s) = st_index s + 1 /\
                         st_poffset (align_and_advance L padding s) = st_poffset s).
  { intros s. unfold align_and_advance. destruct (_ =? _); split; reflexivity. }
  unfold parambuf_step. destruct node as [con | param | tag]; [| | discriminate].
  - intros [= <-]. destruct (Ha
      (if constisnull con then set_poffset st 0
       else if 0 <? constlen con
            then appendBinaryStringInfo (set_poffset st (wrap32 (str_len st)))
                   (datum_bytes (constlen con) (constvalue con)) (constlen con)
            else appendBinaryStringInfo (set_poffset st (wrap32 (str_len st)))
                   (constdata con) (Z.of_nat (length (constdata con))))) as [Hi Hp].
    rewrite Hi, Hp.
    destruct (constisnull con); [| destruct (0 <? constlen con)]; cbn;
      (split; [reflexivity | right; eexists; reflexivity]).
  - destruct (ecxt_param_list_info econtext) as [param_info |].
    2:{ intros [= <-]. destruct (Ha st) as [Hi Hp]. rewrite Hi, Hp. auto. }
    destruct ((0 <? paramid param) && (paramid param <=? numParams param_info)).
    2:{ intros [= <-]. destruct (Ha st) as [Hi Hp]. rewrite Hi, Hp. auto. }
    set (s1 := match paramFetch param_info with
               | Some hook => _
               | None => st
               end).
    assert (Hs1 : st_index s1 = st_index st /\ st_poffset s1 = st_poffset st).
    { unfold s1. destruct (paramFetch param_info); [| auto].
      destruct (OidIsValid _); auto. }
    destruct Hs1 as [Hi1 Hp1].
    destruct (negb (OidIsValid _)).
    { intros [= <-]. cbn. rewrite Hi1, Hp1. split; [reflexivity | right; eexists; reflexivity]. }
    destruct (negb (_ =? paramtype param)); [discriminate |].
    destruct (prm_isnull _).
    { intros [= <-]. destruct (Ha (set_poffset s1 0)) as [Hi Hp]. rewrite Hi, Hp. cbn.
      rewrite Hi1, Hp1. split; [reflexivity | right; eexists; reflexivity]. }
    destruct (_ =? 0); [discriminate |].
    destruct (0 <? _); intros [= <-];
      match goal with
      | |- context [align_and_advance L padding ?s] =>
          destruct (Ha s) as [Hi Hp]; rewrite Hi, Hp; cbn; rewrite Hi1, Hp1; auto
      end.
Qed.

Lemma step_slots_clear (L : layout) (get_typlen : Z -> Z) (padding : list byte)
    (econtext : ExprContext) (st st' : parambuf_state) (node : Node) :
  parambuf_step L get_typlen padding econtext st node = Ok st' ->
  slots_clear st -> slots_clear st'.
Proof.
  intros Hstep Hc j Hj.
  destruct (step_shape L get_typlen padding econtext st st' node Hstep) as [Hi [Hp | [v Hp]]];
    rewrite Hp; [apply Hc; lia |].
  rewrite rd_wr_other by lia. apply Hc. lia.
Qed.

Lemma step_keeps_below (L : layout) (get_typlen : Z -> Z) (padding : list byte)
    (econtext : ExprContext) (st st' : parambuf_state) (node : Node) (j : Z) :
  parambuf_step L get_typlen padding econtext st node = Ok st' ->
  j < st_index st -> rd 0 (st_poffset st') j = rd 0 (st_poffset st) j.
Proof.
  intros Hstep Hj.
  destruct (step_shape L get_typlen padding econtext st st' node Hstep) as [Hi [Hp | [v Hp]]];
    rewrite Hp; [reflexivity |].
  apply rd_wr_other. lia.
Qed.

Lemma loop_keeps_below (L : layout) (get_typlen : Z -> Z) (padding : list byte)
    (econtext : ExprContext) (nodes : list Node) :
  forall st st' j,
    parambuf_loop L get_typlen padding econtext nodes st = Ok st' ->
    j < st_index st -> rd 0 (st_poffset st') j = rd 0 (st_poffset st) j.
Proof.
  induction nodes as [| node nodes IH]; intros st st' j Hloop Hj; cbn in Hloop.
  - injection Hloop as <-. reflexivity.
  - destruct (parambuf_step L get_typlen padding econtext st node) as [st1 |] eqn:E;
      [| discriminate].
    cbn in Hloop.
    destruct (step_shape _ _ _ _ _ _ _ E) as [Hi _].
    rewrite (IH st1 st' j Hloop) by lia.
    apply (step_keeps_below _ _ _ _ _ _ _ _ E Hj).
Qed.

Lemma loop_app (L : layout) (get_typlen : Z -> Z) (padding : list byte)
    (econtext : ExprContext) (l1 l2 : list Node) (st : parambuf_state) :
  parambuf_loop L get_typlen padding econtext (l1 ++ l2) st
  = bind (parambuf_loop L get_typlen padding econtext l1 st)
      (parambuf_loop L get_typlen padding econtext l2).
Proof.
  revert st. induction l1 as [| node l1 IH]; intros st; cbn; [reflexivity |].
  destruct (parambuf_step L get_typlen padding econtext st node); cbn; [apply IH | reflexivity].
Qed.

Lemma loop_reaches (L : layout) (get_typlen : Z -> Z) (padding : list byte)
    (econtext : ExprContext) (nodes : list Node) :
  forall st st',
    parambuf_loop L get_typlen padding econtext nodes st = Ok st' ->
    st_index st' = st_index st + Z.of_nat (length nodes) /\
    (slots_clear st -> slots_clear st').
Proof.
  induction nodes as [| node nodes IH]; intros st st' Hloop; cbn in Hloop.
  - injection Hloop as <-. cbn. split; [lia | auto].
  - destruct (parambuf_step L get_typlen padding econtext st node) as [st1 |] eqn:E;
      [| discriminate].
    cbn in Hloop. destruct (IH st1 st' Hloop) as [Hi Hc].
    destruct (step_shape _ _ _ _ _ _ _ E) as [Hi1 _].
    split; [rewrite Hi, Hi1, length_cons; lia |].
    intros Hc0. apply Hc. apply (step_slots_clear _ _ _ _ _ _ _ E Hc0).
Qed.

Lemma init_slots_clear (L : layout) (econtext : ExprContext) (nparams : Z) :
  slots_clear (parambuf_init L econtext nparams).
Proof.
  intros j _. unfold parambuf_init. cbn [st_poffset]. unfold rd.
  destruct (j <? 0); [reflexivity |].
  rewrite nth_repeat. reflexivity.
Qed.

Lemma set_poffset_clear (st : parambuf_state) :
  slots_clear st -> set_poffset st 0 = st.
Proof.
  intros Hc. unfold set_poffset.
  rewrite <- (Hc (st_index st)) at 1 by lia.
  rewrite wr_same_value. destruct st; reflexivity.
Qed.

(** C10: a [Param] node for which there is no parameter list, or whose
    [paramid] is outside [1 .. numParams], makes its round raise no error
    and write no slot; the call then returns what it returns for the list
    with a null constant in the place of that node, and in the buffer it
    returns the slot of the node holds 0. *)
Theorem unresolved_param_is_null (L : layout) (get_typlen : Z -> Z)
    (padding : list byte) (econtext : ExprContext) (pre post : list Node)
    (param : Param) :
  param_resolvable econtext param = false ->
  (forall st, exists st',
     parambuf_step L get_typlen padding econtext st (T_Param param) = Ok st' /\
     st_poffset st' = st_poffset st) /\
  pgstrom_create_kern_parambuf L get_typlen padding (pre ++ T_Param param :: post) econtext
  = pgstrom_create_kern_parambuf L get_typlen padding
      (pre ++ T_Const null_const :: post) econtext /\
  (forall buf,
     pgstrom_create_kern_parambuf L get_typlen padding (pre ++ T_Param param :: post)
       econtext = Ok buf ->
     rd 0 (kp_poffset buf) (Z.of_nat (length pre)) = 0).
Proof.
  intros Hun.
  assert (Hstep : forall st,
            parambuf_step L get_typlen padding econtext st (T_Param param)
            = Ok (align_and_advance L padding st))
    by (intros st; apply step_unresolved; exact Hun).
  split; [| split].
  - intros st. eexists. split; [apply Hstep |].
    unfold align_and_advance. destruct (_ =? _); reflexivity.
  - unfold pgstrom_create_kern_parambuf.
    rewrite !length_app. cbn [length].
    set (st0 := parambuf_init L econtext _).
    rewrite !loop_app.
    destruct (parambuf_loop L get_typlen padding econtext pre st0) as [st1 |] eqn:E;
      [| reflexivity].
    cbn [bind parambuf_loop].
    destruct (loop_reaches _ _ _ _ _ _ _ E) as [_ Hc].
    specialize (Hc (init_slots_clear L econtext _)).
    rewrite Hstep. cbn [parambuf_step null_const constisnull].
    rewrite (set_poffset_clear st1 Hc). reflexivity.
  - intros buf Hbuf. unfold pgstrom_create_kern_parambuf in Hbuf.
    set (st0 := parambuf_init L econtext _) in Hbuf.
    rewrite loop_app in Hbuf.
    destruct (parambuf_loop L get_typlen padding econtext pre st0) as [st1 |] eqn:E;
      [| discriminate].
    cbn [bind parambuf_loop] in Hbuf. rewrite Hstep in Hbuf. cbn [bind] in Hbuf.
    destruct (parambuf_loop L get_typlen padding econtext post _) as [st3 |] eqn:E3;
      [| discriminate].
    cbn [bind] in Hbuf. injection Hbuf as <-. cbn [kp_poffset].
    destruct (loop_reaches _ _ _ _ _ _ _ E) as [Hi1 Hc].
    specialize (Hc (init_slots_clear L econtext _)).
    assert (Hi0 : st_index st0 = 0) by reflexivity.
    rewrite (loop_keeps_below _ _ _ _ _ _ _ (Z.of_nat (length pre)) E3).
    + assert (Hp : st_poffset (align_and_advance L padding st1) = st_poffset st1)
        by (unfold align_and_advance; destruct (_ =? _); reflexivity).
      rewrite Hp. apply Hc. lia.
    + assert (Hix : st_index (align_and_advance L padding st1) = st_index st1 + 1)
        by (unfold align_and_advance; destruct (_ =? _); reflexivity).
      lia.
Qed.

Lemma unresolved_param_is_null_witness :
  let econtext := {| ecxt_param_list_info := None |} in
  let param := {| paramid := 1; paramtype := 23 |} in
  let create := pgstrom_create_kern_parambuf layout_x86_64 (fun _ => 4) (repeat xff 16) in
  (forall st, exists st',
     parambuf_step layout_x86_64 (fun _ => 4) (repeat xff 16) econtext st (T_Param param)
     = Ok st' /\
     st_poffset st' = st_poffset st) /\
  create ([T_Const (int4_const 7)] ++ T_Param param :: [T_Const (int4_const 9)]) econtext
  = create ([T_Const (int4_const 7)] ++ T_Const null_const :: [T_Const (int4_const 9)])
      econtext /\
  (forall buf,
     create ([T_Const (int4_const 7)] ++ T_Param param :: [T_Const (int4_const 9)]) econtext
     = Ok buf ->
     rd 0 (kp_poffset buf) (Z.of_nat (length [T_Const (int4_const 7)])) = 0).
Proof.
  apply (unresolved_param_is_null layout_x86_64 (fun _ => 4) (repeat xff 16)
           {| ecxt_param_list_info := None |}
           [T_Const (int4_const 7)] [T_Const (int4_const 9)]
           {| paramid := 1; paramtype := 23 |}).
  reflexivity.
Defined.

(** ** Rows of a chunk under further insertions *)

Lemma le_value_nonneg (bs : list byte) : 0 <= le_value bs.
Proof.
  induction bs as [| b bs IH]; cbn [le_value]; [lia |].
  unfold Z_of_byte. lia.
Qed.

(** A store does not reach the bytes below its offset, also when it runs
    over the end of the region. *)
Lemma load_store_below (mem : list byte) (off : Z) (bs : list byte) (off' len' : Z) :
  0 <= off' -> 0 <= len' -> off' + len' <= off ->
  load_bytes (store_bytes mem off bs) off' len' = load_bytes mem off' len'.
Proof.
  intros H0 Hl Hle. unfold store_bytes.
  destruct (off <? 0) eqn:E; [reflexivity |].
  unfold load_bytes. apply list_eq. intros i.
  rewrite !lookup_take.
  destruct (decide (i < Z.to_nat len')%nat) as [Hi | Hi]; [| reflexivity].
  rewrite !lookup_drop, lookup_take.
  destruct (decide (Z.to_nat off' + i < length mem)%nat) as [Hm | Hm].
  - rewrite lookup_app_l by (rewrite length_take; lia).
    rewrite lookup_take. rewrite decide_True by lia. reflexivity.
  - symmetry. apply lookup_ge_None. lia.
Qed.

Lemma load_store_tupitem_below (L : layout) (mem : list byte) (off : Z)
    (tuple : HeapTupleData) (off' len' : Z) :
  layout_ok L -> 0 <= off' -> 0 <= len' -> off' + len' <= off ->
  load_bytes (store_tupitem L mem off tuple) off' len' = load_bytes mem off' len'.
Proof.
  intros (_ & _ & _ & Hself & Hhtup & _) H0 Hl Hle. unfold store_tupitem, store_u32.
  rewrite !load_store_below by lia. reflexivity.
Qed.

Lemma load_store_tupitem_above (L : layout) (mem : list byte) (off : Z)
    (tuple : HeapTupleData) (off' len' : Z) :
  layout_ok L -> tuple_wf tuple -> 0 <= off ->
  off + offsetof_htup L + t_len tuple <= Z.of_nat (length mem) ->
  0 <= len' -> off + offsetof_htup L + t_len tuple <= off' ->
  load_bytes (store_tupitem L mem off tuple) off' len' = load_bytes mem off' len'.
Proof.
  intros (_ & _ & _ & Hself & Hhtup & _) (Htl & Hts & Htd) H0 Hin Hl Hge.
  unfold store_tupitem.
  set (m1 := store_u32 mem off (t_len tuple)).
  set (m2 := store_bytes m1 (off + offsetof_t_self L) (take 6 (t_self tuple))).
  assert (Hl1 : length m1 = length mem) by apply length_store_u32.
  assert (Hl2 : length m2 = length mem) by (unfold m2; rewrite length_store_bytes; exact Hl1).
  rewrite load_store_other by (rewrite ?length_take; lia).
  unfold m2. rewrite load_store_other by (rewrite ?length_take; lia).
  unfold m1, store_u32. apply load_store_other; rewrite ?length_le_bytes; lia.
Qed.

Lemma insert_tuple_nrooms (L : layout) (kds kds' : kern_data_store)
    (tuple : HeapTupleData) (ok : bool) :
  pgstrom_data_store_insert_tuple L kds tuple = Ok (ok, kds') ->
  kds_nrooms kds' = kds_nrooms kds /\ (ok = false -> kds' = kds).
Proof.
  unfold pgstrom_data_store_insert_tuple.
  destruct (kds_nrooms kds <=? kds_nitems kds); [intros [= <- <-]; auto |].
  destruct (kds_format kds); try discriminate.
  destruct (kds_length kds <? _); intros [= <- <-]; auto.
  split; [reflexivity | discriminate].
Qed.

(** What a successful insertion leaves: a chunk in order, with the new row
    at the index [nitems] had and the rows below it as they were. *)
Lemma insert_tuple_step (L : layout) (kds kds' : kern_data_store)
    (tuple : HeapTupleData) :
  layout_ok L -> chunk_inv L kds -> tuple_wf tuple ->
  pgstrom_data_store_insert_tuple L kds tuple = Ok (true, kds') ->
  chunk_inv L kds' /\
  kds_nitems kds' = kds_nitems kds + 1 /\
  kds_usage kds' = kds_usage kds + LONGALIGN (offsetof_htup L + t_len tuple) /\
  kern_fetch_data_store L kds' (kds_nitems kds) = Ok (Some (FetchedRow tuple)) /\
  (forall i, 0 <= i < kds_nitems kds ->
     kern_fetch_data_store L kds' i = kern_fetch_data_store L kds i).
Proof.
  intros HL (Hwf & Hspace & Hitems) Htw Hins.
  pose proof (insert_tuple_success L kds kds' tuple HL Hwf Htw Hins) as
    (Hfmt & Hroom & Hfit & Hsz & Hnc' & Hfmt' & Hni' & Hus' & Hlen' & Hmem').
  destruct (insert_tuple_nrooms L kds kds' tuple true Hins) as [Hnr' _].
  pose proof Hwf as (Hmem & Hlen & Hus & Hnc & Hni & Hnr).
  pose proof Htw as (Htl & Hts & Htd).
  pose proof HL as (_ & _ & _ & Hself & Hhtup & _).
  pose proof (head_length_range L (kds_ncols kds) HL Hnc) as Hh.
  unfold sizeof_uint in Hspace.
  set (head := KERN_DATA_STORE_HEAD_LENGTH L (kds_ncols kds)) in *.
  set (item_size := LONGALIGN (offsetof_htup L + t_len tuple)) in *.
  set (tup_item := kds_length kds - (kds_usage kds + item_size)) in *.
  set (m3 := store_tupitem L (kds_mem kds) tup_item tuple) in *.
  assert (Hl3 : length m3 = length (kds_mem kds)) by apply length_store_tupitem.
  destruct (load_store_tupitem L (kds_mem kds) tup_item tuple HL Htw ltac:(lia) ltac:(lia))
    as (Rlen & Rself & Rdata).
  fold m3 in Rlen, Rself, Rdata.
  (* the index entries below the new one *)
  assert (Rindex : forall i, 0 <= i < kds_nitems kds ->
            load_bytes (kds_mem kds') (head + 4 * i) 4
            = load_bytes (kds_mem kds) (head + 4 * i) 4).
  { intros i Hi. rewrite Hmem'. unfold store_u32.
    rewrite load_store_other by (rewrite ?length_le_bytes; lia).
    apply load_store_tupitem_below; [exact HL | lia | lia | lia]. }
  (* the bytes of the tail that was in use *)
  assert (Rtail : forall off' len', 0 <= len' ->
            kds_length kds - kds_usage kds <= off' ->
            load_bytes (kds_mem kds') off' len' = load_bytes (kds_mem kds) off' len').
  { intros off' len' Hl' Ho'. rewrite Hmem'. unfold store_u32.
    rewrite load_store_other by (rewrite ?length_le_bytes; lia).
    apply load_store_tupitem_above; [exact HL | exact Htw | lia | lia | lia | lia]. }
  (* the new entry and the new item *)
  assert (Hskip : forall off' len',
             0 <= len' -> head + 4 * kds_nitems kds + 4 <= off' ->
             load_bytes (kds_mem kds') off' len' = load_bytes m3 off' len').
  { intros off' len' Hl' Ho'. rewrite Hmem'. unfold store_u32.
    apply load_store_other; rewrite ?length_le_bytes; lia. }
  assert (Hnew : KERN_DATA_STORE_TUPITEM L kds' (kds_nitems kds) = tup_item).
  { unfold KERN_DATA_STORE_TUPITEM.
    rewrite rowindex_offset_value by (auto; rewrite ?Hnc'; lia).
    rewrite Hnc', Hmem'. fold head. unfold load_u32, store_u32.
    rewrite load_store_hit by (rewrite ?length_le_bytes; lia).
    apply le_value_u32. lia. }
  assert (Hold : forall i, 0 <= i < kds_nitems kds ->
            KERN_DATA_STORE_TUPITEM L kds' i = KERN_DATA_STORE_TUPITEM L kds i).
  { intros i Hi. unfold KERN_DATA_STORE_TUPITEM.
    rewrite !rowindex_offset_value by (auto; rewrite ?Hnc'; lia).
    rewrite Hnc'. fold head. unfold load_u32. rewrite Rindex by exact Hi. reflexivity. }
  split; [| split; [exact Hni' | split; [exact Hus' | split]]].
  - (* the invariant *)
    split; [| split].
    + unfold kds_wf. rewrite Hmem', Hlen', Hus', Hnc', Hni', Hnr'.
      rewrite length_store_u32, Hl3. repeat split; lia.
    + rewrite Hnc', Hni', Hus', Hlen'. fold head. unfold sizeof_uint. lia.
    + intros i Hi. rewrite Hni' in Hi. unfold item_in_tail.
      rewrite Hus', Hlen'.
      destruct (Z.eq_dec i (kds_nitems kds)) as [-> | Hne].
      * rewrite Hnew. unfold load_u32. rewrite (Hskip tup_item 4) by lia.
        fold (load_u32 m3 tup_item). rewrite Rlen. lia.
      * destruct (Hitems i ltac:(lia)) as [Ht1 Ht2].
        rewrite Hold by lia.
        set (off := KERN_DATA_STORE_TUPITEM L kds i) in *.
        unfold load_u32 in *. rewrite Rtail by lia. lia.
  - (* the new row *)
    unfold kern_fetch_data_store.
    assert (E : (kds_nitems kds' <=? kds_nitems kds) = false) by (apply Z.leb_gt; lia).
    rewrite E, Hfmt', Hnew. unfold load_u32 in *.
    rewrite (Hskip tup_item 4), Rlen by lia.
    rewrite (Hskip (tup_item + offsetof_t_self L) 6), Rself by lia.
    rewrite (Hskip (tup_item + offsetof_htup L) (t_len tuple)), Rdata by lia.
    destruct tuple; reflexivity.
  - (* the rows below it *)
    intros i Hi. unfold kern_fetch_data_store.
    assert (E : (kds_nitems kds' <=? i) = false) by (apply Z.leb_gt; lia).
    assert (E0 : (kds_nitems kds <=? i) = false) by (apply Z.leb_gt; lia).
    rewrite E, E0, Hfmt', Hfmt, Hold by exact Hi.
    destruct (Hitems i Hi) as [Ht1 Ht2].
    set (off := KERN_DATA_STORE_TUPITEM L kds i) in *.
    unfold load_u32 in *.
    pose proof (le_value_nonneg (load_bytes (kds_mem kds) off 4)) as Hnn.
    rewrite !Rtail by lia. reflexivity.
Qed.

Lemma insert_tuples_step (L : layout) (tuples : list HeapTupleData) :
  layout_ok L -> Forall tuple_wf tuples ->
  forall kds kds',
    chunk_inv L kds ->
    insert_tuples L kds tuples = Ok (true, kds') ->
    chunk_inv L kds' /\
    kds_nitems kds' = kds_nitems kds + Z.of_nat (length tuples) /\
    (forall i, 0 <= i < kds_nitems kds ->
       kern_fetch_data_store L kds' i = kern_fetch_data_store L kds i) /\
    (forall (k : nat) tuple, tuples !! k = Some tuple ->
       kern_fetch_data_store L kds' (kds_nitems kds + Z.of_nat k)
       = Ok (Some (FetchedRow tuple))).
Proof.
  intros HL Hall. induction Hall as [| tuple tuples Htw Hall IH]; intros kds kds' Hinv Hrun.
  - cbn in Hrun. injection Hrun as <-. cbn [length].
    split; [exact Hinv | split; [lia | split; [auto |]]].
    intros k tuple Hk. discriminate Hk.
  - cbn [insert_tuples] in Hrun.
    destruct (pgstrom_data_store_insert_tuple L kds tuple) as [[ok kds1] | e] eqn:E;
      [| discriminate].
    cbn [bind fst snd] in Hrun. destruct ok; [| discriminate].
    destruct (insert_tuple_step L kds kds1 tuple HL Hinv Htw E)
      as (Hinv1 & Hn1 & _ & Hnew & Hold).
    destruct (IH kds1 kds' Hinv1 Hrun) as (Hinv' & Hn' & Hold' & Hnew').
    destruct Hinv as ((_ & _ & _ & _ & Hni & _) & _).
    split; [exact Hinv' | split; [| split]].
    + rewrite Hn', Hn1, length_cons. lia.
    + intros i Hi. rewrite Hold' by lia. apply Hold. exact Hi.
    + intros [| k] tuple' Hk.
      * injection Hk as <-. rewrite Z.add_0_r, Hold' by lia. exact Hnew.
      * cbn in Hk. specialize (Hnew' k tuple' Hk). rewrite Hn1 in Hnew'.
        rewrite <- Hnew'. f_equal. lia.
Qed.

(** X1: [pgstrom_data_store_insert_tuple] keeps a row chunk in order.  On
    a chunk whose row index and used tail do not meet and whose items all
    lie in the tail, a call that returns leaves such a chunk again; when it
    returns false the chunk is the one it was given, and when it returns
    true the item count has grown by one and the used tail by the item
    header plus the row, rounded to 8 bytes. *)
Theorem insert_tuple_keeps_chunk_invariant (L : layout) (kds kds' : kern_data_store)
    (tuple : HeapTupleData) (ok : bool) :
  layout_ok L -> chunk_inv L kds -> tuple_wf tuple ->
  pgstrom_data_store_insert_tuple L kds tuple = Ok (ok, kds') ->
  chunk_inv L kds' /\
  (ok = false -> kds' = kds) /\
  (ok = true ->
     kds_nitems kds' = kds_nitems kds + 1 /\
     kds_usage kds' = kds_usage kds + LONGALIGN (offsetof_htup L + t_len tuple)).
Proof.
  intros HL Hinv Htw Hins. destruct ok.
  - destruct (insert_tuple_step L kds kds' tuple HL Hinv Htw Hins) as (H1 & H2 & H3 & _).
    split; [exact H1 | split; [discriminate | auto]].
  - destruct (insert_tuple_nrooms L kds kds' tuple false Hins) as [_ Heq].
    rewrite (Heq eq_refl). split; [exact Hinv | split; [reflexivity | discriminate]].
Qed.

Lemma insert_tuple_keeps_chunk_invariant_witness :
  exists kds',
    pgstrom_data_store_insert_tuple layout_x86_64 (chunk_empty KDS_FORMAT_ROW) tuple_3bytes
    = Ok (true, kds') /\
    chunk_inv layout_x86_64 kds' /\
    (true = false -> kds' = chunk_empty KDS_FORMAT_ROW) /\
    (true = true ->
       kds_nitems kds' = kds_nitems (chunk_empty KDS_FORMAT_ROW) + 1 /\
       kds_usage kds' = kds_usage (chunk_empty KDS_FORMAT_ROW)
                        + LONGALIGN (offsetof_htup layout_x86_64 + t_len tuple_3bytes)).
Proof.
  eexists. split; [reflexivity |].
  apply (insert_tuple_keeps_chunk_invariant layout_x86_64 (chunk_empty KDS_FORMAT_ROW) _
           tuple_3bytes true).
  - layout_evaluated.
  - split; [evaluated | split; [vm_compute; congruence |]].
    intros i Hi. cbn in Hi. lia.
  - evaluated.
  - reflexivity.
Defined.

(** X2: a further insertion does not disturb the rows a chunk holds.
    After a call of [pgstrom_data_store_insert_tuple] that returns, true or
    false, [kern_fetch_data_store] yields for every index below the former
    item count what it yielded before the call. *)
Theorem insert_tuple_keeps_earlier_rows (L : layout) (kds kds' : kern_data_store)
    (tuple : HeapTupleData) (ok : bool) (i : Z) :
  layout_ok L -> chunk_inv L kds -> tuple_wf tuple ->
  pgstrom_data_store_insert_tuple L kds tuple = Ok (ok, kds') ->
  0 <= i < kds_nitems kds ->
  kern_fetch_data_store L kds' i = kern_fetch_data_store L kds i.
Proof.
  intros HL Hinv Htw Hins Hi. destruct ok.
  - destruct (insert_tuple_step L kds kds' tuple HL Hinv Htw Hins) as (_ & _ & _ & _ & H).
    apply H. exact Hi.
  - destruct (insert_tuple_nrooms L kds kds' tuple false Hins) as [_ Heq].
    rewrite (Heq eq_refl). reflexivity.
Qed.

(** X3: rows come back in the order they went in.  When every tuple of a
    list has been accepted by [pgstrom_data_store_insert_tuple], called for
    one after the other on a chunk in order with [n] items, the chunk has
    [n] plus the length of the list items, [kern_fetch_data_store] at
    [n + k] yields the [k]-th tuple of the list with its length, identity
    and bytes, at an index below [n] what it yielded before, and at the
    new item count nothing. *)
Theorem insert_tuples_fetch_each (L : layout) (kds kds' : kern_data_store)
    (tuples : list HeapTupleData) :
  layout_ok L -> chunk_inv L kds -> Forall tuple_wf tuples ->
  insert_tuples L kds tuples = Ok (true, kds') ->
  kds_nitems kds' = kds_nitems kds + Z.of_nat (length tuples) /\
  (forall (k : nat) tuple, tuples !! k = Some tuple ->
     kern_fetch_data_store L kds' (kds_nitems kds + Z.of_nat k)
     = Ok (Some (FetchedRow tuple))) /\
  (forall i, 0 <= i < kds_nitems kds ->
     kern_fetch_data_store L kds' i = kern_fetch_data_store L kds i) /\
  kern_fetch_data_store L kds' (kds_nitems kds') = Ok None.
Proof.
  intros HL Hinv Hall Hrun.
  destruct (insert_tuples_step L tuples HL Hall kds kds' Hinv Hrun)
    as (_ & Hn & Hold & Hnew).
  repeat split; auto.
  unfold kern_fetch_data_store. rewrite Z.leb_refl. reflexivity.
Qed.

Lemma insert_tuple_keeps_earlier_rows_witness :
  exists kds',
    pgstrom_data_store_insert_tuple layout_x86_64 chunk_one_row tuple_5bytes
    = Ok (true, kds') /\
    kern_fetch_data_store layout_x86_64 kds' 0
    = kern_fetch_data_store layout_x86_64 chunk_one_row 0.
Proof.
  eexists. split; [reflexivity |].
  apply (insert_tuple_keeps_earlier_rows layout_x86_64 chunk_one_row _ tuple_5bytes true 0).
  - layout_evaluated.
  - split; [evaluated | split; [vm_compute; congruence |]].
    intros i Hi. assert (i = 0) as -> by (cbn in Hi; lia). evaluated.
  - evaluated.
  - reflexivity.
  - cbn. lia.
Defined.

Lemma insert_tuples_fetch_each_witness :
  exists kds',
    insert_tuples layout_x86_64 (chunk_empty KDS_FORMAT_ROW) [tuple_3bytes; tuple_5bytes]
    = Ok (true, kds') /\
    kds_nitems kds' = 0 + 2 /\
    (forall (k : nat) tuple, [tuple_3bytes; tuple_5bytes] !! k = Some tuple ->
       kern_fetch_data_store layout_x86_64 kds' (0 + Z.of_nat k)
       = Ok (Some (FetchedRow tuple))) /\
    (forall i, 0 <= i < 0 ->
       kern_fetch_data_store layout_x86_64 kds' i
       = kern_fetch_data_store layout_x86_64 (chunk_empty KDS_FORMAT_ROW) i) /\
    kern_fetch_data_store layout_x86_64 kds' (kds_nitems kds') = Ok None.
Proof.
  eexists. split; [reflexivity |].
  apply (insert_tuples_fetch_each layout_x86_64 (chunk_empty KDS_FORMAT_ROW) _
           [tuple_3bytes; tuple_5bytes]).
  - layout_evaluated.
  - split; [evaluated | split; [vm_compute; congruence |]].
    intros i Hi. cbn in Hi. lia.
  - repeat constructor; vm_compute; congruence.
  - reflexivity.
Defined.
(** ** Loading a page into a chunk *)

Lemma insert_block_line_eq (L : layout) (kds : kern_data_store) (blknum : Z)
    (all_visible : bool) (tup_index usage ntup : Z) (mem : list byte)
    (lineoff : Z) (lpp : ItemIdData) :
  insert_block_line L kds blknum all_visible tup_index (usage, ntup, mem) (lineoff, lpp)
  = if line_stored all_visible lpp
    then
      let usage' := wrap32 (usage + LONGALIGN (lp_len lpp)) in
      let tup_item := wrap64 (kds_length kds - usage') in
      (usage', ntup + 1,
       store_tupitem L
         (store_u32 mem (wrap64 (tup_index + wrap64 (sizeof_uint * ntup))) (wrap32 tup_item))
         tup_item
         {| t_len := lp_len lpp; t_self := ItemPointerSet blknum lineoff;
            t_data := lp_item lpp |})
    else (usage, ntup, mem).
Proof.
  unfold insert_block_line, line_stored.
  destruct (lp_normal lpp), all_visible, (lp_visible lpp); reflexivity.
Qed.

Lemma wrap32_idem (x : Z) : wrap32 (wrap32 x) = wrap32 x.
Proof. unfold wrap32. apply Z.mod_mod. lia. Qed.

Lemma wrap32_add_l (x y : Z) : wrap32 (wrap32 x + y) = wrap32 (x + y).
Proof. unfold wrap32. apply Z.add_mod_idemp_l. lia. Qed.

(** The counters of the scan loop. *)
Lemma insert_block_counters (L : layout) (kds : kern_data_store) (blknum : Z)
    (all_visible : bool) (tup_index : Z) (lines : list ItemIdData) :
  forall s usage ntup mem,
    let stored := List.filter (line_stored all_visible) lines in
    let out := fold_left (insert_block_line L kds blknum all_visible tup_index)
                 (combine (map Z.of_nat (seq s (length lines))) lines)
                 (usage, ntup, mem) in
    wrap32 (fst (fst out)) = wrap32 (usage + lines_usage stored) /\
    (wrap32 usage = usage -> wrap32 (fst (fst out)) = fst (fst out)) /\
    snd (fst out) = ntup + Z.of_nat (length stored).
Proof.
  induction lines as [| lpp lines IH]; intros s usage ntup mem.
  - cbn. rewrite !Z.add_0_r. auto.
  - cbn [length seq map combine fold_left List.filter].
    rewrite insert_block_line_eq.
    destruct (line_stored all_visible lpp).
    + cbv zeta.
      match goal with
      | |- context [fold_left _ _ (?u, ?n, ?m)] =>
          destruct (IH (Datatypes.S s) u n m) as (Hu & Hw & Hn)
      end.
      cbv zeta in Hu, Hw, Hn.
      split; [| split].
      * rewrite Hu. cbn [lines_usage fold_right].
        fold (lines_usage (List.filter (line_stored all_visible) lines)).
        rewrite wrap32_add_l. f_equal. lia.
      * intros _. apply Hw. apply wrap32_idem.
      * rewrite Hn. cbn [length]. lia.
    + apply IH.
Qed.

Lemma lines_usage_nonneg (lines : list ItemIdData) : 0 <= lines_usage lines.
Proof.
  induction lines as [| lpp lines IH]; cbn; [lia |].
  fold (lines_usage lines).
  assert (0 <= LONGALIGN (lp_len lpp)); [| lia].
  unfold LONGALIGN, TYPEALIGN, wrap64. apply Z.mod_pos_bound. lia.
Qed.

Lemma filter_length_le {A} (f : A -> bool) (l : list A) :
  (length (List.filter f l) <= length l)%nat.
Proof.
  induction l as [| x l IH]; cbn; [lia |]. destruct (f x); cbn; lia.
Qed.

(** X4: the count [pgstrom_data_store_insert_block] returns.  When the
    pre-check lets the page in, the call returns the number of line
    pointers that are normal and whose tuple is visible; on a page marked
    all-visible under a snapshot not taken during recovery the visibility
    of a tuple is not asked and every normal line counts.  The count lies
    between 0 and the number of lines, the item count of the chunk has
    grown by it and the used tail by the row lengths of the stored lines,
    each rounded to 8 bytes. *)
Theorem insert_block_count (L : layout) (kds : kern_data_store) (page : Page)
    (blknum : Z) (snapshot : SnapshotData) :
  kds_wf kds ->
  insert_block_max_consume L kds (PageGetMaxOffsetNumber page) <= kds_length kds ->
  let all_visible := pd_all_visible page && negb (takenDuringRecovery snapshot) in
  let stored := List.filter (line_stored all_visible) (pd_linp page) in
  let out := pgstrom_data_store_insert_block L kds page blknum snapshot in
  fst out = Z.of_nat (length stored) /\
  0 <= fst out <= PageGetMaxOffsetNumber page /\
  kds_nitems (snd out) = wrap32 (kds_nitems kds + Z.of_nat (length stored)) /\
  kds_usage (snd out) = wrap32 (kds_usage kds + lines_usage stored) /\
  kds_length (snd out) = kds_length kds /\
  kds_format (snd out) = kds_format kds.
Proof.
  intros (_ & _ & Hus & _) Hfit all_visible stored out.
  unfold out, pgstrom_data_store_insert_block.
  apply Z.ltb_ge in Hfit. rewrite Hfit.
  fold all_visible.
  pose proof (insert_block_counters L kds blknum all_visible
                (rowindex_offset L kds (kds_nitems kds)) (pd_linp page) 1%nat
                (kds_usage kds) 0 (kds_mem kds)) as H.
  cbv zeta in H. fold stored in H.
  destruct (fold_left _ _ _) as [[usage ntup] mem].
  cbn [fst snd] in H |- *. destruct H as (Hu & Hw & Hn).
  pose proof (filter_length_le (line_stored all_visible) (pd_linp page)) as Hle.
  fold stored in Hle. unfold PageGetMaxOffsetNumber.
  rewrite Hn, <- Hu, Hw by (apply wrap32_small; lia).
  repeat split; lia.
Qed.

Lemma insert_block_count_witness :
  let kds := chunk_of_length 16384 in
  let stored := List.filter (line_stored (true && negb false)) (pd_linp page_two_lines) in
  let out := pgstrom_data_store_insert_block layout_x86_64 kds page_two_lines 7
               {| takenDuringRecovery := false |} in
  fst out = Z.of_nat (length stored) /\
  0 <= fst out <= PageGetMaxOffsetNumber page_two_lines /\
  kds_nitems (snd out) = wrap32 (kds_nitems kds + Z.of_nat (length stored)) /\
  kds_usage (snd out) = wrap32 (kds_usage kds + lines_usage stored) /\
  kds_length (snd out) = kds_length kds /\
  kds_format (snd out) = kds_format kds.
Proof.
  apply (insert_block_count layout_x86_64 (chunk_of_length 16384) page_two_lines 7
           {| takenDuringRecovery := false |}).
  - evaluated.
  - vm_compute. congruence.
Defined.

Lemma lines_usage_filter_le (f : ItemIdData -> bool) (lines : list ItemIdData) :
  lines_usage (List.filter f lines) <= lines_usage lines.
Proof.
  induction lines as [| lpp lines IH]; cbn; [lia |].
  fold (lines_usage lines).
  assert (0 <= LONGALIGN (lp_len lpp)).
  { unfold LONGALIGN, TYPEALIGN, wrap64. apply Z.mod_pos_bound. lia. }
  destruct (f lpp); cbn; fold (lines_usage (List.filter f lines)); lia.
Qed.

Lemma lines_usage_take_S (lines : list ItemIdData) :
  forall (k : nat) lpp,
    lines !! k = Some lpp ->
    lines_usage (take (Datatypes.S k) lines)
    = lines_usage (take k lines) + LONGALIGN (lp_len lpp).
Proof.
  induction lines as [| x lines IH]; intros k lpp Hk; [discriminate |].
  destruct k as [| k].
  - injection Hk as ->. cbn. rewrite take_0. cbn. lia.
  - cbn in Hk. change (take (Datatypes.S (Datatypes.S k)) (x :: lines))
      with (x :: take (Datatypes.S k) lines).
    change (take (Datatypes.S k) (x :: lines)) with (x :: take k lines).
    cbn [lines_usage fold_right].
    fold (lines_usage (take (Datatypes.S k) lines)). fold (lines_usage (take k lines)).
    rewrite (IH k lpp Hk). lia.
Qed.

Lemma Forall_filter_keep {A} (P : A -> Prop) (f : A -> bool) (l : list A) :
  Forall P l -> Forall P (List.filter f l).
Proof.
  induction 1 as [| x l Hx Hl IH]; cbn; [constructor |].
  destruct (f x); [constructor |]; assumption.
Qed.

(** The row index while the scan loop runs: the entries written so far
    stay, and the entry of the [k]-th line stored from here on holds the
    offset the used tail has reached with that line. *)
Lemma insert_block_entries (L : layout) (kds : kern_data_store) (blknum : Z)
    (all_visible : bool) (tup_index : Z) (lines : list ItemIdData) :
  layout_ok L -> 0 <= tup_index -> kds_length kds < 2 ^ 32 ->
  forall s usage ntup mem,
    let stored := List.filter (line_stored all_visible) lines in
    let out := fold_left (insert_block_line L kds blknum all_visible tup_index)
                 (combine (map Z.of_nat (seq s (length lines))) lines)
                 (usage, ntup, mem) in
    Forall (fun lpp => 0 <= lp_len lpp <= BLCKSZ) lines ->
    Z.of_nat (length mem) = kds_length kds -> 0 <= usage -> 0 <= ntup ->
    tup_index + 4 * (ntup + Z.of_nat (length stored)) + usage + lines_usage stored
      <= kds_length kds ->
    (forall j, 0 <= j < ntup ->
       load_u32 (snd out) (tup_index + 4 * j) = load_u32 mem (tup_index + 4 * j)) /\
    (forall (k : nat) lpp, stored !! k = Some lpp ->
       load_u32 (snd out) (tup_index + 4 * (ntup + Z.of_nat k))
       = kds_length kds - (usage + lines_usage (take (Datatypes.S k) stored))).
Proof.
  intros HL Hti Hlen.
  induction lines as [| lpp lines IH]; intros s usage ntup mem stored out Hall Hmem Hus Hnt Hfit.
  - cbn. split; [reflexivity |]. intros k lpp Hk. discriminate Hk.
  - apply Forall_cons in Hall as [Hlpp Hall].
    unfold out, stored. cbn [length seq map combine fold_left List.filter].
    rewrite insert_block_line_eq.
    unfold stored in Hfit. cbn [List.filter] in Hfit.
    destruct (line_stored all_visible lpp) eqn:Est.
    + cbn [length lines_usage fold_right] in Hfit.
      fold (lines_usage (List.filter (line_stored all_visible) lines)) in Hfit.
      set (rest := List.filter (line_stored all_visible) lines) in *.
      pose proof (lines_usage_nonneg rest) as Hrest.
      pose proof (LONGALIGN_bounds (lp_len lpp) ltac:(unfold BLCKSZ in Hlpp; lia)) as Hla.
      cbv zeta.
      rewrite (wrap32_small (usage + LONGALIGN (lp_len lpp))) by lia.
      set (usage1 := usage + LONGALIGN (lp_len lpp)).
      rewrite (wrap64_small (kds_length kds - usage1)) by (unfold usage1; lia).
      rewrite (wrap32_small (kds_length kds - usage1)) by (unfold usage1; lia).
      unfold sizeof_uint.
      rewrite (wrap64_small (4 * ntup)) by lia.
      rewrite (wrap64_small (tup_index + 4 * ntup)) by lia.
      set (m1 := store_u32 mem (tup_index + 4 * ntup) (kds_length kds - usage1)).
      set (mem1 := store_tupitem L m1 (kds_length kds - usage1) _).
      assert (Hl1 : length m1 = length mem) by apply length_store_u32.
      assert (Hlm : Z.of_nat (length mem1) = kds_length kds).
      { unfold mem1. rewrite length_store_tupitem, Hl1. exact Hmem. }
      destruct (IH (Datatypes.S s) usage1 (ntup + 1) mem1 Hall Hlm
                  ltac:(unfold usage1; lia) ltac:(lia)) as [Hold Hnew].
      { fold rest. unfold usage1. lia. }
      fold rest in Hnew.
      assert (Hbelow : forall j, 0 <= j <= ntup ->
                load_u32 mem1 (tup_index + 4 * j) = load_u32 m1 (tup_index + 4 * j)).
      { intros j Hj. unfold load_u32, mem1. f_equal.
        apply load_store_tupitem_below; [exact HL | lia | lia |]. unfold usage1. lia. }
      split.
      * intros j Hj. rewrite Hold by lia. rewrite Hbelow by lia.
        unfold load_u32, m1, store_u32. f_equal.
        apply load_store_other; rewrite ?length_le_bytes; lia.
      * intros [| k] lpp' Hk.
        -- injection Hk as <-. rewrite Z.add_0_r, Hold by lia. rewrite Hbelow by lia.
           unfold load_u32, m1, store_u32.
           rewrite load_store_hit by (rewrite ?length_le_bytes; lia).
           rewrite le_value_u32 by (unfold usage1; lia).
           change (take 1 (lpp :: rest)) with [lpp].
           cbn [lines_usage fold_right]. unfold usage1. lia.
        -- cbn in Hk. specialize (Hnew k lpp' Hk).
           replace (ntup + Z.of_nat (Datatypes.S k)) with (ntup + 1 + Z.of_nat k) by lia.
           rewrite Hnew.
           change (take (Datatypes.S (Datatypes.S k)) (lpp :: rest))
             with (lpp :: take (Datatypes.S k) rest).
           cbn [lines_usage fold_right].
           fold (lines_usage (take (Datatypes.S k) rest)). unfold usage1. lia.
    + apply (IH (Datatypes.S s) usage ntup mem Hall Hmem Hus Hnt Hfit).
Qed.

(** X5: where [pgstrom_data_store_insert_block] puts the items.  On a
    page whose tuples fit into a block, the index entry of the [k]-th
    stored line holds the chunk length minus the former used tail and the
    row lengths, each rounded to 8 bytes, of the lines stored up to it:
    the tail grows by the rounded row length only.  The item written there
    is the item header and the row, so it ends behind the place where the
    item before it starts or, for the first line stored into an empty
    chunk, behind the end of the chunk. *)
Theorem insert_block_items_overlap (L : layout) (kds : kern_data_store) (page : Page)
    (blknum : Z) (snapshot : SnapshotData) (k : nat) (lpp : ItemIdData) :
  layout_ok L -> kds_wf kds -> page_wf page ->
  kds_nitems kds + PageGetMaxOffsetNumber page < 2 ^ 32 ->
  worst_case_estimate L kds (PageGetMaxOffsetNumber page) <= kds_length kds ->
  let all_visible := pd_all_visible page && negb (takenDuringRecovery snapshot) in
  let stored := List.filter (line_stored all_visible) (pd_linp page) in
  let kds' := snd (pgstrom_data_store_insert_block L kds page blknum snapshot) in
  let tup_item := KERN_DATA_STORE_TUPITEM L kds' (kds_nitems kds + Z.of_nat k) in
  stored !! k = Some lpp ->
  tup_item = kds_length kds - (kds_usage kds + lines_usage (take (Datatypes.S k) stored)) /\
  kds_length kds - (kds_usage kds + lines_usage (take k stored))
    < tup_item + offsetof_htup L + lp_len lpp.
Proof.
  intros HL Hwf (Hall & Hpage) Hsum Hfit all_visible stored kds' tup_item Hk.
  pose proof Hwf as (Hmem & Hlen & Hus & Hnc & Hni & Hnr).
  pose proof HL as (_ & _ & _ & Hself & Hhtup & _).
  pose proof (head_length_range L (kds_ncols kds) HL Hnc) as Hh.
  assert (Hlines : 0 <= PageGetMaxOffsetNumber page)
    by (unfold PageGetMaxOffsetNumber; lia).
  rewrite <- insert_block_max_consume_value in Hfit by assumption.
  assert (Hfit' := Hfit).
  rewrite insert_block_max_consume_value in Hfit' by assumption.
  unfold worst_case_estimate, sizeof_uint, BLCKSZ in Hfit'.
  pose proof (filter_length_le (line_stored all_visible) (pd_linp page)) as Hcount.
  pose proof (lines_usage_filter_le (line_stored all_visible) (pd_linp page)) as Hsumle.
  fold stored in Hcount, Hsumle. unfold BLCKSZ in Hpage.
  unfold PageGetMaxOffsetNumber in *.
  assert (Hkl : (k < length stored)%nat) by (apply lookup_lt_is_Some; eauto).
  assert (Hmul : 0 <= offsetof_htup L * Z.of_nat (length (pd_linp page))) by nia.
  assert (Hlpp : 0 <= lp_len lpp <= BLCKSZ).
  { assert (Hf : Forall (fun lpp => 0 <= lp_len lpp <= BLCKSZ) stored)
      by (apply Forall_filter_keep; exact Hall).
    rewrite Forall_lookup in Hf. apply (Hf k lpp Hk). }
  pose proof (LONGALIGN_bounds (lp_len lpp) ltac:(unfold BLCKSZ in Hlpp; lia)) as Hla.
  assert (Hpos : tup_item
                 = kds_length kds
                   - (kds_usage kds + lines_usage (take (Datatypes.S k) stored))).
  { unfold tup_item, kds', pgstrom_data_store_insert_block.
    apply Z.ltb_ge in Hfit. unfold PageGetMaxOffsetNumber. rewrite Hfit.
    fold all_visible.
    pose proof (insert_block_entries L kds blknum all_visible
                  (rowindex_offset L kds (kds_nitems kds)) (pd_linp page) HL) as H.
    rewrite rowindex_offset_value in * by (auto; lia).
    specialize (H ltac:(lia) Hlen 1%nat (kds_usage kds) 0 (kds_mem kds)).
    cbv zeta in H. fold stored in H.
    destruct (fold_left _ _ _) as [[usage ntup] mem].
    cbn [fst snd] in H |- *.
    destruct (H Hall Hmem ltac:(lia) ltac:(lia) ltac:(lia)) as [_ Hnew].
    unfold KERN_DATA_STORE_TUPITEM. cbn [kds_mem kds_ncols].
    rewrite rowindex_offset_value by (cbn [kds_ncols]; auto; lia).
    cbn [kds_ncols]. specialize (Hnew k lpp Hk).
    rewrite <- Hnew. f_equal. lia. }
  split; [exact Hpos |].
  rewrite Hpos, (lines_usage_take_S stored k lpp Hk). lia.
Qed.

Lemma insert_block_items_overlap_witness :
  let kds := chunk_of_length 16384 in
  let lpp := {| lp_normal := true; lp_len := 9;
                lp_item := [x01; x02; x03; x04; x05; x06; x07; x08; x09];
                lp_visible := false |} in
  let stored := List.filter (line_stored (true && negb false)) (pd_linp page_two_lines) in
  let kds' := snd (pgstrom_data_store_insert_block layout_x86_64 kds page_two_lines 7
                     {| takenDuringRecovery := false |}) in
  let tup_item := KERN_DATA_STORE_TUPITEM layout_x86_64 kds' (kds_nitems kds + Z.of_nat 1) in
  tup_item = kds_length kds - (kds_usage kds + lines_usage (take 2 stored)) /\
  kds_length kds - (kds_usage kds + lines_usage (take 1 stored))
    < tup_item + offsetof_htup layout_x86_64 + lp_len lpp.
Proof.
  intros kds lpp.
  apply (insert_block_items_overlap layout_x86_64 kds page_two_lines 7
           {| takenDuringRecovery := false |} 1 lpp).
  - layout_evaluated.
  - evaluated.
  - split; [repeat constructor; vm_compute; congruence | vm_compute; congruence].
  - vm_compute. reflexivity.
  - vm_compute. congruence.
  - reflexivity.
Defined.
(** ** Cached offsets: alignment and order *)

(** A known offset is the running offset or more, a multiple of the
    alignment of its column, and that of a column of fixed width. *)
Lemma offsets_by_known (internal_format : bool) (cols : list Form_pg_attribute) :
  forall running (i : nat) attr o,
    cols !! i = Some attr ->
    offsets_by (variable_width internal_format) internal_format running cols !! i = Some o ->
    0 <= o ->
    exists r, running = Some r /\ r <= o /\
              o mod column_alignment internal_format attr = 0 /\
              0 < column_length internal_format attr.
Proof.
  induction cols as [| c cols IH]; intros running i attr o Hc Ho Hk; [discriminate |].
  cbn [offsets_by] in Ho.
  destruct running as [r |].
  2:{ destruct i as [| i]; [cbn in Ho; injection Ho as <-; lia |].
      cbn in Hc, Ho. destruct (IH None i attr o Hc Ho Hk) as (r & Hr & _). discriminate. }
  destruct (variable_width internal_format c) eqn:Ev.
  { destruct i as [| i]; [cbn in Ho; injection Ho as <-; lia |].
    cbn in Hc, Ho. destruct (IH None i attr o Hc Ho Hk) as (r' & Hr & _). discriminate. }
  unfold variable_width in Ev. apply Z.leb_gt in Ev.
  destruct (round_up_facts r (column_alignment internal_format c)
              (column_alignment_pos internal_format c)) as [Hle Hmod].
  destruct i as [| i].
  - cbn in Hc, Ho. injection Hc as <-. injection Ho as <-.
    exists r. auto.
  - cbn in Hc, Ho. destruct (IH _ i attr o Hc Ho Hk) as (r' & Hr & Hro & Hm & Hl).
    injection Hr as <-. exists r. repeat split; auto. lia.
Qed.

Lemma offsets_by_ordered (internal_format : bool) (cols : list Form_pg_attribute) :
  forall running (i j : nat) attr oi oj,
    (i < j)%nat ->
    cols !! i = Some attr ->
    offsets_by (variable_width internal_format) internal_format running cols !! i = Some oi ->
    offsets_by (variable_width internal_format) internal_format running cols !! j = Some oj ->
    0 <= oj ->
    exists r, running = Some r /\ r <= oi /\
              oi + column_length internal_format attr <= oj.
Proof.
  induction cols as [| c cols IH]; intros running i j attr oi oj Hij Hc Hoi Hoj Hk;
    [discriminate |].
  destruct j as [| j]; [lia |].
  assert (Hj : exists aj, cols !! j = Some aj).
  { apply lookup_lt_is_Some. apply lookup_lt_Some in Hoj.
    assert (Hlen : forall f b run l, length (offsets_by f b run l) = length l).
    { intros f b run l. revert run. induction l as [| x l IHl]; intros run; [reflexivity |].
      cbn [offsets_by]. destruct run as [r0 |]; [destruct (f x) |]; cbn; rewrite IHl; reflexivity. }
    rewrite Hlen in Hoj. cbn in Hoj. lia. }
  destruct Hj as [aj Haj].
  cbn [offsets_by] in Hoi, Hoj.
  destruct running as [r |].
  2:{ cbn in Hoj. destruct (offsets_by_known internal_format cols None j aj oj Haj Hoj Hk)
        as (r & Hr & _). discriminate. }
  destruct (variable_width internal_format c) eqn:Ev.
  { cbn in Hoj. destruct (offsets_by_known internal_format cols None j aj oj Haj Hoj Hk)
      as (r' & Hr & _). discriminate. }
  unfold variable_width in Ev. apply Z.leb_gt in Ev.
  destruct (round_up_facts r (column_alignment internal_format c)
              (column_alignment_pos internal_format c)) as [Hle Hmod].
  cbn in Hoj.
  destruct i as [| i].
  - cbn in Hc, Hoi. injection Hc as <-. injection Hoi as <-.
    destruct (offsets_by_known internal_format cols _ j aj oj Haj Hoj Hk)
      as (r' & Hr & Hro & _).
    injection Hr as <-. exists r. repeat split; auto.
  - cbn in Hc, Hoi.
    destruct (IH _ i j attr oi oj ltac:(lia) Hc Hoi Hoj Hk) as (r' & Hr & Hro & Hlen).
    injection Hr as <-. exists r. repeat split; auto. lia.
Qed.

Lemma column_alignment_char (internal_format : bool) (attr : Form_pg_attribute) :
  to_int8 (column_alignment internal_format attr) = column_alignment internal_format attr.
Proof.
  unfold column_alignment.
  destruct (internal_format && (atttypid attr =? NUMERICOID)); [reflexivity |].
  destruct (attalign attr); reflexivity.
Qed.

Lemma column_length_short (internal_format : bool) (attr : Form_pg_attribute) :
  - 2 ^ 15 <= attlen attr < 2 ^ 15 ->
  to_int16 (column_length internal_format attr) = column_length internal_format attr.
Proof.
  intros Hl. unfold column_length.
  destruct (internal_format && (atttypid attr =? NUMERICOID)); [reflexivity |].
  apply to_int16_small. exact Hl.
Qed.

(** The alignment and the length of the entries the loop writes: the cut
    to the fields of the entry leaves them as they are. *)
Lemma colmeta_shape (internal_format : bool) (cols : list Form_pg_attribute) :
  Forall (fun attr => - 2 ^ 15 <= attlen attr < 2 ^ 15) cols ->
  forall off colmeta,
    map (fun e => (cm_attalign e, cm_attlen e))
      (snd (fold_left (init_colmeta_step internal_format) cols (off, colmeta)))
    = map (fun e => (cm_attalign e, cm_attlen e)) colmeta
      ++ map (fun attr => (column_alignment internal_format attr,
                           column_length internal_format attr)) cols.
Proof.
  induction 1 as [| attr cols Hattr Hcols IH]; intros off colmeta; cbn [fold_left map snd].
  - rewrite app_nil_r. reflexivity.
  - destruct (init_colmeta_step internal_format (off, colmeta) attr) as [off1 cm1] eqn:E.
    rewrite IH.
    assert (Hcm : map (fun e => (cm_attalign e, cm_attlen e)) cm1
                  = map (fun e => (cm_attalign e, cm_attlen e)) colmeta
                    ++ [(column_alignment internal_format attr,
                         column_length internal_format attr)]).
    { rewrite <- (column_alignment_char internal_format attr).
      rewrite <- (column_length_short internal_format attr Hattr).
      unfold init_colmeta_step, column_alignment, column_length in *.
      destruct (internal_format && (atttypid attr =? NUMERICOID));
        injection E as _ <-; rewrite map_app; reflexivity. }
    rewrite Hcm, <- app_assoc. reflexivity.
Qed.

(** X6: the cached offsets [init_kern_data_store] writes are usable as
    they stand, as long as they fit their 16-bit field.  For a descriptor
    in the range of its types whose columns of fixed width start within
    32767 bytes, an entry with a known offset (not -1) belongs to a column
    of fixed width, its offset lies behind the row header and is a
    multiple of the alignment stored with it; of two entries the later one
    is known only when the earlier one is, and then starts at or behind
    the end of the earlier column. *)
Theorem init_offsets_aligned_ordered (mem : list byte) (tupdesc : TupleDesc)
    (length : Z) (format : kds_format_tag) (nrooms : Z) (internal_format : bool) :
  tupdesc_wf tupdesc ->
  offsets_fit internal_format tupdesc ->
  let colmeta :=
    kds_colmeta (init_kern_data_store mem tupdesc length format nrooms internal_format) in
  (forall (i : nat) e, colmeta !! i = Some e -> 0 <= cm_attcacheoff e ->
     header_offset (tdhasoid tupdesc) <= cm_attcacheoff e /\
     cm_attcacheoff e mod cm_attalign e = 0 /\
     0 < cm_attlen e) /\
  (forall (i j : nat) ei ej, (i < j)%nat ->
     colmeta !! i = Some ei -> colmeta !! j = Some ej -> 0 <= cm_attcacheoff ej ->
     0 <= cm_attcacheoff ei /\
     cm_attcacheoff ei + cm_attlen ei <= cm_attcacheoff ej).
Proof.
  intros [Hn Hwf] Hfit colmeta.
  destruct (initial_attcacheoff_value (tdhasoid tupdesc)) as [Hinit Hh].
  assert (Hoff : map cm_attcacheoff colmeta
                 = offsets_by (variable_width internal_format) internal_format
                     (Some (header_offset (tdhasoid tupdesc))) (attrs tupdesc)).
  { unfold colmeta, init_kern_data_store. cbn [kds_colmeta]. rewrite Hinit.
    rewrite colmeta_running by (try assumption; lia). cbn [map app].
    apply map_to_int16_fit; [| exact Hfit].
    apply offsets_by_lower; [| lia].
    intros attr Hv. unfold variable_width in Hv. apply Z.leb_gt in Hv. lia. }
  assert (Hshape : map (fun e => (cm_attalign e, cm_attlen e)) colmeta
                   = map (fun attr => (column_alignment internal_format attr,
                                       column_length internal_format attr))
                       (attrs tupdesc)).
  { unfold colmeta, init_kern_data_store. cbn [kds_colmeta]. apply colmeta_shape.
    exact Hwf. }
  assert (Hentry : forall (i : nat) e, colmeta !! i = Some e ->
            exists attr, attrs tupdesc !! i = Some attr /\
              offsets_by (variable_width internal_format) internal_format
                (Some (header_offset (tdhasoid tupdesc))) (attrs tupdesc) !! i
              = Some (cm_attcacheoff e) /\
              cm_attalign e = column_alignment internal_format attr /\
              cm_attlen e = column_length internal_format attr).
  { intros i e He.
    assert (H1 : map cm_attcacheoff colmeta !! i = Some (cm_attcacheoff e))
      by (rewrite list_lookup_fmap, He; reflexivity).
    assert (H2 : map (fun e => (cm_attalign e, cm_attlen e)) colmeta !! i
                 = Some (cm_attalign e, cm_attlen e))
      by (rewrite list_lookup_fmap, He; reflexivity).
    rewrite Hoff in H1. rewrite Hshape, list_lookup_fmap in H2.
    destruct (attrs tupdesc !! i) as [attr |] eqn:Ea; [| discriminate].
    cbn in H2. injection H2 as H2a H2l. exists attr. auto. }
  split.
  - intros i e He Hk. destruct (Hentry i e He) as (attr & Ha & Ho & -> & ->).
    destruct (offsets_by_known internal_format _ _ i attr _ Ha Ho Hk)
      as (r & Hr & Hro & Hm & Hl).
    injection Hr as <-. auto.
  - intros i j ei ej Hij Hei Hej Hk.
    destruct (Hentry i ei Hei) as (ai & Hai & Hoi & _ & ->).
    destruct (Hentry j ej Hej) as (aj & Haj & Hoj & _ & _).
    destruct (offsets_by_ordered internal_format _ _ i j ai _ _ Hij Hai Hoi Hoj Hk)
      as (r & Hr & Hro & Hlen).
    injection Hr as <-. split; lia.
Qed.

Lemma init_offsets_aligned_ordered_witness :
  let colmeta :=
    kds_colmeta (init_kern_data_store [] tupdesc_two_int4 4096 KDS_FORMAT_ROW INT_MAX false) in
  (forall (i : nat) e, colmeta !! i = Some e -> 0 <= cm_attcacheoff e ->
     header_offset (tdhasoid tupdesc_two_int4) <= cm_attcacheoff e /\
     cm_attcacheoff e mod cm_attalign e = 0 /\
     0 < cm_attlen e) /\
  (forall (i j : nat) ei ej, (i < j)%nat ->
     colmeta !! i = Some ei -> colmeta !! j = Some ej -> 0 <= cm_attcacheoff ej ->
     0 <= cm_attcacheoff ei /\
     cm_attcacheoff ei + cm_attlen ei <= cm_attcacheoff ej).
Proof.
  apply (init_offsets_aligned_ordered [] tupdesc_two_int4 4096 KDS_FORMAT_ROW INT_MAX false).
  - split; [cbn; lia | repeat constructor; cbn; lia].
  - repeat constructor; vm_compute; reflexivity.
Defined.

(** ** A chunk from creation to fetch *)

Lemma head_length_small (L : layout) (ncols : Z) :
  layout_ok L -> 0 <= ncols <= 1664 ->
  0 <= KERN_DATA_STORE_HEAD_LENGTH L ncols < 2 ^ 28.
Proof.
  intros HL Hn. pose proof HL as ((k & Hk & Ha) & Hc & Hs & _).
  unfold KERN_DATA_STORE_HEAD_LENGTH.
  assert (Hm : 0 <= sizeof_colmeta L * ncols <= 2 ^ 16 * 1664) by nia.
  rewrite (wrap64_small (sizeof_colmeta L * ncols)) by lia.
  rewrite wrap64_small by lia.
  destruct (STROMALIGN_facts L (offsetof_colmeta L + sizeof_colmeta L * ncols) HL
              ltac:(lia)) as [Hb _].
  assert (Hp : STROMALIGN_LEN L <= 2 ^ 16) by (rewrite Ha; apply Z.pow_le_mono_r; lia).
  lia.
Qed.

(** A chunk that [init_kern_data_store] has set up in a region of its
    length is in order. *)
Lemma init_chunk_inv (L : layout) (mem : list byte) (tupdesc : TupleDesc) (len : Z)
    (format : kds_format_tag) (nrooms : Z) (internal_format : bool) :
  layout_ok L -> tupdesc_wf tupdesc ->
  Z.of_nat (length mem) = len -> len < 2 ^ 32 ->
  KERN_DATA_STORE_HEAD_LENGTH L (natts tupdesc) <= len ->
  chunk_inv L (init_kern_data_store mem tupdesc len format nrooms internal_format).
Proof.
  intros HL [Hn _] Hmem Hlen Hhead.
  assert (Hna : 0 <= natts tupdesc <= 1664) by (unfold natts; lia).
  unfold chunk_inv, kds_wf, init_kern_data_store.
  cbn [kds_mem kds_length kds_usage kds_ncols kds_nitems kds_nrooms].
  rewrite (wrap32_small len) by lia.
  rewrite (wrap32_small (natts tupdesc)) by lia.
  assert (Hw : 0 <= wrap32 nrooms < 2 ^ 32) by (unfold wrap32; apply Z.mod_pos_bound; lia).
  repeat split; lia.
Qed.

(** X7: a row store that is not file-mapped, from its creation to the
    fetch.  [pgstrom_create_data_store_row] makes one allocation, of the
    header for the columns plus the requested length rounded to the
    alignment unit, and no file call; the chunk it sets up is empty; and
    when [pgstrom_data_store_insert_tuple] has accepted the tuples of a
    list one after the other, [kern_fetch_data_store] at [k] yields the
    [k]-th of them. *)
Theorem create_row_insert_fetch (L : layout) (env : os_env) (kds_length_local : Z)
    (tupdesc : TupleDesc) (len : Z) (tuples : list HeapTupleData) :
  layout_ok L -> tupdesc_wf tupdesc -> 0 <= len < 2 ^ 31 ->
  (forall size, 0 <= size -> Z.of_nat (length (alloc_content env size)) = size) ->
  Forall tuple_wf tuples ->
  exists pds,
    pgstrom_create_data_store_row L env kds_length_local tupdesc len false
    = ([SYS_MemoryContextAlloc (pds_kds_length pds)], Ok pds) /\
    pds_kds_length pds
    = KERN_DATA_STORE_HEAD_LENGTH L (natts tupdesc) + STROMALIGN L len /\
    kds_length (pds_kds pds) = pds_kds_length pds /\
    kern_fetch_data_store L (pds_kds pds) 0 = Ok None /\
    (forall kds',
       insert_tuples L (pds_kds pds) tuples = Ok (true, kds') ->
       forall (k : nat) tuple, tuples !! k = Some tuple ->
         kern_fetch_data_store L kds' (Z.of_nat k) = Ok (Some (FetchedRow tuple))).
Proof.
  intros HL Hwf Hlen Halloc Hall.
  pose proof Hwf as [Hn _].
  assert (Hna : 0 <= natts tupdesc <= 1664) by (unfold natts; lia).
  pose proof (head_length_small L (natts tupdesc) HL Hna) as Hh.
  destruct (STROMALIGN_facts L len HL ltac:(lia)) as [Hb _].
  assert (Hp : STROMALIGN_LEN L <= 2 ^ 16).
  { destruct HL as ((k & Hk & ->) & _). apply Z.pow_le_mono_r; lia. }
  unfold pgstrom_create_data_store_row.
  rewrite (wrap64_small (_ + STROMALIGN L len)) by lia.
  set (size := KERN_DATA_STORE_HEAD_LENGTH L (natts tupdesc) + STROMALIGN L len) in *.
  exists {| pds_chain := DLIST_LINKED;
            pds_kds_fname := None; pds_kds_length := size; pds_kds_offset := 0;
            pds_kds := init_kern_data_store (alloc_content env size) tupdesc size
                         KDS_FORMAT_ROW INT_MAX false |}.
  split; [reflexivity |]. cbn [pds_kds_length pds_kds].
  assert (Hinv : chunk_inv L (init_kern_data_store (alloc_content env size) tupdesc size
                                KDS_FORMAT_ROW INT_MAX false)).
  { apply init_chunk_inv; auto; try lia. apply Halloc. lia. }
  split; [reflexivity | split; [| split]].
  - cbn [init_kern_data_store kds_length]. apply wrap32_small. lia.
  - reflexivity.
  - intros kds' Hrun k tuple Hk.
    destruct (insert_tuples_step L tuples HL Hall _ kds' Hinv Hrun) as (_ & _ & _ & Hnew).
    specialize (Hnew k tuple Hk). cbn [init_kern_data_store kds_nitems] in Hnew.
    exact Hnew.
Qed.

Lemma create_row_insert_fetch_witness :
  exists pds,
    pgstrom_create_data_store_row layout_x86_64 env_success 0 tupdesc_two_int4 100 false
    = ([SYS_MemoryContextAlloc (pds_kds_length pds)], Ok pds) /\
    pds_kds_length pds
    = KERN_DATA_STORE_HEAD_LENGTH layout_x86_64 (natts tupdesc_two_int4)
      + STROMALIGN layout_x86_64 100 /\
    kds_length (pds_kds pds) = pds_kds_length pds /\
    kern_fetch_data_store layout_x86_64 (pds_kds pds) 0 = Ok None /\
    (forall kds',
       insert_tuples layout_x86_64 (pds_kds pds) [tuple_3bytes; tuple_5bytes]
       = Ok (true, kds') ->
       forall (k : nat) tuple, [tuple_3bytes; tuple_5bytes] !! k = Some tuple ->
         kern_fetch_data_store layout_x86_64 kds' (Z.of_nat k)
         = Ok (Some (FetchedRow tuple))).
Proof.
  apply (create_row_insert_fetch layout_x86_64 env_success 0 tupdesc_two_int4 100
           [tuple_3bytes; tuple_5bytes]).
  - layout_evaluated.
  - split; [cbn; lia | repeat constructor; cbn; lia].
  - lia.
  - intros size Hsize. cbn. rewrite repeat_length. lia.
  - repeat constructor; vm_compute; congruence.
Defined.

(** ** File-mapped stores *)

(** X8: how a file-mapped [pgstrom_create_data_store_row] fails.  The
    call returns a store exactly when [OpenTransientFile], [ftruncate] and
    [mmap] all succeed, and raises the file-access error otherwise; no
    call follows the one that failed, so a file that could not be
    truncated is never mapped; the descriptor is closed by the call
    exactly when it returns a store; and no memory is allocated for the
    chunk. *)
Theorem create_row_mapped_failures (L : layout) (env : os_env) (kds_length_local : Z)
    (tupdesc : TupleDesc) (len : Z) :
  let out := pgstrom_create_data_store_row L env kds_length_local tupdesc len true in
  let succeeds := (0 <=? open_result env) && (ftruncate_result env =? 0)
                  && mmap_succeeds env kds_length_local in
  (if succeeds then exists pds, snd out = Ok pds else snd out = Err ERR_file_access) /\
  closes (fst out) = succeeds /\
  (open_result env < 0 -> length (fst out) = 1%nat) /\
  (ftruncate_result env <> 0 -> mapped_length (fst out) = None) /\
  (forall size, ~ In (SYS_MemoryContextAlloc size) (fst out)).
Proof.
  cbv zeta. unfold pgstrom_create_data_store_row.
  destruct (open_result env <? 0) eqn:Eo.
  - apply Z.ltb_lt in Eo.
    assert (E : (0 <=? open_result env) = false) by (apply Z.leb_gt; lia).
    rewrite E. cbn. repeat split; auto.
    intros size [H | []]. discriminate H.
  - apply Z.ltb_ge in Eo.
    assert (E : (0 <=? open_result env) = true) by (apply Z.leb_le; lia).
    rewrite E. cbn [andb].
    destruct (ftruncate_result env =? 0) eqn:Et; cbn [negb andb].
    + apply Z.eqb_eq in Et.
      destruct (mmap_succeeds env kds_length_local) eqn:Em; cbn [negb fst snd].
      * split; [eexists; reflexivity |]. repeat split; try reflexivity; try lia.
        intros size Hin. cbn in Hin. intuition discriminate.
      * repeat split; try reflexivity; try lia.
        intros size Hin. cbn in Hin. intuition discriminate.
    + apply Z.eqb_neq in Et. cbn [fst snd]. repeat split; try reflexivity; try lia.
      intros size Hin. cbn in Hin. intuition discriminate.
Qed.

Lemma create_row_mapped_failures_witness :
  ftruncate_result env_truncate_fails <> 0 /\
  mapped_length
    (fst (pgstrom_create_data_store_row layout_x86_64 env_truncate_fails 4096
            tupdesc_two_int4 4096 true)) = None.
Proof.
  split; [cbn; lia |].
  apply (create_row_mapped_failures layout_x86_64 env_truncate_fails 4096
           tupdesc_two_int4 4096).
  cbn. lia.
Defined.

Lemma release_body_lengths (renv : release_env) (pds : pgstrom_data_store) :
  linked pds = true ->
  snd (release_body renv pds) = Ok tt /\
  unmapped_lengths (fst (release_body renv pds))
  = match pds_kds_fname pds with Some _ => [pds_kds_length pds] | None => [] end /\
  unlinked_files (fst (release_body renv pds))
  = match pds_kds_fname pds with Some fname => [fname] | None => [] end /\
  freed_stores (fst (release_body renv pds)) = 1%nat.
Proof.
  unfold linked, release_body, dlist_delete, pgstrom_file_unmap_data_store,
    unmapped_lengths, unlinked_files, freed_stores.
  destruct (pds_chain pds); [discriminate |]. intros _. cbn [fst snd].
  destruct (pds_kds_fname pds) as [fname |]; [| repeat split].
  destruct (negb (munmap_result renv =? 0)), (negb (unlink_result renv fname =? 0));
    repeat split.
Qed.

Lemma release_body_fault (renv : release_env) (pds : pgstrom_data_store) :
  linked pds = false ->
  release_body renv pds = ([REL_dlist_delete], Err FAULT_null_dereference).
Proof.
  unfold linked, release_body, dlist_delete.
  destruct (pds_chain pds); [reflexivity | discriminate].
Qed.

Lemma omap_app_list {A B} (f : A -> option B) (l1 l2 : list A) :
  omap f (l1 ++ l2) = omap f l1 ++ omap f l2.
Proof.
  induction l1 as [| x l1 IH]; cbn; [reflexivity |].
  destruct (f x); cbn; rewrite IH; reflexivity.
Qed.

Lemma linked_prefix_app (l : list pgstrom_data_store) (pds : pgstrom_data_store) :
  linked_prefix (l ++ [pds])
  = if forallb linked l
    then l ++ (if linked pds then [pds] else [])
    else linked_prefix l.
Proof.
  induction l as [| x l IH]; cbn [app linked_prefix forallb].
  - destruct (linked pds); reflexivity.
  - destruct (linked x); cbn [andb]; [| reflexivity].
    rewrite IH. destruct (forallb linked l); reflexivity.
Qed.

Lemma linked_prefix_all (l : list pgstrom_data_store) :
  forallb linked l = true -> linked_prefix l = l.
Proof.
  induction l as [| x l IH]; cbn [forallb linked_prefix]; [reflexivity |].
  destruct (linked x); cbn [andb]; [| discriminate].
  intros H. rewrite IH by exact H. reflexivity.
Qed.

(** X9: what [pgstrom_release_data_store] gives back.  The release goes
    through the store and its chain of toast stores, the toast stores
    first, and comes to its end exactly when every one of them is on a
    list; [dlist_delete] on a store that is on no list writes through
    [NULL], and nothing is released from there on.  For every store in
    front of that point, whatever [munmap] and [unlink] return, the
    release unmaps one region if the store is file-mapped, of the length
    recorded in that store, unlinks its file, and frees the store
    structure once. *)
Theorem release_gives_back_each_store (renv : release_env) (c : pds_with_toast) :
  let out := pgstrom_release_data_store renv c in
  let released := linked_prefix (chain_stores c) in
  snd out = (if forallb linked (chain_stores c) then Ok tt
             else Err FAULT_null_dereference) /\
  unmapped_lengths (fst out)
  = omap (fun pds => match pds_kds_fname pds with
                     | Some _ => Some (pds_kds_length pds)
                     | None => None
                     end) released /\
  unlinked_files (fst out) = omap pds_kds_fname released /\
  freed_stores (fst out) = length released.
Proof.
  cbv zeta.
  induction c as [pds | pds ktoast (IH0 & IH1 & IH2 & IH3)];
    cbn [pgstrom_release_data_store chain_stores].
  - cbn [forallb linked_prefix]. rewrite andb_true_r.
    destruct (linked pds) eqn:El.
    + destruct (release_body_lengths renv pds El) as (H0 & H1 & H2 & H3).
      rewrite H0, H1, H2, H3. cbn. destruct (pds_kds_fname pds); auto.
    + rewrite (release_body_fault renv pds El). repeat split.
  - rewrite forallb_app, linked_prefix_app. cbn [forallb]. rewrite andb_true_r.
    destruct (pgstrom_release_data_store renv ktoast) as [calls [[] | f]];
      cbn [fst snd] in IH0, IH1, IH2, IH3 |- *.
    + destruct (forallb linked (chain_stores ktoast)) eqn:Ef; [| discriminate IH0].
      rewrite (linked_prefix_all _ Ef) in IH1, IH2, IH3.
      cbn [andb].
      destruct (linked pds) eqn:El.
      * destruct (release_body_lengths renv pds El) as (H0 & H1 & H2 & H3).
        unfold unmapped_lengths, unlinked_files, freed_stores in *.
        rewrite !omap_app_list, List.filter_app, !length_app, IH1, IH2, IH3, H0, H1, H2, H3.
        cbn. destruct (pds_kds_fname pds); auto.
      * rewrite (release_body_fault renv pds El). cbn [fst snd].
        unfold unmapped_lengths, unlinked_files, freed_stores in *.
        rewrite !omap_app_list, List.filter_app, !length_app, IH1, IH2, IH3.
        cbn. rewrite !app_nil_r, Nat.add_0_r. auto.
    + destruct (forallb linked (chain_stores ktoast)); [discriminate IH0 |].
      cbn [andb]. auto.
Qed.

(** X10: a store mapped by [pgstrom_file_mmap_data_store], and how it is
    given back.  When the mapping call returns a store it has opened the
    file without creating it, made the file end at offset plus length,
    mapped the length it was asked for at the offset and closed the
    descriptor.  [pgstrom_file_unmap_data_store] on that store unmaps the
    same length.  The store is on no list, so
    [pgstrom_release_data_store] on it stops in [dlist_delete]: it neither
    unmaps the region nor unlinks the file. *)
Theorem file_mmap_then_release (env : os_env) (renv : release_env)
    (chunk : kern_data_store) (kds_fname : string) (kds_offset kds_length : Z)
    (pds : pgstrom_data_store) :
  snd (pgstrom_file_mmap_data_store env chunk kds_fname kds_offset kds_length) = Ok pds ->
  let trace := fst (pgstrom_file_mmap_data_store env chunk kds_fname kds_offset kds_length) in
  trace = [SYS_OpenTransientFile kds_fname [O_RDWR; PG_BINARY] 384;
           SYS_ftruncate (open_result env) (wrap64 (kds_offset + kds_length));
           SYS_mmap kds_length [PROT_READ; PROT_WRITE] [MAP_SHARED; MAP_POPULATE]
             (open_result env) kds_offset;
           SYS_CloseTransientFile (open_result env)] /\
  mapped_length trace = Some kds_length /\
  unmapped_lengths (pgstrom_file_unmap_data_store renv pds) = [kds_length] /\
  pgstrom_release_data_store renv (PdsPlain pds)
  = ([REL_dlist_delete], Err FAULT_null_dereference).
Proof.
  unfold pgstrom_file_mmap_data_store.
  destruct (open_result env <? 0); [discriminate |].
  destruct (negb (ftruncate_result env =? 0)); [discriminate |].
  destruct (negb (mmap_succeeds env kds_length)); [discriminate |].
  cbn [fst snd]. intros [= <-].
  repeat split.
  unfold pgstrom_file_unmap_data_store, unmapped_lengths. cbn [pds_kds_length].
  destruct (negb (munmap_result renv =? 0)); reflexivity.
Qed.

Lemma file_mmap_then_release_witness :
  let env := env_success in
  let renv := {| munmap_result := 0; unlink_result := fun _ => -1 |} in
  let chunk := chunk_one_row in
  let pds := {| pds_chain := DLIST_NULL;
                pds_kds_fname := Some "pgsql_tmp_strom_1.0"%string; pds_kds_length := 256;
                pds_kds_offset := 8192; pds_kds := chunk |} in
  let trace := fst (pgstrom_file_mmap_data_store env chunk "pgsql_tmp_strom_1.0" 8192 256) in
  trace = [SYS_OpenTransientFile "pgsql_tmp_strom_1.0" [O_RDWR; PG_BINARY] 384;
           SYS_ftruncate (open_result env) (wrap64 (8192 + 256));
           SYS_mmap 256 [PROT_READ; PROT_WRITE] [MAP_SHARED; MAP_POPULATE]
             (open_result env) 8192;
           SYS_CloseTransientFile (open_result env)] /\
  mapped_length trace = Some 256 /\
  unmapped_lengths (pgstrom_file_unmap_data_store renv pds) = [256] /\
  pgstrom_release_data_store renv (PdsPlain pds)
  = ([REL_dlist_delete], Err FAULT_null_dereference).
Proof.
  intros env renv chunk pds.
  apply (file_mmap_then_release env renv chunk "pgsql_tmp_strom_1.0" 8192 256 pds).
  reflexivity.
Defined.

(** X11: a file-mapped store of [pgstrom_create_data_store_row] released
    again.  The creation puts the store on the list of its context, so the
    release comes to its end.  The creation maps the length its unassigned
    local variable holds, while the release unmaps the length recorded in
    the store, the header plus the requested length rounded to the
    alignment unit: the two agree only when the variable happens to hold
    that value. *)
Theorem create_row_mapped_then_release (L : layout) (env : os_env) (renv : release_env)
    (kds_length_local : Z) (tupdesc : TupleDesc) (len : Z) (pds : pgstrom_data_store) :
  snd (pgstrom_create_data_store_row L env kds_length_local tupdesc len true) = Ok pds ->
  let trace := fst (pgstrom_create_data_store_row L env kds_length_local tupdesc len true) in
  let recorded := wrap64 (KERN_DATA_STORE_HEAD_LENGTH L (natts tupdesc) + STROMALIGN L len) in
  let released := pgstrom_release_data_store renv (PdsPlain pds) in
  snd released = Ok tt /\
  mapped_length trace = Some kds_length_local /\
  unmapped_lengths (fst released) = [recorded] /\
  unlinked_files (fst released) = [temp_filename env] /\
  (mapped_length trace = head (unmapped_lengths (fst released))
   <-> kds_length_local = recorded).
Proof.
  unfold pgstrom_create_data_store_row.
  destruct (open_result env <? 0); [discriminate |].
  destruct (negb (ftruncate_result env =? 0)); [discriminate |].
  destruct (negb (mmap_succeeds env kds_length_local)); [discriminate |].
  cbn [fst snd]. intros [= <-].
  cbn [pgstrom_release_data_store].
  match goal with
  | |- context [release_body renv ?p] =>
      destruct (release_body_lengths renv p eq_refl) as (H0 & H1 & H2 & _)
  end.
  cbv zeta.
  rewrite H0, H1, H2. cbn [pds_kds_fname pds_kds_length head].
  change (mapped_length _) with (Some kds_length_local).
  repeat split; intros H; congruence.
Qed.

Lemma create_row_mapped_then_release_witness :
  let renv := {| munmap_result := 0; unlink_result := fun _ => 0 |} in
  let out := pgstrom_create_data_store_row layout_x86_64 env_success 4096
               tupdesc_two_int4 100 true in
  let pds := match snd out with
             | Ok pds => pds
             | Err _ => {| pds_chain := DLIST_NULL;
                           pds_kds_fname := None; pds_kds_length := 0; pds_kds_offset := 0;
                           pds_kds := chunk_empty KDS_FORMAT_ROW |}
             end in
  let recorded := wrap64 (KERN_DATA_STORE_HEAD_LENGTH layout_x86_64 (natts tupdesc_two_int4)
                          + STROMALIGN layout_x86_64 100) in
  let released := pgstrom_release_data_store renv (PdsPlain pds) in
  snd released = Ok tt /\
  mapped_length (fst out) = Some 4096 /\
  unmapped_lengths (fst released) = [recorded] /\
  unlinked_files (fst released) = [temp_filename env_success] /\
  (mapped_length (fst out) = head (unmapped_lengths (fst released))
   <-> 4096 = recorded).
Proof.
  intros renv out pds.
  apply (create_row_mapped_then_release layout_x86_64 env_success renv 4096
           tupdesc_two_int4 100 pds).
  reflexivity.
Defined.
(** ** Constants and parameters in a buffer *)

Lemma load_bytes_middle (pre bs post : list byte) :
  load_bytes (pre ++ bs ++ post) (Z.of_nat (length pre)) (Z.of_nat (length bs)) = bs.
Proof.
  unfold load_bytes. rewrite !Nat2Z.id.
  rewrite drop_app_length. apply take_app_length.
Qed.

Lemma rd_wr_zero (a : list Z) (i : Z) : rd 0 (wr a i 0) i = 0.
Proof.
  unfold rd, wr. destruct (i <? 0) eqn:E; [reflexivity |].
  destruct (decide (Z.to_nat i < length a)%nat) as [Hi | Hi].
  - rewrite nth_lookup, list_lookup_insert_eq by lia. reflexivity.
  - rewrite list_insert_ge by lia. apply nth_overflow. lia.
Qed.

(** A round for a constant: the slot of the index and the bytes
    appended. *)
Lemma const_step_shape (L : layout) (get_typlen : Z -> Z) (padding : list byte)
    (econtext : ExprContext) (st : parambuf_state) (con : Const) :
  let added := if constisnull con then [] else const_payload con in
  exists st1 pad,
    parambuf_step L get_typlen padding econtext st (T_Const con) = Ok st1 /\
    st_index st1 = st_index st + 1 /\
    st_poffset st1
    = wr (st_poffset st) (st_index st)
        (if constisnull con then 0 else wrap32 (str_len st)) /\
    st_str st1 = st_str st ++ added ++ pad /\
    (layout_ok L -> Z.of_nat (length padding) = STROMALIGN_LEN L ->
     str_len st + Z.of_nat (length added) < 2 ^ 40 ->
     str_len st1 = STROMALIGN L (str_len st1)).
Proof.
  intros added. cbn [parambuf_step].
  set (s1 := if constisnull con then set_poffset st 0 else _).
  assert (Hs1 : st_index s1 = st_index st /\
                st_poffset s1 = wr (st_poffset st) (st_index st)
                                  (if constisnull con then 0 else wrap32 (str_len st)) /\
                st_str s1 = st_str st ++ added).
  { unfold s1, added, const_payload. destruct (constisnull con).
    - cbn. rewrite app_nil_r. auto.
    - destruct (0 <? constlen con) eqn:E; cbn; repeat split; f_equal.
      + apply take_ge. unfold datum_bytes. rewrite length_le_bytes. lia.
      + apply take_ge. lia. }
  destruct Hs1 as (Hi1 & Ho1 & Hstr1).
  assert (Ha : exists pad, st_str (align_and_advance L padding s1) = st_str s1 ++ pad /\
                 st_index (align_and_advance L padding s1) = st_index s1 + 1 /\
                 st_poffset (align_and_advance L padding s1) = st_poffset s1).
  { unfold align_and_advance. destruct (_ =? _); cbn.
    - exists []. rewrite app_nil_r. auto.
    - eexists. auto. }
  destruct Ha as (pad & Hs2 & Hi2 & Ho2).
  exists (align_and_advance L padding s1), pad.
  split; [reflexivity |].
  rewrite Hi2, Ho2, Hs2, Hi1, Ho1, Hstr1, <- app_assoc.
  repeat split.
  intros HL Hpad Hlen.
  assert (Hl1 : str_len s1 < 2 ^ 40).
  { unfold str_len in *. rewrite Hstr1, length_app. lia. }
  destruct (align_and_advance_spec L padding s1 HL Hpad Hl1) as (Hl2 & _).
  assert (H0 : 0 <= str_len s1) by (unfold str_len; lia).
  destruct (STROMALIGN_facts L (str_len s1) HL ltac:(lia)) as [_ Hidem].
  rewrite Hl2, Hidem. reflexivity.
Qed.

(** The rounds for a list of constants. *)
Lemma const_loop_spec (L : layout) (get_typlen : Z -> Z) (padding : list byte)
    (econtext : ExprContext) (consts : list Const) :
  layout_ok L -> Z.of_nat (length padding) = STROMALIGN_LEN L ->
  forall st st',
    parambuf_loop L get_typlen padding econtext (map T_Const consts) st = Ok st' ->
    str_len st' < 2 ^ 32 -> 0 <= st_index st ->
    st_index st + Z.of_nat (length consts) <= Z.of_nat (length (st_poffset st)) ->
    (exists tail, st_str st' = st_str st ++ tail) /\
    (consts <> [] -> str_len st' = STROMALIGN L (str_len st')) /\
    (forall j, j < st_index st -> rd 0 (st_poffset st') j = rd 0 (st_poffset st) j) /\
    (forall (i : nat) con, consts !! i = Some con ->
       let off := rd 0 (st_poffset st') (st_index st + Z.of_nat i) in
       if constisnull con then off = 0
       else str_len st <= off /\
            load_bytes (st_str st') off (Z.of_nat (length (const_payload con)))
            = const_payload con).
Proof.
  intros HL Hpad. induction consts as [| con consts IH]; intros st st' Hloop Hlen Hidx Hslots.
  - cbn in Hloop. injection Hloop as <-.
    split; [exists []; rewrite app_nil_r; reflexivity |].
    split; [congruence |]. split; [reflexivity |].
    intros i con Hi. discriminate Hi.
  - cbn [map parambuf_loop] in Hloop.
    destruct (const_step_shape L get_typlen padding econtext st con)
      as (st1 & pad & E & Hi1 & Ho1 & Hs1 & Hal1).
    cbv zeta in Hs1, Hal1.
    rewrite E in Hloop. cbn [bind] in Hloop.
    rewrite length_cons, Nat2Z.inj_succ in Hslots.
    assert (Hp1 : length (st_poffset st1) = length (st_poffset st))
      by (rewrite Ho1; apply length_wr).
    destruct (IH st1 st' Hloop Hlen ltac:(lia) ltac:(rewrite Hp1; lia))
      as ((tail & Htail) & Hal & Hkeep & Hsl).
    set (added := if constisnull con then [] else const_payload con) in *.
    assert (Hlens : str_len st + Z.of_nat (length added) + Z.of_nat (length pad)
                    + Z.of_nat (length tail) = str_len st').
    { unfold str_len. rewrite Htail, Hs1, !length_app. lia. }
    split; [| split; [| split]].
    + exists (added ++ pad ++ tail). rewrite Htail, Hs1, <- !app_assoc. reflexivity.
    + intros _. destruct consts as [| c2 consts].
      * cbn in Hloop. injection Hloop as <-. apply Hal1; auto. lia.
      * apply Hal. discriminate.
    + intros j Hj. rewrite Hkeep by lia. rewrite Ho1. apply rd_wr_other. lia.
    + intros [| i] con' Hi.
      * injection Hi as <-. cbv zeta. rewrite Z.add_0_r, Hkeep by lia. rewrite Ho1.
        destruct (constisnull con) eqn:En; [apply rd_wr_zero |].
        rewrite rd_wr_same by lia.
        assert (H0 : 0 <= str_len st) by (unfold str_len; lia).
        rewrite wrap32_small by lia. split; [lia |].
        rewrite Htail, Hs1. unfold str_len, added. rewrite <- !app_assoc.
        apply load_bytes_middle.
      * cbn in Hi. specialize (Hsl i con' Hi). cbv zeta in Hsl |- *.
        replace (st_index st + Z.of_nat (Datatypes.S i)) with (st_index st1 + Z.of_nat i)
          by lia.
        destruct (constisnull con'); [exact Hsl |].
        destruct Hsl as [Hge Hload]. split; [| exact Hload].
        unfold str_len in *. rewrite Hs1, !length_app in Hge. lia.
Qed.

(** X12: constants come back from the buffer.  For a list of constants
    whose by-value members have at most the 8 bytes of a [Datum], when the
    buffer is smaller than 4 GB: the parameter count is the length of the
    list, the recorded length is the size of the buffer and a multiple of
    the alignment unit, the slot of a null constant holds 0, and the slot
    of any other constant holds a non-zero offset behind the slot array at
    which the buffer has the bytes of the constant. *)
Theorem parambuf_constants_roundtrip (L : layout) (get_typlen : Z -> Z)
    (padding : list byte) (econtext : ExprContext) (consts : list Const)
    (buf : kern_parambuf) :
  layout_ok L -> Z.of_nat (length padding) = STROMALIGN_LEN L ->
  Forall const_wf consts -> Z.of_nat (length consts) < 2 ^ 20 ->
  pgstrom_create_kern_parambuf L get_typlen padding (map T_Const consts) econtext = Ok buf ->
  Z.of_nat (length (kp_data buf)) < 2 ^ 32 ->
  kp_nparams buf = Z.of_nat (length consts) /\
  kp_length buf = Z.of_nat (length (kp_data buf)) /\
  STROMALIGN L (kp_length buf) = kp_length buf /\
  (forall (i : nat) con, consts !! i = Some con ->
     let off := rd 0 (kp_poffset buf) (Z.of_nat i) in
     if constisnull con then off = 0
     else off <> 0 /\
          parambuf_head L (Z.of_nat (length consts)) <= off /\
          load_bytes (kp_data buf) off (Z.of_nat (length (const_payload con)))
          = const_payload con).
Proof.
  intros HL Hpad _ Hn Hbuf Hsize.
  unfold pgstrom_create_kern_parambuf in Hbuf. rewrite length_map in Hbuf.
  set (n := Z.of_nat (length consts)) in *.
  destruct (parambuf_loop _ _ _ _ _ _) as [st' |] eqn:Eloop; [| discriminate].
  cbn [bind] in Hbuf. injection Hbuf as <-.
  cbn [kp_nparams kp_length kp_poffset kp_data] in *.
  destruct (parambuf_head_facts L n HL ltac:(lia)) as [Hh Hha].
  pose proof HL as (_ & _ & _ & _ & _ & Hpo & Hps).
  assert (Hinit : str_len (parambuf_init L econtext n) = parambuf_head L n).
  { unfold str_len, parambuf_init. cbn [st_str]. rewrite repeat_length. lia. }
  destruct (const_loop_spec L get_typlen padding econtext consts HL Hpad _ _ Eloop)
    as ((tail & Htail) & Hal & _ & Hsl).
  { exact Hsize. }
  { cbn. lia. }
  { cbn [parambuf_init st_index st_poffset]. rewrite repeat_length. lia. }
  rewrite Hinit in Hsl. cbn [parambuf_init st_index] in Hsl.
  fold (str_len st') in *.
  assert (H0 : 0 <= str_len st') by (unfold str_len; lia).
  split; [apply wrap32_small; lia |].
  split; [apply wrap32_small; lia |].
  rewrite (wrap32_small (str_len st')) by lia.
  split.
  - destruct consts as [| c consts].
    + cbn in Eloop. injection Eloop as <-. rewrite Hinit. exact Hha.
    + symmetry. apply Hal. discriminate.
  - intros i con Hi. specialize (Hsl i con Hi). cbv zeta in Hsl |- *.
    rewrite Z.add_0_l in Hsl.
    destruct (constisnull con); [exact Hsl |].
    destruct Hsl as [Hge Hload]. repeat split; auto.
    assert (Hlt : (i < length consts)%nat) by (apply lookup_lt_is_Some; eauto).
    nia.
Qed.

Lemma parambuf_constants_roundtrip_witness :
  exists buf,
    pgstrom_create_kern_parambuf layout_x86_64 (fun _ => 4) (repeat xff 16)
      (map T_Const [int4_const 7; null_const; int4_const 258])
      {| ecxt_param_list_info := None |} = Ok buf /\
    kp_nparams buf = Z.of_nat (length [int4_const 7; null_const; int4_const 258]) /\
    kp_length buf = Z.of_nat (length (kp_data buf)) /\
    STROMALIGN layout_x86_64 (kp_length buf) = kp_length buf /\
    (forall (i : nat) con, [int4_const 7; null_const; int4_const 258] !! i = Some con ->
       let off := rd 0 (kp_poffset buf) (Z.of_nat i) in
       if constisnull con then off = 0
       else off <> 0 /\
            parambuf_head layout_x86_64
              (Z.of_nat (length [int4_const 7; null_const; int4_const 258])) <= off /\
            load_bytes (kp_data buf) off (Z.of_nat (length (const_payload con)))
            = const_payload con).
Proof.
  eexists. split; [reflexivity |].
  apply (parambuf_constants_roundtrip layout_x86_64 (fun _ => 4) (repeat xff 16)
           {| ecxt_param_list_info := None |} [int4_const 7; null_const; int4_const 258]).
  - layout_evaluated.
  - reflexivity.
  - repeat constructor; vm_compute; congruence.
  - vm_compute. reflexivity.
  - reflexivity.
  - vm_compute. reflexivity.
Defined.

(** A round for a [Param] node leaves 0 in the slot of its index, whether
    it resolves the parameter or not. *)
Lemma param_step_slot (L : layout) (get_typlen : Z -> Z) (padding : list byte)
    (econtext : ExprContext) (st st' : parambuf_state) (param : Param) :
  parambuf_step L get_typlen padding econtext st (T_Param param) = Ok st' ->
  slots_clear st ->
  rd 0 (st_poffset st') (st_index st) = 0.
Proof.
  intros Hstep Hc.
  assert (Ha : forall s, st_poffset (align_and_advance L padding s) = st_poffset s).
  { intros s. unfold align_and_advance. destruct (_ =? _); reflexivity. }
  assert (H0 : rd 0 (st_poffset st) (st_index st) = 0) by (apply Hc; lia).
  unfold parambuf_step in Hstep.
  destruct (ecxt_param_list_info econtext) as [param_info |].
  2:{ injection Hstep as <-. rewrite Ha. exact H0. }
  destruct ((0 <? paramid param) && (paramid param <=? numParams param_info)).
  2:{ injection Hstep as <-. rewrite Ha. exact H0. }
  set (s1 := match paramFetch param_info with
             | Some hook => _
             | None => st
             end) in Hstep.
  assert (Hs1 : st_index s1 = st_index st /\ st_poffset s1 = st_poffset st).
  { unfold s1. destruct (paramFetch param_info); [| auto].
    destruct (OidIsValid _); auto. }
  destruct Hs1 as [Hi1 Hp1].
  destruct (negb (OidIsValid _)).
  { injection Hstep as <-. cbn. rewrite Hi1. apply rd_wr_zero. }
  destruct (negb (_ =? paramtype param)); [discriminate |].
  destruct (prm_isnull _).
  { injection Hstep as <-. rewrite Ha. cbn. rewrite Hi1. apply rd_wr_zero. }
  destruct (_ =? 0); [discriminate |].
  destruct (0 <? _); injection Hstep as <-; rewrite Ha; cbn; rewrite Hp1; exact H0.
Qed.

(** X13: a [Param] node never gets an offset.  Whatever the parameter
    list holds for it, a value or null, resolvable or not, in every buffer
    [pgstrom_create_kern_parambuf] returns the slot of a [Param] node is 0,
    the mark of a null parameter: the branch for a parameter with a value
    appends the bytes of the value and leaves the slot as the initial
    [memset] made it. *)
Theorem param_slot_is_zero (L : layout) (get_typlen : Z -> Z) (padding : list byte)
    (econtext : ExprContext) (pre post : list Node) (param : Param)
    (buf : kern_parambuf) :
  pgstrom_create_kern_parambuf L get_typlen padding (pre ++ T_Param param :: post) econtext
  = Ok buf ->
  rd 0 (kp_poffset buf) (Z.of_nat (length pre)) = 0.
Proof.
  intros Hbuf. unfold pgstrom_create_kern_parambuf in Hbuf.
  set (st0 := parambuf_init L econtext _) in Hbuf.
  rewrite loop_app in Hbuf.
  destruct (parambuf_loop L get_typlen padding econtext pre st0) as [st1 |] eqn:E;
    [| discriminate].
  cbn [bind parambuf_loop] in Hbuf.
  destruct (parambuf_step L get_typlen padding econtext st1 (T_Param param))
    as [st2 |] eqn:E2; [| discriminate].
  cbn [bind] in Hbuf.
  destruct (parambuf_loop L get_typlen padding econtext post st2) as [st3 |] eqn:E3;
    [| discriminate].
  cbn [bind] in Hbuf. injection Hbuf as <-. cbn [kp_poffset].
  destruct (loop_reaches _ _ _ _ _ _ _ E) as [Hi1 Hc].
  specialize (Hc (init_slots_clear L econtext _)).
  assert (Hi0 : st_index st0 = 0) by reflexivity.
  destruct (step_shape _ _ _ _ _ _ _ E2) as [Hi2 _].
  rewrite (loop_keeps_below _ _ _ _ _ _ _ (Z.of_nat (length pre)) E3) by lia.
  replace (Z.of_nat (length pre)) with (st_index st1) by lia.
  apply (param_step_slot L get_typlen padding econtext st1 st2 param E2 Hc).
Qed.

Lemma param_slot_is_zero_witness :
  exists buf,
    pgstrom_create_kern_parambuf layout_x86_64 (fun _ => 4) (repeat xff 16)
      ([T_Const (int4_const 7)] ++ T_Param param_one_int4 :: []) econtext_one_int4
    = Ok buf /\
    rd 0 (kp_poffset buf) (Z.of_nat (length [T_Const (int4_const 7)])) = 0.
Proof.
  eexists. split; [reflexivity |].
  apply (param_slot_is_zero layout_x86_64 (fun _ => 4) (repeat xff 16) econtext_one_int4
           [T_Const (int4_const 7)] [] param_one_int4).
  reflexivity.
Defined.

Lemma const_loop_ok (L : layout) (get_typlen : Z -> Z) (padding : list byte)
    (econtext : ExprContext) (consts : list Const) :
  forall st, exists st',
    parambuf_loop L get_typlen padding econtext (map T_Const consts) st = Ok st'.
Proof.
  induction consts as [| con consts IH]; intros st; cbn [map parambuf_loop].
  - eexists. reflexivity.
  - destruct (const_step_shape L get_typlen padding econtext st con) as (st1 & _ & -> & _).
    cbn [bind]. apply IH.
Qed.

Lemma const_loop_params (L : layout) (get_typlen : Z -> Z) (padding : list byte)
    (econtext : ExprContext) (consts : list Const) :
  forall st st',
    parambuf_loop L get_typlen padding econtext (map T_Const consts) st = Ok st' ->
    st_params st' = st_params st.
Proof.
  induction consts as [| con consts IH]; intros st st' E; cbn [map parambuf_loop] in E.
  - injection E as <-. reflexivity.
  - cbn [parambuf_step] in E. cbn [bind] in E. rewrite (IH _ _ E).
    unfold align_and_advance.
    destruct (_ =? _); destruct (constisnull con); try destruct (0 <? constlen con);
      reflexivity.
Qed.

(** X14: a node that is neither a constant nor a parameter.  A list with
    such a node yields no buffer, and when only constants stand before the
    node the call raises the error for an unexpected node. *)
Theorem parambuf_unexpected_node (L : layout) (get_typlen : Z -> Z)
    (padding : list byte) (econtext : ExprContext) (pre post : list Node)
    (consts : list Const) (tag : Z) :
  (exists e,
     pgstrom_create_kern_parambuf L get_typlen padding (pre ++ T_other tag :: post) econtext
     = Err e) /\
  pgstrom_create_kern_parambuf L get_typlen padding
    (map T_Const consts ++ T_other tag :: post) econtext
  = Err ERR_unexpected_node.
Proof.
  split.
  - unfold pgstrom_create_kern_parambuf. rewrite loop_app.
    destruct (parambuf_loop L get_typlen padding econtext pre _) as [st1 | e];
      cbn; eexists; reflexivity.
  - unfold pgstrom_create_kern_parambuf. rewrite loop_app.
    destruct (const_loop_ok L get_typlen padding econtext consts
                (parambuf_init L econtext
                   (Z.of_nat (length (map T_Const consts ++ T_other tag :: post)))))
      as [st1 ->].
    reflexivity.
Qed.

(** X15: the safety check on the type of a parameter.  When the entry of
    the parameter list a [Param] node refers to has a valid type that is
    not the type of the node, and no fetch hook is installed, the call
    raises the datatype mismatch, also when the entry is null; constants
    before the node do not change this. *)
Theorem parambuf_datatype_mismatch (L : layout) (get_typlen : Z -> Z)
    (padding : list byte) (econtext : ExprContext) (consts : list Const)
    (post : list Node) (param_info : ParamListInfoData) (param : Param) :
  ecxt_param_list_info econtext = Some param_info ->
  paramFetch param_info = None ->
  0 < paramid param <= numParams param_info ->
  OidIsValid (prm_ptype (rd default_prm (params param_info) (paramid param - 1))) = true ->
  prm_ptype (rd default_prm (params param_info) (paramid param - 1)) <> paramtype param ->
  pgstrom_create_kern_parambuf L get_typlen padding
    (map T_Const consts ++ T_Param param :: post) econtext
  = Err ERR_datatype_mismatch.
Proof.
  intros Hinfo Hhook Hid Hvalid Hne.
  unfold pgstrom_create_kern_parambuf. rewrite loop_app.
  set (st0 := parambuf_init L econtext _).
  destruct (const_loop_ok L get_typlen padding econtext consts st0) as [st1 E1].
  rewrite E1. cbn [bind parambuf_loop].
  assert (Hparams : st_params st1 = params param_info).
  { rewrite (const_loop_params _ _ _ _ _ _ _ E1).
    unfold st0, parambuf_init. cbn [st_params]. rewrite Hinfo. reflexivity. }
  unfold parambuf_step. rewrite Hinfo, Hhook.
  assert (E : (0 <? paramid param) && (paramid param <=? numParams param_info) = true).
  { apply andb_true_iff. split; [apply Z.ltb_lt | apply Z.leb_le]; lia. }
  rewrite E, Hparams, Hvalid. cbn [negb].
  assert (En : (prm_ptype (rd default_prm (params param_info) (paramid param - 1))
                =? paramtype param) = false) by (apply Z.eqb_neq; exact Hne).
  rewrite En. reflexivity.
Qed.

Lemma parambuf_datatype_mismatch_witness :
  pgstrom_create_kern_parambuf layout_x86_64 (fun _ => 4) (repeat xff 16)
    (map T_Const [int4_const 7] ++ T_Param {| paramid := 1; paramtype := 25 |} :: [])
    econtext_one_int4
  = Err ERR_datatype_mismatch.
Proof.
  apply (parambuf_datatype_mismatch layout_x86_64 (fun _ => 4) (repeat xff 16)
           econtext_one_int4 [int4_const 7] []
           {| numParams := 1;
              params := [{| prm_value := 42; prm_isnull := false; prm_ptype := 23;
                            prm_data := [] |}];
              paramFetch := None |}
           {| paramid := 1; paramtype := 25 |}).
  - reflexivity.
  - reflexivity.
  - cbn. lia.
  - reflexivity.
  - vm_compute. congruence.
Defined.

(** *** The length of the buffer *)

Lemma align_and_advance_facts (L : layout) (padding : list byte) (s : parambuf_state) :
  (exists pad, st_str (align_and_advance L padding s) = st_str s ++ pad) /\
  length (st_poffset (align_and_advance L padding s)) = length (st_poffset s) /\
  (layout_ok L -> Z.of_nat (length padding) = STROMALIGN_LEN L ->
   str_len (align_and_advance L padding s) < 2 ^ 40 ->
   STROMALIGN L (str_len (align_and_advance L padding s))
   = str_len (align_and_advance L padding s)).
Proof.
  assert (Hext : exists pad, st_str (align_and_advance L padding s) = st_str s ++ pad).
  { unfold align_and_advance. destruct (_ =? _); cbn.
    - exists []. rewrite app_nil_r. reflexivity.
    - eexists. reflexivity. }
  split; [exact Hext | split].
  - unfold align_and_advance. destruct (_ =? _); reflexivity.
  - intros HL Hpad Hlen. destruct Hext as [pad Hext].
    assert (Hl1 : str_len s < 2 ^ 40).
    { unfold str_len in *. rewrite Hext, length_app in Hlen. lia. }
    destruct (align_and_advance_spec L padding s HL Hpad Hl1) as (Hl2 & _).
    assert (H0 : 0 <= str_len s) by (unfold str_len; lia).
    destruct (STROMALIGN_facts L (str_len s) HL ltac:(lia)) as [_ Hidem].
    rewrite Hl2. exact Hidem.
Qed.

(** A round extends the buffer, keeps the number of slots, and leaves the
    length a multiple of the alignment unit if it found it so. *)
Lemma step_length (L : layout) (get_typlen : Z -> Z) (padding : list byte)
    (econtext : ExprContext) (st st' : parambuf_state) (node : Node) :
  parambuf_step L get_typlen padding econtext st node = Ok st' ->
  (exists tail, st_str st' = st_str st ++ tail) /\
  length (st_poffset st') = length (st_poffset st) /\
  (layout_ok L -> Z.of_nat (length padding) = STROMALIGN_LEN L ->
   str_len st' < 2 ^ 40 ->
   STROMALIGN L (str_len st) = str_len st ->
   STROMALIGN L (str_len st') = str_len st').
Proof.
  assert (Hvia : forall s added,
            st_str s = st_str st ++ added ->
            length (st_poffset s) = length (st_poffset st) ->
            (exists tail, st_str (align_and_advance L padding s) = st_str st ++ tail) /\
            length (st_poffset (align_and_advance L padding s)) = length (st_poffset st) /\
            (layout_ok L -> Z.of_nat (length padding) = STROMALIGN_LEN L ->
             str_len (align_and_advance L padding s) < 2 ^ 40 ->
             STROMALIGN L (str_len st) = str_len st ->
             STROMALIGN L (str_len (align_and_advance L padding s))
             = str_len (align_and_advance L padding s))).
  { intros s added Hs Hp.
    destruct (align_and_advance_facts L padding s) as ((pad & Hpad) & Hlen & Hal).
    split; [exists (added ++ pad); rewrite Hpad, Hs, <- app_assoc; reflexivity |].
    split; [rewrite Hlen; exact Hp |]. intros HL Hp' Hb _. apply Hal; assumption. }
  unfold parambuf_step. destruct node as [con | param | tag]; [| | discriminate].
  - intros [= <-].
    destruct (constisnull con).
    + apply (Hvia _ []); cbn; [rewrite app_nil_r; reflexivity | apply length_wr].
    + destruct (0 <? constlen con); eapply Hvia; cbn; try reflexivity; apply length_wr.
  - destruct (ecxt_param_list_info econtext) as [param_info |].
    2:{ intros [= <-]. apply (Hvia _ []); [rewrite app_nil_r |]; reflexivity. }
    destruct ((0 <? paramid param) && (paramid param <=? numParams param_info)).
    2:{ intros [= <-]. apply (Hvia _ []); [rewrite app_nil_r |]; reflexivity. }
    set (s1 := match paramFetch param_info with
               | Some hook => _
               | None => st
               end).
    assert (Hs1 : st_str s1 = st_str st /\ st_poffset s1 = st_poffset st).
    { unfold s1. destruct (paramFetch param_info); [| auto].
      destruct (OidIsValid _); auto. }
    destruct Hs1 as [Hstr1 Hp1].
    destruct (negb (OidIsValid _)).
    { intros [= <-]. cbn. rewrite Hstr1, Hp1, length_wr.
      split; [exists []; rewrite app_nil_r; reflexivity |].
      split; [reflexivity |]. intros _ _ _ Hal. unfold str_len in *. cbn.
      rewrite Hstr1. exact Hal. }
    destruct (negb (_ =? paramtype param)); [discriminate |].
    destruct (prm_isnull _).
    { intros [= <-]. apply (Hvia _ []); cbn;
        [rewrite Hstr1, app_nil_r; reflexivity | rewrite Hp1; apply length_wr]. }
    destruct (_ =? 0); [discriminate |].
    destruct (0 <? _); intros [= <-]; eapply Hvia; cbn;
      try (rewrite Hstr1; reflexivity); rewrite Hp1; reflexivity.
Qed.

Lemma loop_length (L : layout) (get_typlen : Z -> Z) (padding : list byte)
    (econtext : ExprContext) (nodes : list Node) :
  layout_ok L -> Z.of_nat (length padding) = STROMALIGN_LEN L ->
  forall st st',
    parambuf_loop L get_typlen padding econtext nodes st = Ok st' ->
    (exists tail, st_str st' = st_str st ++ tail) /\
    length (st_poffset st') = length (st_poffset st) /\
    (str_len st' < 2 ^ 40 ->
     STROMALIGN L (str_len st) = str_len st ->
     STROMALIGN L (str_len st') = str_len st').
Proof.
  intros HL Hpad. induction nodes as [| node nodes IH]; intros st st' Hloop;
    cbn [parambuf_loop] in Hloop.
  - injection Hloop as <-.
    split; [exists []; rewrite app_nil_r; reflexivity | auto].
  - destruct (parambuf_step L get_typlen padding econtext st node) as [st1 |] eqn:E;
      [| discriminate].
    cbn [bind] in Hloop.
    destruct (step_length _ _ _ _ _ _ _ E) as ((t1 & Ht1) & Hp1 & Hal1).
    destruct (IH st1 st' Hloop) as ((t2 & Ht2) & Hp2 & Hal2).
    split; [exists (t1 ++ t2); rewrite Ht2, Ht1, <- app_assoc; reflexivity |].
    split; [rewrite Hp2; exact Hp1 |].
    intros Hb Hal. apply Hal2; [exact Hb |]. apply Hal1; auto.
    unfold str_len in *. rewrite Ht2, length_app in Hb. lia.
Qed.

(** X16: the closing assertion of [pgstrom_create_kern_parambuf] holds.
    For every list of nodes for which the call returns a buffer smaller
    than 4 GB, constants and parameters in any mix: the recorded length is
    the size of the buffer and a multiple of the alignment unit, the
    recorded count is the length of the list, and there is one slot per
    node.  The round that skips the padding (a parameter without a type)
    appends nothing, so it cannot break the alignment. *)
Theorem parambuf_length_aligned (L : layout) (get_typlen : Z -> Z)
    (padding : list byte) (econtext : ExprContext) (used_params : list Node)
    (buf : kern_parambuf) :
  layout_ok L -> Z.of_nat (length padding) = STROMALIGN_LEN L ->
  Z.of_nat (length used_params) < 2 ^ 20 ->
  pgstrom_create_kern_parambuf L get_typlen padding used_params econtext = Ok buf ->
  Z.of_nat (length (kp_data buf)) < 2 ^ 32 ->
  kp_length buf = Z.of_nat (length (kp_data buf)) /\
  STROMALIGN L (kp_length buf) = kp_length buf /\
  kp_nparams buf = Z.of_nat (length used_params) /\
  length (kp_poffset buf) = length used_params.
Proof.
  intros HL Hpad Hn Hbuf Hsize.
  unfold pgstrom_create_kern_parambuf in Hbuf.
  set (n := Z.of_nat (length used_params)) in *.
  destruct (parambuf_loop _ _ _ _ _ _) as [st' |] eqn:Eloop; [| discriminate].
  cbn [bind] in Hbuf. injection Hbuf as <-.
  cbn [kp_nparams kp_length kp_poffset kp_data] in *.
  destruct (parambuf_head_facts L n HL ltac:(lia)) as [Hh Hha].
  destruct (loop_length L get_typlen padding econtext used_params HL Hpad _ _ Eloop)
    as (_ & Hp & Hal).
  fold (str_len st') in *.
  assert (H0 : 0 <= str_len st') by (unfold str_len; lia).
  rewrite (wrap32_small (str_len st')) by lia.
  rewrite (wrap32_small n) by lia.
  split; [reflexivity | split; [| split; [reflexivity |]]].
  - apply Hal; [lia |].
    unfold str_len, parambuf_init. cbn [st_str]. rewrite repeat_length.
    pose proof HL as (_ & _ & _ & _ & _ & Hpo & Hps).
    assert (0 <= parambuf_head L n) by nia.
    rewrite Z2Nat.id by lia. exact Hha.
  - rewrite Hp. cbn [parambuf_init st_poffset]. rewrite repeat_length. lia.
Qed.

Lemma parambuf_length_aligned_witness :
  exists buf,
    pgstrom_create_kern_parambuf layout_x86_64 (fun _ => 4) (repeat xff 16)
      [T_Const (int4_const 7); T_Param param_one_int4; T_Const null_const]
      econtext_one_int4 = Ok buf /\
    kp_length buf = Z.of_nat (length (kp_data buf)) /\
    STROMALIGN layout_x86_64 (kp_length buf) = kp_length buf /\
    kp_nparams buf
    = Z.of_nat (length [T_Const (int4_const 7); T_Param param_one_int4;
                        T_Const null_const]) /\
    length (kp_poffset buf)
    = length [T_Const (int4_const 7); T_Param param_one_int4; T_Const null_const].
Proof.
  eexists. split; [reflexivity |].
  apply (parambuf_length_aligned layout_x86_64 (fun _ => 4) (repeat xff 16)
           econtext_one_int4
           [T_Const (int4_const 7); T_Param param_one_int4; T_Const null_const]).
  - layout_evaluated.
  - reflexivity.
  - vm_compute. reflexivity.
  - reflexivity.
  - vm_compute. reflexivity.
Defined.
(** ** The devices kept by the collection *)

Lemma lookup_wr_same {A} (a : list A) (i : Z) (v : A) :
  0 <= i < Z.of_nat (length a) -> wr a i v !! Z.to_nat i = Some v.
Proof.
  intros Hi. unfold wr. destruct (i <? 0) eqn:E; [apply Z.ltb_lt in E; lia |].
  apply list_lookup_insert_eq. lia.
Qed.

Lemma lookup_wr_same_nat {A} (a : list A) (k : nat) (v : A) :
  (k < length a)%nat -> wr a (Z.of_nat k) v !! k = Some v.
Proof.
  intros Hk. pose proof (lookup_wr_same a (Z.of_nat k) v ltac:(lia)) as H.
  rewrite Nat2Z.id in H. exact H.
Qed.

Lemma lookup_wr_other {A} (a : list A) (i : Z) (v : A) (k : nat) :
  0 <= i -> k <> Z.to_nat i -> wr a i v !! k = a !! k.
Proof.
  intros Hi Hne. unfold wr. destruct (i <? 0); [reflexivity |].
  apply list_lookup_insert_ne. lia.
Qed.

Lemma rd_lookup {A} (d : A) (a : list A) (i : Z) (x : A) :
  0 <= i -> a !! Z.to_nat i = Some x -> rd d a i = x.
Proof.
  intros Hi Hx. unfold rd. destruct (i <? 0) eqn:E; [apply Z.ltb_lt in E; lia |].
  rewrite nth_lookup, Hx. reflexivity.
Qed.

Lemma ids_S (m : nat) : ids (Z.of_nat (S m)) = ids (Z.of_nat m) ++ [Z.of_nat m].
Proof. unfold ids. rewrite !Nat2Z.id, seq_S, map_app. reflexivity. Qed.

(** The array while the loop runs: the first [j] entries are the kept
    devices among the first [m], in their order and with their cores set,
    and the entries from [m] on are as the loop found them. *)
Lemma collect_loop_inv (attrs : list DevAttributes) (cc0 mt0 : Z) (m : nat) :
  (m <= length attrs)%nat ->
  let st := fold_left collect_device (ids (Z.of_nat m))
              {| devAttrs := attrs; numDevAttrs := 0;
                 devComputeCapability := cc0;
                 devBaselineMaxThreadsPerBlock := mt0 |} in
  let kept := List.filter supported (take m attrs) in
  length (devAttrs st) = length attrs /\
  numDevAttrs st = Z.of_nat (length kept) /\
  (forall k, (k < length kept)%nat -> devAttrs st !! k = map with_cores kept !! k) /\
  (forall k, (m <= k)%nat -> devAttrs st !! k = attrs !! k).
Proof.
  induction m as [| m IH]; intros Hm.
  - cbv zeta. rewrite take_0. cbn. repeat split; auto. intros k Hk. lia.
  - specialize (IH ltac:(lia)). cbv zeta in IH |- *.
    rewrite ids_S, fold_left_app. cbn [fold_left].
    set (st := fold_left collect_device (ids (Z.of_nat m)) _) in *.
    destruct IH as (Hlen & Hj & Hkept & Hrest).
    destruct (attrs !! m) as [d |] eqn:Ed; [| apply lookup_ge_None in Ed; lia].
    rewrite (take_S_r _ _ _ Ed), List.filter_app. cbn [List.filter].
    set (kept := List.filter supported (take m attrs)) in *.
    assert (Hkm : (length kept <= m)%nat).
    { unfold kept. etransitivity; [apply filter_length_le |]. rewrite length_take. lia. }
    assert (Hd : rd dev_zero (devAttrs st) (Z.of_nat m) = d).
    { apply rd_lookup; [lia |]. rewrite Nat2Z.id, Hrest by lia. exact Ed. }
    unfold collect_device. rewrite Hd.
    assert (Hs : supported d = negb (COMPUTE_CAPABILITY_MAJOR d <? 6)) by reflexivity.
    rewrite Hs.
    destruct (COMPUTE_CAPABILITY_MAJOR d <? 6) eqn:Emaj; cbn [negb].
    + rewrite app_nil_r. repeat split; auto. intros k Hk. apply Hrest. lia.
    + fold (with_cores d).
      set (arr := wr (devAttrs st) (Z.of_nat m) (with_cores d)).
      assert (Hla : length arr = length attrs) by (unfold arr; rewrite length_wr; exact Hlen).
      assert (Harr_m : rd dev_zero arr (Z.of_nat m) = with_cores d).
      { apply rd_wr_same. lia. }
      rewrite Harr_m, Hj.
      set (arr2 := if Z.of_nat m =? Z.of_nat (length kept) then arr
                   else wr arr (Z.of_nat (length kept)) (with_cores d)).
      cbn [devAttrs numDevAttrs].
      assert (Hl2 : length arr2 = length attrs).
      { unfold arr2. destruct (_ =? _); [exact Hla | rewrite length_wr; exact Hla]. }
      assert (Hother : forall k, k <> m -> k <> length kept -> arr2 !! k = devAttrs st !! k).
      { intros k Hk1 Hk2. unfold arr2, arr.
        destruct (_ =? _); rewrite ?lookup_wr_other by lia; reflexivity. }
      assert (Hat : arr2 !! length kept = Some (with_cores d)).
      { unfold arr2. destruct (Z.of_nat m =? Z.of_nat (length kept)) eqn:E.
        - apply Z.eqb_eq in E. assert (Heq : length kept = m) by lia. rewrite Heq.
          unfold arr. apply lookup_wr_same_nat. lia.
        - apply lookup_wr_same_nat. lia. }
      rewrite length_app, map_app. cbn [length map].
      split; [exact Hl2 | split; [lia | split]].
      * intros k Hk.
        destruct (decide (k = length kept)) as [-> | Hne].
        -- rewrite Hat. rewrite lookup_app_r by (rewrite length_map; lia).
           rewrite length_map, Nat.sub_diag. reflexivity.
        -- rewrite Hother by lia. rewrite Hkept by lia.
           rewrite lookup_app_l by (rewrite length_map; lia). reflexivity.
      * intros k Hk. rewrite Hother by lia. apply Hrest. lia.
Qed.

(** X17: the devices [pgstrom_collect_gpu_device] keeps.  The second loop
    raises the error for no supported device exactly when no device has a
    compute capability of 6.0 or later; otherwise [numDevAttrs] is the
    number of such devices and the first [numDevAttrs] entries of
    [devAttrs] are these devices, in the order [gpuinfo] reported them,
    each with its number of cores per multiprocessor set. *)
Theorem collect_keeps_supported_devices (attrs : list DevAttributes) :
  let kept := List.filter supported attrs in
  match pgstrom_collect_gpu_device attrs with
  | Err e => e = ERR_no_supported_device /\ kept = []
  | Ok st =>
      kept <> [] /\
      numDevAttrs st = Z.of_nat (length kept) /\
      take (length kept) (devAttrs st) = map with_cores kept
  end.
Proof.
  intros kept. unfold pgstrom_collect_gpu_device.
  pose proof (collect_loop_inv attrs UINT_MAX UINT_MAX (length attrs) ltac:(lia)) as H.
  cbv zeta in H. rewrite take_ge in H by lia. fold kept in H.
  destruct H as (Hlen & Hj & Hkept & _).
  set (st := fold_left collect_device _ _) in *.
  destruct (numDevAttrs st =? 0) eqn:E.
  - apply Z.eqb_eq in E. split; [reflexivity |].
    destruct kept; [reflexivity | cbn in Hj; lia].
  - apply Z.eqb_neq in E. split; [intros Hk; rewrite Hk in Hj; cbn in Hj; lia |].
    split; [exact Hj |].
    assert (Hkl : (length kept <= length attrs)%nat) by apply filter_length_le.
    apply list_eq. intros k. rewrite lookup_take.
    destruct (decide (k < length kept)%nat) as [Hk | Hk].
    + apply Hkept. exact Hk.
    + symmetry. apply lookup_ge_None. rewrite length_map. lia.
Qed.

Lemma cores_per_mpu_supported (major minor : Z) :
  6 <= major -> In (cores_per_mpu major minor) [64; 128; 0].
Proof.
  intros Hm. unfold cores_per_mpu.
  assert (E1 : (major =? 1) = false) by (apply Z.eqb_neq; lia).
  assert (E2 : (major =? 2) = false) by (apply Z.eqb_neq; lia).
  assert (E3 : (major =? 3) = false) by (apply Z.eqb_neq; lia).
  assert (E5 : (major =? 5) = false) by (apply Z.eqb_neq; lia).
  rewrite E1, E2, E3, E5.
  destruct (major =? 6), (minor =? 0), (major =? 7); cbn; auto.
Qed.

(** X18: what the SQL functions on a device can report after the
    collection.  For every device index the check of the functions lets
    through, [pgstrom_gpu_cc_major] reports 6 or more and
    [pgstrom_gpu_num_cuda_cores] the number of multiprocessors times 64,
    128 or 0: the core counts the collection has for the generations 1, 2,
    3 and 5 (8, 32, 48, 192, 128 per multiprocessor, and -1) are never
    stored for a device in use. *)
Theorem device_functions_after_collect (attrs : list DevAttributes) (st : device_state)
    (cuda_dindex : Z) :
  pgstrom_collect_gpu_device attrs = Ok st ->
  0 <= cuda_dindex < numDevAttrs st ->
  exists dattr,
    In dattr attrs /\ 6 <= COMPUTE_CAPABILITY_MAJOR dattr /\
    pgstrom_gpu_cc_major st cuda_dindex = Ok (COMPUTE_CAPABILITY_MAJOR dattr) /\
    exists cores,
      In cores [64; 128; 0] /\
      pgstrom_gpu_num_cuda_cores st cuda_dindex
      = Ok (to_int32 (cores * MULTIPROCESSOR_COUNT dattr)).
Proof.
  intros Hc Hidx. unfold pgstrom_collect_gpu_device in Hc.
  pose proof (collect_loop_inv attrs UINT_MAX UINT_MAX (length attrs) ltac:(lia)) as H.
  cbv zeta in H. rewrite take_ge in H by lia.
  destruct H as (Hlen & Hj & Hkept & _).
  set (st' := fold_left collect_device _ _) in *.
  destruct (numDevAttrs st' =? 0); [discriminate |]. injection Hc as <-.
  set (kept := List.filter supported attrs) in *.
  assert (Hk : (Z.to_nat cuda_dindex < length kept)%nat) by lia.
  destruct (kept !! Z.to_nat cuda_dindex) as [d |] eqn:Ed;
    [| apply lookup_ge_None in Ed; lia].
  assert (Hin : In d attrs /\ supported d = true).
  { apply List.filter_In. fold kept. apply list_elem_of_In.
    apply (list_elem_of_lookup_2 _ _ _ Ed). }
  destruct Hin as [Hin Hsup].
  unfold supported in Hsup. apply negb_true_iff, Z.ltb_ge in Hsup.
  assert (Hentry : device_entry st' cuda_dindex = Ok (with_cores d)).
  { unfold device_entry.
    assert (E : (cuda_dindex <? 0) || (numDevAttrs st' <=? cuda_dindex) = false).
    { apply orb_false_iff. split; [apply Z.ltb_ge | apply Z.leb_gt]; lia. }
    rewrite E. f_equal. apply rd_lookup; [lia |].
    rewrite Hkept by exact Hk. rewrite list_lookup_fmap, Ed. reflexivity. }
  exists d. split; [exact Hin | split; [exact Hsup |]].
  unfold pgstrom_gpu_cc_major, pgstrom_gpu_num_cuda_cores. rewrite Hentry. cbn [bind].
  split; [reflexivity |].
  exists (cores_per_mpu (COMPUTE_CAPABILITY_MAJOR d) (COMPUTE_CAPABILITY_MINOR d)).
  split; [apply cores_per_mpu_supported; exact Hsup | reflexivity].
Qed.

Lemma device_functions_after_collect_witness :
  exists st,
    pgstrom_collect_gpu_device devices_mixed = Ok st /\
    exists dattr,
      In dattr devices_mixed /\ 6 <= COMPUTE_CAPABILITY_MAJOR dattr /\
      pgstrom_gpu_cc_major st 1 = Ok (COMPUTE_CAPABILITY_MAJOR dattr) /\
      exists cores,
        In cores [64; 128; 0] /\
        pgstrom_gpu_num_cuda_cores st 1
        = Ok (to_int32 (cores * MULTIPROCESSOR_COUNT dattr)).
Proof.
  eexists. split; [reflexivity |].
  apply (device_functions_after_collect devices_mixed _ 1).
  - reflexivity.
  - vm_compute. split; congruence.
Defined.

(** *** The baseline over the kept devices *)





(** ** The largest block size *)

Lemma to_int32_small (x : Z) : 0 <= x < 2 ^ 31 -> to_int32 x = x.
Proof.
  intros Hx. unfold to_int32. rewrite wrap32_small by lia.
  assert (E : (x <? 2 ^ 31) = true) by (apply Z.ltb_lt; lia).
  rewrite E. reflexivity.
Qed.

Lemma ceil_div_covers (n b : Z) :
  0 <= n -> 0 < b -> n <= (n + b - 1) / b * b < n + b.
Proof.
  intros Hn Hb.
  pose proof (Z.div_mod (n + b - 1) b ltac:(lia)) as Hd.
  pose proof (Z.mod_pos_bound (n + b - 1) b Hb) as Hm.
  nia.
Qed.

(** X20: the launch size [largest_workgroup_size] hands out.  For
    attribute values and sizes in the range of a non-negative [int], a
    shared-memory demand at the largest block size that fits a [cl_int],
    and at most [2 ^ 63] items: a block size that is handed out is
    positive and no more than the largest block size of the kernel, the
    static, per-block and per-thread shared memory at that block size fit
    the limit of the device, a block size that had to be cut is a multiple
    of the warp size, and grid size times block size covers all items with
    less than one block to spare.  The call fails for shared memory only
    when the demand does not fit even at the warp size or cannot be cut,
    and for the item count only above [INT_MAX] items. *)
Theorem largest_workgroup_size_fits (maxBlockSize staticShmemSize warpSize maxShmemSize : Z)
    (nitems dynamic_shmem_per_block dynamic_shmem_per_thread : Z) :
  0 < maxBlockSize < 2 ^ 31 -> 0 < warpSize < 2 ^ 31 ->
  0 <= staticShmemSize < 2 ^ 31 -> 0 <= maxShmemSize < 2 ^ 31 ->
  0 <= dynamic_shmem_per_block < 2 ^ 31 -> 0 <= dynamic_shmem_per_thread < 2 ^ 31 ->
  staticShmemSize + dynamic_shmem_per_block + dynamic_shmem_per_thread * maxBlockSize
    < 2 ^ 31 ->
  0 <= nitems <= 2 ^ 63 ->
  let demand block :=
    staticShmemSize + dynamic_shmem_per_block + dynamic_shmem_per_thread * block in
  match largest_workgroup_size maxBlockSize staticShmemSize warpSize maxShmemSize
          nitems dynamic_shmem_per_block dynamic_shmem_per_thread with
  | Ok (grid, block) =>
      0 < block <= maxBlockSize /\
      demand block <= maxShmemSize /\
      (block = maxBlockSize \/ block mod warpSize = 0) /\
      nitems <= grid * block < nitems + block
  | Err ERR_shared_memory =>
      maxShmemSize < demand maxBlockSize /\
      (dynamic_shmem_per_thread = 0 \/ maxShmemSize < demand warpSize)
  | Err ERR_too_large_nitems => INT_MAX < nitems
  end.
Proof.
  intros Hmb Hw Hs Hmax Hpb Hpt Htot Hn demand.
  unfold largest_workgroup_size.
  assert (Hptmb : 0 <= dynamic_shmem_per_thread * maxBlockSize) by nia.
  assert (Hptw : 0 <= dynamic_shmem_per_thread * warpSize < 2 ^ 62) by nia.
  rewrite (wrap64_small staticShmemSize) by lia.
  rewrite (wrap64_small maxBlockSize) by lia.
  rewrite (wrap64_small warpSize) by lia.
  rewrite (wrap64_small maxShmemSize) by lia.
  rewrite (wrap64_small (staticShmemSize + dynamic_shmem_per_block)) by lia.
  rewrite (wrap64_small (dynamic_shmem_per_thread * maxBlockSize)) by lia.
  rewrite (wrap64_small (dynamic_shmem_per_thread * warpSize)) by lia.
  rewrite (wrap64_small (_ + dynamic_shmem_per_thread * maxBlockSize)) by lia.
  rewrite (wrap64_small (_ + dynamic_shmem_per_thread * warpSize)) by lia.
  rewrite (to_int32_small (_ + dynamic_shmem_per_thread * maxBlockSize)) by lia.
  fold (demand maxBlockSize). fold (demand warpSize).
  assert (Hlaunch : forall block,
            0 < block <= maxBlockSize -> demand block <= maxShmemSize ->
            (block = maxBlockSize \/ block mod warpSize = 0) ->
            match
              (if wrap64 (wrap64 block * INT_MAX) <? nitems
               then Err ERR_too_large_nitems
               else Ok (wrap64 (wrap64 (nitems + wrap64 block) - 1) / wrap64 block,
                        wrap64 block))
            with
            | Ok (grid, block) =>
                0 < block <= maxBlockSize /\
                demand block <= maxShmemSize /\
                (block = maxBlockSize \/ block mod warpSize = 0) /\
                nitems <= grid * block < nitems + block
            | Err ERR_shared_memory =>
                maxShmemSize < demand maxBlockSize /\
                (dynamic_shmem_per_thread = 0 \/ maxShmemSize < demand warpSize)
            | Err ERR_too_large_nitems => INT_MAX < nitems
            end).
  { intros block Hb Hfit Hmul. unfold INT_MAX.
    rewrite (wrap64_small block) by lia.
    rewrite (wrap64_small (block * _)) by nia.
    destruct (block * (2 ^ 31 - 1) <? nitems) eqn:E.
    - apply Z.ltb_lt in E. nia.
    - rewrite (wrap64_small (nitems + block)) by lia.
      destruct (Z.eq_dec nitems 0) as [-> | Hnz].
      + rewrite Z.add_0_l, (wrap64_small (block - 1)) by lia.
        rewrite Z.div_small by lia. repeat split; auto; lia.
      + rewrite (wrap64_small (nitems + block - 1)) by lia.
        pose proof (ceil_div_covers nitems block ltac:(lia) ltac:(lia)).
        repeat split; auto; lia. }
  destruct (maxShmemSize <? demand maxBlockSize) eqn:Eover.
  2:{ apply Z.ltb_ge in Eover. cbn [bind]. apply Hlaunch; auto; lia. }
  apply Z.ltb_lt in Eover.
  destruct (0 <? dynamic_shmem_per_thread) eqn:Ept; cbn [andb].
  2:{ apply Z.ltb_ge in Ept. cbn [bind]. split; [exact Eover | left; lia]. }
  apply Z.ltb_lt in Ept.
  destruct (demand warpSize <=? maxShmemSize) eqn:Ewarp.
  2:{ apply Z.leb_gt in Ewarp. cbn [bind]. split; [exact Eover | right; exact Ewarp]. }
  apply Z.leb_le in Ewarp. cbn [bind]. unfold demand in Ewarp, Eover.
  rewrite (to_int32_small (maxShmemSize - staticShmemSize)) by lia.
  rewrite (wrap64_small (maxShmemSize - staticShmemSize)) by lia.
  rewrite (wrap64_small (maxShmemSize - staticShmemSize - dynamic_shmem_per_block)) by lia.
  set (q := (maxShmemSize - staticShmemSize - dynamic_shmem_per_block)
            / dynamic_shmem_per_thread).
  assert (Hq : warpSize <= q /\ dynamic_shmem_per_thread * q
                              <= maxShmemSize - staticShmemSize - dynamic_shmem_per_block
                           /\ q < maxBlockSize).
  { unfold q. split; [apply Z.div_le_lower_bound; lia |].
    split; [apply Z.mul_div_le; lia |].
    apply Z.div_lt_upper_bound; lia. }
  destruct Hq as (Hq1 & Hq2 & Hq3).
  rewrite (to_int32_small q) by lia.
  rewrite Z.quot_div_nonneg by lia.
  assert (Hb : warpSize <= q / warpSize * warpSize <= q).
  { pose proof (Z.mul_div_le q warpSize ltac:(lia)).
    assert (1 <= q / warpSize) by (apply Z.div_le_lower_bound; lia).
    nia. }
  rewrite (to_int32_small (q / warpSize * warpSize)) by lia.
  apply Hlaunch.
  - lia.
  - unfold demand. nia.
  - right. apply Z.mod_mul. lia.
Qed.

Lemma largest_workgroup_size_fits_witness :
  let demand block := 0 + 0 + 16 * block in
  match largest_workgroup_size 1024 0 32 8192 100000 0 16 with
  | Ok (grid, block) =>
      0 < block <= 1024 /\
      demand block <= 8192 /\
      (block = 1024 \/ block mod 32 = 0) /\
      100000 <= grid * block < 100000 + block
  | Err ERR_shared_memory =>
      8192 < demand 1024 /\ (16 = 0 \/ 8192 < demand 32)
  | Err ERR_too_large_nitems => INT_MAX < 100000
  end.
Proof.
  apply (largest_workgroup_size_fits 1024 0 32 8192 100000 0 16); lia.
Defined.
(** ** The sort kernels exchange entries and nothing else *)

Lemma lookup_of_index {A} (l : list A) (i : Z) :
  0 <= i < Z.of_nat (length l) -> exists x, l !! Z.to_nat i = Some x.
Proof. intros Hi. apply lookup_lt_is_Some. lia. Qed.

(** The exchange of two cells of an array gives a permutation of it. *)
Lemma wr_swap_perm {A} (d : A) (l : list A) (i j : Z) :
  0 <= i < Z.of_nat (length l) -> 0 <= j < Z.of_nat (length l) ->
  Permutation (wr (wr l i (rd d l j)) j (rd d l i)) l.
Proof.
  intros Hi Hj.
  destruct (lookup_of_index l i Hi) as [x Hx].
  destruct (lookup_of_index l j Hj) as [y Hy].
  rewrite (rd_lookup d l i x) by (try lia; exact Hx).
  rewrite (rd_lookup d l j y) by (try lia; exact Hy).
  unfold wr.
  destruct (i <? 0) eqn:Ei; [apply Z.ltb_lt in Ei; lia |].
  destruct (j <? 0) eqn:Ej; [apply Z.ltb_lt in Ej; lia |].
  apply Permutation_insert_swap; assumption.
Qed.

Lemma rd_in_range (l : list Z) (i : Z) :
  Forall (fun v => 0 <= v < 2 ^ 32) l -> 0 <= rd 0 l i < 2 ^ 32.
Proof.
  intros Hall. unfold rd. destruct (i <? 0); [lia |].
  destruct (nth_in_or_default (Z.to_nat i) l 0) as [Hin | ->]; [| lia].
  apply (proj1 (List.Forall_forall _ _) Hall _ Hin).
Qed.

Lemma wrap32_to_int32_id (v : Z) : 0 <= v < 2 ^ 32 -> wrap32 (to_int32 v) = v.
Proof. intros Hv. rewrite to_int32_wrap. apply wrap32_small. exact Hv. Qed.

(** The index pair of a worker of the step kernel, for a power-of-two
    unit size: both indices are array positions, the first below the
    second. *)
Lemma step_indices_order (k : Z) (reversing : bool) (gid : Z) :
  1 <= k <= 32 -> 0 <= gid < 2 ^ 31 ->
  exists a b,
    0 <= a < b /\ b < 2 ^ 32 /\
    step_indices (2 ^ k) reversing gid = (to_int32 a, to_int32 b).
Proof.
  intros Hk Hg.
  destruct (step_wide_range k reversing gid Hk Hg) as (Hq & Hr & Hb & H2).
  assert (Hh : 0 < 2 ^ (k - 1)) by (apply pow2_pos; lia).
  exists (fst (step_wide k reversing gid)), (snd (step_wide k reversing gid)).
  split; [| split; [| apply step_indices_wide; assumption]].
  - unfold step_wide. cbn [fst snd].
    set (h := 2 ^ (k - 1)) in *. destruct reversing; nia.
  - unfold step_wide. cbn [fst snd].
    set (h := 2 ^ (k - 1)) in *. destruct reversing; nia.
Qed.

Lemma step_thread_permutes (keycomp : Z -> Z -> Z) (nitems k : Z) (reversing : bool)
    (gid : Z) (results : list Z) :
  1 <= k <= 32 -> 0 <= gid < 2 ^ 31 ->
  nitems = Z.of_nat (length results) -> nitems <= 2 ^ 31 ->
  Forall (fun v => 0 <= v < 2 ^ 32) results ->
  Permutation (gpusort_bitonic_step_thread keycomp nitems (2 ^ k) reversing gid results)
    results.
Proof.
  intros Hk Hg Hn Hn31 Hall.
  destruct (step_indices_order k reversing gid Hk Hg) as (a & b & Hab & Hb & Heq).
  unfold gpusort_bitonic_step_thread. rewrite Heq.
  rewrite to_int32_wrap, (wrap32_small b) by lia.
  destruct (nitems <=? b) eqn:E; [reflexivity |]. apply Z.leb_gt in E.
  rewrite (to_int32_small a), (to_int32_small b) by lia.
  destruct (0 <? keycomp _ _); [| reflexivity].
  rewrite !wrap32_to_int32_id by (apply rd_in_range; exact Hall).
  apply wr_swap_perm; lia.
Qed.

Lemma step_launch_perm (keycomp : Z -> Z -> Z) (grid lsz k : Z)
    (reversing : bool) (results : list Z) :
  1 <= k <= 32 -> grid * lsz <= 2 ^ 31 ->
  Z.of_nat (length results) <= 2 ^ 31 ->
  Forall (fun v => 0 <= v < 2 ^ 32) results ->
  Permutation (gpusort_bitonic_step keycomp grid lsz (2 ^ k) reversing results) results.
Proof.
  intros Hk Hgl Hn Hall. unfold gpusort_bitonic_step.
  apply (par_for_preserves
           (fun r => Permutation r results)); [| reflexivity].
  intros gid r Hgid Hperm.
  assert (Hlen : length r = length results) by (apply Permutation_length; exact Hperm).
  assert (Hr : Forall (fun v => 0 <= v < 2 ^ 32) r).
  { apply (Permutation_Forall (Permutation_sym Hperm)). exact Hall. }
  apply (perm_trans (l' := r)); [| exact Hperm].
  apply step_thread_permutes; auto; lia.
Qed.

(** X21: a launch of [gpusort_bitonic_step] loses no row.  For a
    power-of-two unit size, up to [2 ^ 31] workers and up to [2 ^ 31]
    entries that are [cl_uint] values, whatever the comparison answers:
    the array after the launch is a permutation of the array before it,
    of the same length and with [cl_uint] values again. *)
Theorem step_kernel_permutes (keycomp : Z -> Z -> Z) (grid lsz k : Z)
    (reversing : bool) (results : list Z) :
  1 <= k <= 32 -> grid * lsz <= 2 ^ 31 ->
  Z.of_nat (length results) <= 2 ^ 31 ->
  Forall (fun v => 0 <= v < 2 ^ 32) results ->
  let results' := gpusort_bitonic_step keycomp grid lsz (2 ^ k) reversing results in
  Permutation results' results /\
  length results' = length results /\
  Forall (fun v => 0 <= v < 2 ^ 32) results'.
Proof.
  intros Hk Hgl Hn Hall results'.
  pose proof (step_launch_perm keycomp grid lsz k reversing results Hk Hgl Hn Hall) as H.
  split; [exact H | split; [apply Permutation_length; exact H |]].
  apply (Permutation_Forall (Permutation_sym H)). exact Hall.
Qed.

Lemma step_kernel_permutes_witness :
  let results' := gpusort_bitonic_step (keycomp_of (fun x => x)) 2 2 (2 ^ 3) true
                    [5; 3; 8; 1; 9; 2; 7; 0] in
  Permutation results' [5; 3; 8; 1; 9; 2; 7; 0] /\
  length results' = length [5; 3; 8; 1; 9; 2; 7; 0] /\
  Forall (fun v => 0 <= v < 2 ^ 32) results'.
Proof.
  apply (step_kernel_permutes (keycomp_of (fun x => x)) 2 2 3 true
           [5; 3; 8; 1; 9; 2; 7; 0]).
  - lia.
  - lia.
  - cbn. lia.
  - repeat constructor; lia.
Defined.

(** *** Reading arrays piece by piece *)

Lemma list_eq_rd {A} (d : A) (l1 l2 : list A) :
  length l1 = length l2 ->
  (forall i, 0 <= i < Z.of_nat (length l1) -> rd d l1 i = rd d l2 i) ->
  l1 = l2.
Proof.
  intros Hlen Hrd. apply (nth_ext l1 l2 d d Hlen). intros n Hn.
  specialize (Hrd (Z.of_nat n) ltac:(lia)). unfold rd in Hrd.
  destruct (Z.of_nat n <? 0) eqn:E; [apply Z.ltb_lt in E; lia |].
  rewrite Nat2Z.id in Hrd. exact Hrd.
Qed.

Lemma rd_nth {A} (d : A) (l : list A) (i : Z) :
  0 <= i -> rd d l i = nth (Z.to_nat i) l d.
Proof.
  intros Hi. unfold rd. destruct (i <? 0) eqn:E; [apply Z.ltb_lt in E; lia | reflexivity].
Qed.

Lemma rd_app_l {A} (d : A) (l1 l2 : list A) (i : Z) :
  0 <= i < Z.of_nat (length l1) -> rd d (l1 ++ l2) i = rd d l1 i.
Proof. intros Hi. rewrite !rd_nth by lia. apply app_nth1. lia. Qed.

Lemma rd_app_r {A} (d : A) (l1 l2 : list A) (i : Z) :
  Z.of_nat (length l1) <= i -> rd d (l1 ++ l2) i = rd d l2 (i - Z.of_nat (length l1)).
Proof.
  intros Hi. rewrite !rd_nth by lia. rewrite app_nth2 by lia. f_equal. lia.
Qed.

Lemma rd_take {A} (d : A) (l : list A) (n : nat) (i : Z) :
  0 <= i < Z.of_nat n -> rd d (take n l) i = rd d l i.
Proof.
  intros Hi. rewrite !rd_nth by lia. rewrite !nth_lookup, lookup_take.
  rewrite decide_True by lia. reflexivity.
Qed.

Lemma rd_drop {A} (d : A) (l : list A) (n : nat) (i : Z) :
  0 <= i -> rd d (drop n l) i = rd d l (Z.of_nat n + i).
Proof.
  intros Hi. rewrite !rd_nth by lia. rewrite !nth_lookup, lookup_drop.
  do 2 f_equal. lia.
Qed.

Lemma rd_map_cval (l : list cell) (i : Z) :
  rd 0 (map cval l) i = cval (rd cell0 l i).
Proof.
  unfold rd. destruct (i <? 0); [reflexivity |].
  change 0 with (cval cell0) at 1. apply map_nth.
Qed.

Lemma take_wr {A} (l : list A) (n : nat) (i : Z) (v : A) :
  i < Z.of_nat n -> take n (wr l i v) = wr (take n l) i v.
Proof.
  intros Hi. unfold wr. destruct (i <? 0) eqn:E; [reflexivity |].
  apply Z.ltb_ge in E. apply take_insert_lt. lia.
Qed.

(** The cells below [n], as a collection, survive an exchange. *)
Lemma perm_swap_closed (n len : Z) (part : list Z) :
  0 <= n <= len ->
  swap_closed n (fun shm =>
    Z.of_nat (length shm) = len /\
    Permutation (map cval (take (Z.to_nat n) shm)) part).
Proof.
  intros Hn shm i0 i1 [Hlen HP] H0 H1. split; [rewrite !length_wr; exact Hlen |].
  rewrite !take_wr by lia.
  rewrite <- (rd_take cell0 shm (Z.to_nat n) i0) by lia.
  rewrite <- (rd_take cell0 shm (Z.to_nat n) i1) by lia.
  apply (perm_trans (l' := map cval (take (Z.to_nat n) shm))); [| exact HP].
  apply Permutation_map. apply wr_swap_perm; rewrite length_take; lia.
Qed.

Lemma store_shared_length (lsz base part_size : Z) (shm : list cell) (results : list Z) :
  length (store_shared lsz base part_size shm results) = length results.
Proof.
  unfold store_shared. rewrite par_for_strided.
  apply (fold_wr_length (fun i => wrap64 (base + i)) (fun i _ => cval (rd cell0 shm i))).
Qed.

Lemma store_shared_miss (lsz base part_size : Z) (shm : list cell) (results : list Z) (p : Z) :
  0 < lsz -> part_size + lsz <= 2 ^ 64 -> 0 <= base -> base + part_size <= 2 ^ 64 ->
  p < base \/ base + part_size <= p ->
  rd 0 (store_shared lsz base part_size shm results) p = rd 0 results p.
Proof.
  intros Hl Hb Hbase Hw Hp. unfold store_shared. rewrite par_for_strided.
  apply (fold_wr_miss 0 (fun i => wrap64 (base + i)) (fun i => cval (rd cell0 shm i))).
  intros j Hj. apply in_block_indices in Hj; [| lia | lia].
  rewrite wrap64_small by lia. lia.
Qed.

(** What a block loads: the entries of its partition. *)
Lemma load_shared_take (lsz base n : Z) (results : list Z) (shm : list cell) :
  0 < lsz -> n + lsz <= 2 ^ 64 -> 0 <= n <= Z.of_nat (length shm) ->
  0 <= base -> base + n <= Z.of_nat (length results) -> base + n <= 2 ^ 64 ->
  map cval (take (Z.to_nat n) (load_shared lsz base n results shm))
  = take (Z.to_nat n) (drop (Z.to_nat base) results).
Proof.
  intros Hl Hb Hn Hbase Hlen Hw.
  apply (list_eq_rd 0).
  - rewrite length_map, !length_take, load_shared_length, length_drop. lia.
  - intros i Hi.
    rewrite length_map, length_take, load_shared_length in Hi.
    rewrite rd_map_cval, !rd_take by lia.
    rewrite load_shared_hit by lia. cbn [cval].
    rewrite rd_drop by lia. rewrite wrap64_small by lia. f_equal. lia.
Qed.

(** What a block writes back: the cells below the partition size into the
    place of its partition. *)
Lemma store_shared_result (lsz base n : Z) (shm : list cell) (results : list Z) :
  0 < lsz -> n + lsz <= 2 ^ 64 -> 0 <= n <= Z.of_nat (length shm) ->
  0 <= base -> base + n <= Z.of_nat (length results) -> base + n <= 2 ^ 64 ->
  store_shared lsz base n shm results
  = take (Z.to_nat base) results
    ++ map cval (take (Z.to_nat n) shm)
    ++ drop (Z.to_nat (base + n)) results.
Proof.
  intros Hl Hb Hn Hbase Hlen Hw.
  apply (list_eq_rd 0).
  - rewrite store_shared_length, !length_app, length_map, !length_take, length_drop. lia.
  - intros i Hi. rewrite store_shared_length in Hi.
    destruct (Z_lt_le_dec i base) as [Hlo | Hlo].
    + rewrite store_shared_miss by lia.
      rewrite rd_app_l by (rewrite length_take; lia).
      rewrite rd_take by lia. reflexivity.
    + rewrite rd_app_r by (rewrite length_take; lia).
      rewrite length_take.
      replace (Z.of_nat (Z.to_nat base `min` length results)) with base by lia.
      destruct (Z_lt_le_dec i (base + n)) as [Hmid | Hhi].
      * replace i with (base + (i - base)) at 1 by lia.
        rewrite store_shared_hit by lia.
        rewrite rd_app_l by (rewrite length_map, length_take; lia).
        rewrite rd_map_cval, rd_take by lia. reflexivity.
      * rewrite store_shared_miss by lia.
        rewrite rd_app_r by (rewrite length_map, length_take; lia).
        rewrite length_map, length_take.
        replace (Z.of_nat (Z.to_nat n `min` length shm)) with n by lia.
        rewrite rd_drop by lia. f_equal. lia.
Qed.

(** A block that writes back a rearrangement of what it loaded leaves a
    permutation of the array. *)
Lemma block_writeback_perm (lsz base n : Z) (shm : list cell) (results : list Z) :
  0 < lsz -> n + lsz <= 2 ^ 64 -> 0 <= n <= Z.of_nat (length shm) ->
  0 <= base -> base + n <= Z.of_nat (length results) -> base + n <= 2 ^ 64 ->
  Permutation (map cval (take (Z.to_nat n) shm))
    (take (Z.to_nat n) (drop (Z.to_nat base) results)) ->
  Permutation (store_shared lsz base n shm results) results.
Proof.
  intros Hl Hb Hn Hbase Hlen Hw Hperm.
  rewrite store_shared_result by assumption.
  assert (Hs : results
               = take (Z.to_nat base) results
                 ++ take (Z.to_nat n) (drop (Z.to_nat base) results)
                 ++ drop (Z.to_nat (base + n)) results).
  { replace (Z.to_nat (base + n)) with (Z.to_nat base + Z.to_nat n)%nat by lia.
    rewrite <- drop_drop, !take_drop. reflexivity. }
  set (head := take (Z.to_nat base) results) in *.
  set (tail := drop (Z.to_nat (base + n)) results) in *.
  rewrite Hs at 1.
  apply Permutation_app_head, Permutation_app_tail. exact Hperm.
Qed.

(** *** The merge kernel *)

Lemma merge_block_perm (keycomp : Z -> Z -> Z) (lsz part_id nitems : Z)
    (stale results : list Z) :
  nitems = Z.of_nat (length results) ->
  0 < lsz < 2 ^ 31 -> nitems <= 2 ^ 32 ->
  0 <= partition_base lsz part_id < nitems ->
  Z.of_nat (length stale) = 2 * lsz ->
  partition_size lsz nitems part_id <= 2048 ->
  Permutation
    (gpusort_bitonic_merge_block keycomp lsz nitems (map stale_cell stale) part_id results)
    results.
Proof.
  intros Hnit Hl Hn Hb Hst Hsmall.
  destruct (partition_facts lsz nitems part_id Hl Hn Hb) as [Hps Hend].
  unfold gpusort_bitonic_merge_block.
  set (base := partition_base lsz part_id) in *.
  set (n := partition_size lsz nitems part_id) in *.
  set (part := take (Z.to_nat n) (drop (Z.to_nat base) results)).
  assert (Hlen0 : Z.of_nat (length (map stale_cell stale)) = 2 * lsz)
    by (rewrite length_map; exact Hst).
  assert (HP : Z.of_nat (length (merge_shared keycomp lsz nitems part_id
                                   (map stale_cell stale) results)) = 2 * lsz /\
               Permutation
                 (map cval (take (Z.to_nat n)
                              (merge_shared keycomp lsz nitems part_id
                                 (map stale_cell stale) results))) part).
  { unfold merge_shared. fold base n.
    apply (merge_unit_loop_preserves keycomp _ lsz n 64
             (perm_swap_closed n (2 * lsz) part ltac:(lia)) Hl).
    - rewrite wrap64_small by lia. lia.
    - split; [rewrite load_shared_length; exact Hlen0 |].
      unfold merge_load_bound. rewrite Z.min_l by lia.
      rewrite load_shared_take by lia. reflexivity. }
  destruct HP as [Hlen HP].
  apply block_writeback_perm; try lia. exact HP.
Qed.

Lemma partition_base_value (lsz part_id : Z) :
  0 < lsz < 2 ^ 31 -> 0 <= part_id < 2 ^ 31 ->
  partition_base lsz part_id = part_id * (2 * lsz).
Proof.
  intros Hl Hp. unfold partition_base.
  rewrite (wrap64_small (2 * lsz)) by lia. apply wrap64_small. nia.
Qed.

Lemma merge_launch_perm (keycomp : Z -> Z -> Z) (grid lsz : Z) (stale results : list Z) :
  0 < lsz <= 1024 -> Z.of_nat (length results) <= 2 ^ 32 ->
  grid < 2 ^ 31 -> (grid - 1) * (2 * lsz) < Z.of_nat (length results) ->
  Z.of_nat (length stale) = 2 * lsz ->
  Permutation (gpusort_bitonic_merge keycomp grid lsz (map stale_cell stale) results)
    results.
Proof.
  intros Hl Hn Hg Hcover Hst. unfold gpusort_bitonic_merge.
  apply (par_for_preserves (fun r => Permutation r results)); [| reflexivity].
  intros part_id r Hid Hperm.
  assert (Hlen : length r = length results) by (apply Permutation_length; exact Hperm).
  apply (perm_trans (l' := r)); [| exact Hperm].
  assert (Hbase : partition_base lsz part_id = part_id * (2 * lsz))
    by (apply partition_base_value; lia).
  assert (Hb : 0 <= partition_base lsz part_id < Z.of_nat (length results))
    by (rewrite Hbase; nia).
  apply merge_block_perm; try lia.
  destruct (partition_facts lsz (Z.of_nat (length results)) part_id
              ltac:(lia) Hn Hb) as [Hps _].
  lia.
Qed.

(** X22: a launch of [gpusort_bitonic_merge] loses no row while its
    partitions fit the load loop.  For blocks of at most 1024 threads
    (partitions of at most 2048 entries), shared memory of twice the block
    size, and a grid whose last partition starts inside the array: the
    array after the launch is a permutation of the array before it,
    whatever the shared memory held and whatever the comparison
    answers. *)
Theorem merge_kernel_permutes (keycomp : Z -> Z -> Z) (grid lsz : Z)
    (stale results : list Z) :
  0 < lsz <= 1024 -> Z.of_nat (length results) <= 2 ^ 32 ->
  grid < 2 ^ 31 -> (grid - 1) * (2 * lsz) < Z.of_nat (length results) ->
  Z.of_nat (length stale) = 2 * lsz ->
  let results' := gpusort_bitonic_merge keycomp grid lsz (map stale_cell stale) results in
  Permutation results' results /\ length results' = length results.
Proof.
  intros Hl Hn Hg Hcover Hst results'.
  pose proof (merge_launch_perm keycomp grid lsz stale results Hl Hn Hg Hcover Hst) as H.
  split; [exact H | apply Permutation_length; exact H].
Qed.

Lemma merge_kernel_permutes_witness :
  let results' := gpusort_bitonic_merge (keycomp_of (fun x => x)) 2 2
                    (map stale_cell [9; 9; 9; 9]) [3; 1; 2; 0; 7; 5] in
  Permutation results' [3; 1; 2; 0; 7; 5] /\ length results' = length [3; 1; 2; 0; 7; 5].
Proof.
  apply (merge_kernel_permutes (keycomp_of (fun x => x)) 2 2 [9; 9; 9; 9]
           [3; 1; 2; 0; 7; 5]).
  - lia.
  - cbn. lia.
  - lia.
  - cbn. lia.
  - reflexivity.
Defined.

(** *** The local kernel *)

Lemma local_indices_range (blockSize u lid : Z) :
  1 <= u <= 32 -> 0 <= lid < 2 ^ 31 ->
  0 <= fst (local_indices blockSize (2 ^ u) lid)
     < snd (local_indices blockSize (2 ^ u) lid).
Proof.
  intros Hu Hlid. unfold local_indices. cbn [fst snd].
  destruct (half_pow2 u ltac:(lia)) as [H2 Hhalf]. rewrite Hhalf.
  assert (Hh : 0 < 2 ^ (u - 1)) by (apply pow2_pos; lia).
  assert (Hu32 : 2 ^ u <= 2 ^ 32) by (apply Z.pow_le_mono_r; lia).
  set (h := 2 ^ (u - 1)) in *.
  assert (Hq : 0 <= lid / h <= lid).
  { split; [apply Z.div_pos; lia |]. apply Z.div_le_upper_bound; nia. }
  pose proof (Z.mod_pos_bound lid h ltac:(lia)) as Hm.
  set (q := lid / h) in *. set (r := lid mod h) in *.
  assert (Hx : 0 <= q * 2 ^ u + r < 2 ^ 63 + 2 ^ 32) by nia.
  rewrite (wrap64_small (q * 2 ^ u + r)) by lia.
  rewrite (wrap64_small (2 ^ u - 1)) by lia.
  destruct (2 ^ u =? blockSize).
  - rewrite reversing_value by lia.
    assert (Hdiv : (q * 2 ^ u + r) / 2 ^ u = q).
    { symmetry. apply (Z.div_unique _ _ q r); lia. }
    assert (Hmod : (q * 2 ^ u + r) mod 2 ^ u = r).
    { symmetry. apply (Z.mod_unique _ _ q r); lia. }
    rewrite Hdiv, Hmod. rewrite wrap64_small by nia. lia.
  - rewrite wrap64_small by lia. lia.
Qed.

Lemma local_thread_preserves (keycomp : Z -> Z -> Z) (P : list cell -> Prop)
    (part_size blockSize u lid : Z) (shm : list cell) :
  swap_closed part_size P -> 1 <= u <= 32 -> 0 <= lid < 2 ^ 31 ->
  P shm -> P (local_thread keycomp part_size blockSize (2 ^ u) lid shm).
Proof.
  intros Hc Hu Hlid HP.
  pose proof (local_indices_range blockSize u lid Hu Hlid) as Hr.
  unfold local_thread. destruct (local_indices blockSize (2 ^ u) lid) as [idx0 idx1].
  cbn [fst snd] in Hr.
  destruct (idx1 <? part_size) eqn:E; [| exact HP].
  apply Z.ltb_lt in E. unfold compare_swap.
  destruct (0 <? keycomp _ _); [| exact HP].
  apply Hc; [exact HP | lia | lia].
Qed.

Lemma local_unit_loop_preserves (keycomp : Z -> Z -> Z) (P : list cell -> Prop)
    (lsz part_size blockSize : Z) (fuel : nat) :
  swap_closed part_size P -> 0 < lsz < 2 ^ 31 ->
  forall u shm,
    0 <= u <= 32 -> P shm ->
    P (local_unit_loop keycomp fuel lsz part_size blockSize (2 ^ u) shm).
Proof.
  intros Hc Hl. induction fuel as [| fuel IH]; intros u shm Hu HP;
    cbn [local_unit_loop]; [exact HP |].
  destruct (2 <=? 2 ^ u) eqn:E; [| exact HP]. apply Z.leb_le in E.
  assert (Hu1 : 1 <= u).
  { destruct (Z.eq_dec u 0) as [-> | Hne]; [cbn in E; lia | lia]. }
  destruct (half_pow2 u Hu1) as [_ Hhalf]. rewrite Hhalf.
  apply IH; [lia |].
  apply par_for_preserves; [| exact HP].
  intros lid s Hlid Hs. apply local_thread_preserves; auto; lia.
Qed.

Lemma local_block_loop_preserves (keycomp : Z -> Z -> Z) (P : list cell -> Prop)
    (lsz part_size : Z) (fuel : nat) :
  swap_closed part_size P -> 0 < lsz < 2 ^ 31 -> part_size < 2 ^ 32 ->
  forall b shm,
    0 <= b <= 32 -> P shm ->
    P (local_block_loop keycomp fuel lsz part_size (2 ^ b) shm).
Proof.
  intros Hc Hl Hps. induction fuel as [| fuel IH]; intros b shm Hb HP;
    cbn [local_block_loop]; [exact HP |].
  destruct (2 ^ b <=? part_size) eqn:E; [| exact HP]. apply Z.leb_le in E.
  assert (Hb31 : b < 32).
  { destruct (Z_lt_le_dec b 32) as [H | H]; [exact H |].
    assert (2 ^ 32 <= 2 ^ b) by (apply Z.pow_le_mono_r; lia). lia. }
  assert (Hnext : wrap64 (2 ^ b * 2) = 2 ^ (b + 1)).
  { rewrite Z.pow_add_r by lia. change (2 ^ 1) with 2.
    apply wrap64_small.
    assert (0 < 2 ^ b) by (apply pow2_pos; lia). lia. }
  rewrite Hnext. apply IH; [lia |].
  apply local_unit_loop_preserves; auto; lia.
Qed.

Lemma local_block_perm (keycomp : Z -> Z -> Z) (lsz part_id nitems : Z)
    (stale results : list Z) :
  nitems = Z.of_nat (length results) ->
  0 < lsz < 2 ^ 31 -> nitems <= 2 ^ 32 ->
  0 <= partition_base lsz part_id < nitems ->
  Z.of_nat (length stale) = 2 * lsz ->
  Permutation
    (gpusort_bitonic_local_block keycomp lsz nitems (map stale_cell stale) part_id results)
    results.
Proof.
  intros Hnit Hl Hn Hb Hst.
  destruct (partition_facts lsz nitems part_id Hl Hn Hb) as [Hps Hend].
  unfold gpusort_bitonic_local_block.
  set (base := partition_base lsz part_id) in *.
  set (n := partition_size lsz nitems part_id) in *.
  set (part := take (Z.to_nat n) (drop (Z.to_nat base) results)).
  assert (Hlen0 : Z.of_nat (length (map stale_cell stale)) = 2 * lsz)
    by (rewrite length_map; exact Hst).
  assert (HP : Z.of_nat (length (local_shared keycomp lsz nitems part_id
                                   (map stale_cell stale) results)) = 2 * lsz /\
               Permutation
                 (map cval (take (Z.to_nat n)
                              (local_shared keycomp lsz nitems part_id
                                 (map stale_cell stale) results))) part).
  { unfold local_shared. fold base n.
    change 2 with (2 ^ 1) at 1.
    apply (local_block_loop_preserves keycomp _ lsz n 64
             (perm_swap_closed n (2 * lsz) part ltac:(lia)) Hl); [lia | lia |].
    split; [rewrite load_shared_length; exact Hlen0 |].
    rewrite load_shared_take by lia. reflexivity. }
  destruct HP as [Hlen HP].
  apply block_writeback_perm; try lia. exact HP.
Qed.

Lemma local_launch_perm (keycomp : Z -> Z -> Z) (grid lsz : Z) (stale results : list Z) :
  0 < lsz < 2 ^ 31 -> Z.of_nat (length results) <= 2 ^ 32 ->
  grid < 2 ^ 31 -> (grid - 1) * (2 * lsz) < Z.of_nat (length results) ->
  Z.of_nat (length stale) = 2 * lsz ->
  Permutation (gpusort_bitonic_local keycomp grid lsz (map stale_cell stale) results)
    results.
Proof.
  intros Hl Hn Hg Hcover Hst. unfold gpusort_bitonic_local.
  apply (par_for_preserves (fun r => Permutation r results)); [| reflexivity].
  intros part_id r Hid Hperm.
  assert (Hlen : length r = length results) by (apply Permutation_length; exact Hperm).
  apply (perm_trans (l' := r)); [| exact Hperm].
  assert (Hbase : partition_base lsz part_id = part_id * (2 * lsz))
    by (apply partition_base_value; lia).
  assert (Hb : 0 <= partition_base lsz part_id < Z.of_nat (length results))
    by (rewrite Hbase; nia).
  apply local_block_perm; lia.
Qed.

(** X23: a launch of [gpusort_bitonic_local] loses no row.  For shared
    memory of twice the block size and a grid whose last partition starts
    inside the array, also when that partition is cut short by the end of
    the array: the array after the launch is a permutation of the array
    before it, and each block has rearranged the entries of its own
    partition only. *)
Theorem local_kernel_permutes (keycomp : Z -> Z -> Z) (grid lsz : Z)
    (stale results : list Z) :
  0 < lsz < 2 ^ 31 -> Z.of_nat (length results) <= 2 ^ 32 ->
  grid < 2 ^ 31 -> (grid - 1) * (2 * lsz) < Z.of_nat (length results) ->
  Z.of_nat (length stale) = 2 * lsz ->
  Permutation (gpusort_bitonic_local keycomp grid lsz (map stale_cell stale) results)
    results /\
  (forall part_id r,
     0 <= part_id < grid -> length r = length results ->
     let r' := gpusort_bitonic_local_block keycomp lsz (Z.of_nat (length results))
                 (map stale_cell stale) part_id r in
     forall p, p < part_id * (2 * lsz) \/ (part_id + 1) * (2 * lsz) <= p ->
       rd 0 r' p = rd 0 r p).
Proof.
  intros Hl Hn Hg Hcover Hst.
  split; [apply local_launch_perm; assumption |].
  intros part_id r Hid Hlen r' p Hp. unfold r', gpusort_bitonic_local_block.
  assert (Hbase : partition_base lsz part_id = part_id * (2 * lsz))
    by (apply partition_base_value; lia).
  assert (Hb : 0 <= partition_base lsz part_id < Z.of_nat (length results))
    by (rewrite Hbase; nia).
  destruct (partition_facts lsz (Z.of_nat (length results)) part_id Hl Hn Hb) as [Hps Hend].
  apply store_shared_miss; lia.
Qed.

Lemma local_kernel_permutes_witness :
  Permutation (gpusort_bitonic_local (keycomp_of (fun x => x)) 2 2
                 (map stale_cell [9; 9; 9; 9]) [3; 1; 2; 0; 7; 5])
    [3; 1; 2; 0; 7; 5] /\
  (forall part_id r,
     0 <= part_id < 2 -> length r = length [3; 1; 2; 0; 7; 5] ->
     let r' := gpusort_bitonic_local_block (keycomp_of (fun x => x)) 2
                 (Z.of_nat (length [3; 1; 2; 0; 7; 5]))
                 (map stale_cell [9; 9; 9; 9]) part_id r in
     forall p, p < part_id * (2 * 2) \/ (part_id + 1) * (2 * 2) <= p ->
       rd 0 r' p = rd 0 r p).
Proof.
  apply (local_kernel_permutes (keycomp_of (fun x => x)) 2 2 [9; 9; 9; 9]
           [3; 1; 2; 0; 7; 5]).
  - lia.
  - cbn. lia.
  - lia.
  - cbn. lia.
  - reflexivity.
Defined.

(** *** The control kernel *)

Lemma block_size_term_pow2 (mb : Z) :
  1 <= mb <= 1024 ->
  exists e, 0 <= e <= 10 /\
    wrap32 (Z.shiftl 1 (get_next_log2 (wrap32 (mb + 1)) - 1)) = 2 ^ e.
Proof.
  intros Hmb. unfold get_next_log2. rewrite (wrap32_small (mb + 1)) by lia.
  assert (Hl : 1 <= Z.log2_up (mb + 1) <= 11).
  { pose proof (Z.log2_up_le_mono 2 (mb + 1) ltac:(lia)) as H1.
    pose proof (Z.log2_up_le_mono (mb + 1) 1025 ltac:(lia)) as H2.
    change (Z.log2_up 2) with 1 in H1. change (Z.log2_up 1025) with 11 in H2. lia. }
  exists (Z.log2_up (mb + 1) - 1). split; [lia |].
  rewrite Z.shiftl_mul_pow2, Z.mul_1_l by lia.
  apply wrap32_small. split; [apply Z.pow_nonneg; lia |].
  apply (Z.le_lt_trans _ (2 ^ 10)); [apply Z.pow_le_mono_r; lia | lia].
Qed.

Lemma min_pow2 (a b : Z) : 0 <= a -> 0 <= b -> Z.min (2 ^ a) (2 ^ b) = 2 ^ Z.min a b.
Proof.
  intros Ha Hb. destruct (Z_le_gt_dec a b) as [H | H].
  - rewrite (Z.min_l a b) by lia. apply Z.min_l. apply Z.pow_le_mono_r; lia.
  - rewrite (Z.min_r a b) by lia. apply Z.min_r. apply Z.pow_le_mono_r; lia.
Qed.

Lemma common_block_size_pow2 (max_block : Z -> Z) :
  (forall k, 1 <= max_block k <= 1024) ->
  exists b, 0 <= b <= 10 /\ common_block_size max_block = 2 ^ b.
Proof.
  intros Hmb. unfold common_block_size. cbn [fold_left].
  destruct (block_size_term_pow2 (max_block 0) (Hmb 0)) as (e0 & He0 & ->).
  destruct (block_size_term_pow2 (max_block 1) (Hmb 1)) as (e1 & He1 & ->).
  destruct (block_size_term_pow2 (max_block 2) (Hmb 2)) as (e2 & He2 & ->).
  assert (H0 : Z.min UINT_MAX (2 ^ e0) = 2 ^ e0).
  { apply Z.min_r. unfold UINT_MAX.
    assert (2 ^ e0 <= 2 ^ 10) by (apply Z.pow_le_mono_r; lia). lia. }
  rewrite H0, !min_pow2 by lia.
  eexists. split; [| reflexivity]. lia.
Qed.

Lemma half_grid_covers (nitems bsz : Z) :
  0 <= nitems < 2 ^ 31 -> 0 < bsz <= 1024 ->
  0 <= half_grid nitems bsz < 2 ^ 31 /\
  (half_grid nitems bsz - 1) * (2 * bsz) < nitems.
Proof.
  intros Hn Hb. unfold half_grid.
  rewrite (wrap32_small (nitems + 1)) by lia.
  set (c := (nitems + 1) / 2).
  assert (Hc : 0 <= c /\ 2 * c <= nitems + 1).
  { unfold c. split; [apply Z.div_pos; lia | apply Z.mul_div_le; lia]. }
  rewrite (wrap32_small (c + bsz - 1)) by lia.
  set (g := (c + bsz - 1) / bsz).
  assert (Hg : 0 <= g /\ g * bsz <= c + bsz - 1).
  { unfold g. split; [apply Z.div_pos; lia |].
    rewrite Z.mul_comm. apply Z.mul_div_le. lia. }
  assert (Hgc : g <= c + bsz - 1) by nia.
  rewrite (wrap32_small g) by lia.
  split; [lia | nia].
Qed.

Lemma nhalf_bound (nitems : Z) :
  0 <= nitems < 2 ^ 31 ->
  0 <= wrap32 (Z.shiftl 1 (get_next_log2 (wrap32 (nitems + 1)) - 1)) <= 2 ^ 30.
Proof.
  intros Hn. unfold get_next_log2. rewrite (wrap32_small (nitems + 1)) by lia.
  assert (Hl : 0 <= Z.log2_up (nitems + 1) <= 31).
  { split; [apply Z.log2_up_nonneg |].
    pose proof (Z.log2_up_le_mono (nitems + 1) (2 ^ 31) ltac:(lia)) as H2.
    rewrite Z.log2_up_pow2 in H2 by lia. exact H2. }
  destruct (Z.eq_dec (Z.log2_up (nitems + 1)) 0) as [-> | Hne].
  - change (wrap32 (Z.shiftl 1 (0 - 1))) with 0. lia.
  - rewrite Z.shiftl_mul_pow2, Z.mul_1_l by lia.
    assert (Hp : 0 < 2 ^ (Z.log2_up (nitems + 1) - 1) <= 2 ^ 30).
    { split; [apply pow2_pos; lia | apply Z.pow_le_mono_r; lia]. }
    rewrite wrap32_small by lia. lia.
Qed.

Lemma step_grid_workers (nitems k b : Z) :
  0 <= nitems < 2 ^ 32 -> 1 <= k <= 32 -> 0 <= b < k - 1 ->
  step_grid nitems (2 ^ k) (2 ^ b) * 2 ^ b <= 2 ^ 31.
Proof.
  intros Hn Hk Hb.
  destruct (Z_le_gt_dec (step_grid nitems (2 ^ k) (2 ^ b) * 2 ^ b) 0) as [H | H]; [lia |].
  pose proof (step_worker_range nitems k b
                (step_grid nitems (2 ^ k) (2 ^ b) * 2 ^ b - 1) Hn Hk Hb ltac:(lia)).
  lia.
Qed.

Lemma main_step_loop_perm (keycomp : Z -> Z -> Z) (b i : Z) (fuel : nat) :
  0 <= b <= 10 ->
  forall m results,
    0 <= m <= 30 ->
    Z.of_nat (length results) < 2 ^ 31 ->
    Forall (fun v => 0 <= v < 2 ^ 32) results ->
    Permutation (main_step_loop keycomp fuel (2 ^ b) i (2 ^ m) results) results.
Proof.
  intros Hb. induction fuel as [| fuel IH]; intros m results Hm Hn Hall;
    cbn [main_step_loop]; [reflexivity |].
  destruct (2 ^ b <? 2 ^ m) eqn:E; [| reflexivity]. apply Z.ltb_lt in E.
  assert (Hbm : b < m).
  { destruct (Z_lt_le_dec b m) as [H | H]; [exact H |].
    assert (2 ^ m <= 2 ^ b) by (apply Z.pow_le_mono_r; lia). lia. }
  assert (Hunit : wrap32 (2 * 2 ^ m) = 2 ^ (m + 1)).
  { rewrite Z.pow_add_r, Z.mul_comm by lia. change (2 ^ 1) with 2.
    apply wrap32_small.
    assert (0 < 2 ^ m <= 2 ^ 30) by (split; [apply pow2_pos | apply Z.pow_le_mono_r]; lia).
    lia. }
  rewrite Hunit.
  destruct (half_pow2 m ltac:(lia)) as [_ Hhalf]. rewrite Hhalf.
  set (r1 := gpusort_bitonic_step keycomp _ _ _ _ results).
  assert (H1 : Permutation r1 results).
  { unfold r1. apply step_launch_perm; try lia; try exact Hall.
    apply step_grid_workers; lia. }
  apply (perm_trans (l' := r1)); [| exact H1].
  apply IH; [lia | |].
  - rewrite (Permutation_length H1). exact Hn.
  - apply (Permutation_Forall (Permutation_sym H1)). exact Hall.
Qed.

Lemma main_outer_loop_perm (keycomp : Z -> Z -> Z) (b nhalf : Z) (stale : list Z)
    (fuel : nat) :
  0 <= b <= 10 -> nhalf <= 2 ^ 30 ->
  Z.of_nat (length stale) = 2 * 2 ^ b ->
  forall a results,
    0 <= a <= 30 ->
    Z.of_nat (length results) < 2 ^ 31 ->
    Forall (fun v => 0 <= v < 2 ^ 32) results ->
    Permutation
      (main_outer_loop keycomp fuel (2 ^ b) nhalf (2 ^ a) (map stale_cell stale) results)
      results.
Proof.
  intros Hb Hnh Hst. induction fuel as [| fuel IH]; intros a results Ha Hn Hall;
    cbn [main_outer_loop]; [reflexivity |].
  destruct (2 ^ a <? nhalf) eqn:E; [| reflexivity]. apply Z.ltb_lt in E.
  assert (Ha30 : a < 30).
  { destruct (Z_lt_le_dec a 30) as [H | H]; [exact H |].
    assert (2 ^ 30 <= 2 ^ a) by (apply Z.pow_le_mono_r; lia). lia. }
  assert (Hpa : 0 < 2 ^ a <= 2 ^ 29)
    by (split; [apply pow2_pos | apply Z.pow_le_mono_r]; lia).
  assert (Hdouble : wrap32 (2 * 2 ^ a) = 2 ^ (a + 1)).
  { rewrite Z.pow_add_r, Z.mul_comm by lia. change (2 ^ 1) with 2.
    apply wrap32_small. lia. }
  assert (Hdouble' : wrap32 (2 ^ a * 2) = 2 ^ (a + 1))
    by (rewrite Z.mul_comm; exact Hdouble).
  rewrite Hdouble, Hdouble'.
  assert (Hpb : 0 < 2 ^ b <= 1024).
  { split; [apply pow2_pos; lia |]. change 1024 with (2 ^ 10).
    apply Z.pow_le_mono_r; lia. }
  set (r1 := main_step_loop keycomp 33 (2 ^ b) (2 ^ a) (2 ^ (a + 1)) results).
  assert (H1 : Permutation r1 results)
    by (unfold r1; apply main_step_loop_perm; auto; lia).
  assert (Hn1 : Z.of_nat (length r1) < 2 ^ 31)
    by (rewrite (Permutation_length H1); exact Hn).
  set (r2 := gpusort_bitonic_merge keycomp _ _ _ r1).
  assert (H2 : Permutation r2 r1).
  { unfold r2. destruct (half_grid_covers (Z.of_nat (length results)) (2 ^ b)
                           ltac:(lia) Hpb) as [Hg Hcover].
    pose proof (Permutation_length H1) as Hlen1.
    apply merge_launch_perm; lia. }
  apply (perm_trans (l' := r2));
    [| apply (perm_trans (l' := r1)); assumption].
  apply IH; [lia | |].
  - rewrite (Permutation_length H2). exact Hn1.
  - apply (Permutation_Forall (Permutation_sym H2)).
    apply (Permutation_Forall (Permutation_sym H1)). exact Hall.
Qed.

(** X24: [gpusort_main] loses no row.  When the largest block size of
    every kernel is between 1 and 1024, the shared memory of a block holds
    twice the common block size entries, and the result array has fewer
    than [2 ^ 31] entries that are [cl_uint] values, the array the control
    kernel leaves is a permutation of the array it was given, whatever the
    shared memory held before and whatever the comparison answers: where
    the pipeline fails to sort, it still returns every row index exactly
    as often as it got it. *)
Theorem gpusort_main_permutes (keycomp : Z -> Z -> Z) (max_block : Z -> Z)
    (stale results : list Z) :
  (forall k, 1 <= max_block k <= 1024) ->
  Z.of_nat (length stale) = 2 * common_block_size max_block ->
  Z.of_nat (length results) < 2 ^ 31 ->
  Forall (fun v => 0 <= v < 2 ^ 32) results ->
  Permutation (gpusort_main keycomp max_block stale results) results.
Proof.
  intros Hmb Hst Hn Hall. unfold gpusort_main.
  destruct (common_block_size_pow2 max_block Hmb) as (b & Hb & Hbsz).
  rewrite Hbsz in *.
  assert (Hpb : 0 < 2 ^ b <= 1024).
  { split; [apply pow2_pos; lia |]. change 1024 with (2 ^ 10).
    apply Z.pow_le_mono_r; lia. }
  destruct (half_grid_covers (Z.of_nat (length results)) (2 ^ b) ltac:(lia) Hpb)
    as [Hg Hcover].
  pose proof (nhalf_bound (Z.of_nat (length results)) ltac:(lia)) as Hnh.
  set (r1 := gpusort_bitonic_local keycomp _ _ _ results).
  assert (H1 : Permutation r1 results)
    by (unfold r1; apply local_launch_perm; lia).
  apply (perm_trans (l' := r1)); [| exact H1].
  apply main_outer_loop_perm; try lia.
  - rewrite (Permutation_length H1). exact Hn.
  - apply (Permutation_Forall (Permutation_sym H1)). exact Hall.
Qed.

Lemma gpusort_main_permutes_witness :
  Permutation (gpusort_main (keycomp_of (fun x => x)) (fun _ => 2) [0; 0; 0; 0]
                 [5; 3; 8; 1; 9; 2; 7])
    [5; 3; 8; 1; 9; 2; 7].
Proof.
  apply (gpusort_main_permutes (keycomp_of (fun x => x)) (fun _ => 2) [0; 0; 0; 0]
           [5; 3; 8; 1; 9; 2; 7]).
  - intros k. lia.
  - reflexivity.
  - cbn. lia.
  - repeat constructor; lia.
Defined.
(** ** Pointers handed back to the host *)

(** A run of updates, each of the cell of its own position. *)
Lemma fold_update_cells {A} (d : A) (upd : Z -> A -> A) (pos : Z -> Z) (l : list Z) :
  forall a p,
    NoDup (map pos l) ->
    (forall i, In i l -> 0 <= pos i < Z.of_nat (length a)) ->
    rd d (fold_left (fun a i => wr a (pos i) (upd i (rd d a (pos i)))) l a) p
    = match List.find (fun i => pos i =? p) l with
      | Some i => upd i (rd d a p)
      | None => rd d a p
      end.
Proof.
  induction l as [| x l IH]; intros a p Hnd Hr; cbn [fold_left List.find map];
    [reflexivity |].
  apply NoDup_cons in Hnd as [Hx Hnd].
  rewrite IH.
  2: exact Hnd.
  2:{ intros i Hi. rewrite length_wr. apply Hr. right. exact Hi. }
  destruct (pos x =? p) eqn:E.
  - apply Z.eqb_eq in E. subst p.
    destruct (List.find (fun i => pos i =? pos x) l) as [i |] eqn:Ef.
    + exfalso. apply List.find_some in Ef as [Hin He]. apply Z.eqb_eq in He.
      apply Hx. rewrite <- He. apply list_elem_of_In. apply in_map. exact Hin.
    + apply rd_wr_same. apply Hr. left. reflexivity.
  - apply Z.eqb_neq in E. rewrite rd_wr_other by exact E. reflexivity.
Qed.

Lemma fixup_column_as_update (kds_slot : kern_slot_store) (tup_isnull : list bool)
    (tup_values : list Z) (i : Z) :
  fixup_column kds_slot tup_isnull tup_values i
  = wr tup_values i
      ((fun i v =>
          if cm_attbyval (rd colmeta0 (ks_colmeta kds_slot) i) then v
          else if rd false tup_isnull i then v
          else fixup_datum kds_slot v) i (rd 0 tup_values i)).
Proof.
  unfold fixup_column. cbv beta.
  destruct (cm_attbyval _); [symmetry; apply wr_same_value |].
  destruct (rd false tup_isnull i); [symmetry; apply wr_same_value | reflexivity].
Qed.

Lemma NoDup_ids (n : Z) : NoDup (ids n).
Proof.
  unfold ids. apply NoDup_fmap_2; [| apply NoDup_seq].
  intros x y H. lia.
Qed.

Lemma find_ids_self (n c : Z) :
  0 <= c < n -> List.find (fun i => i =? c) (ids n) = Some c.
Proof.
  intros Hc.
  destruct (List.find (fun i => i =? c) (ids n)) as [i |] eqn:E.
  - apply List.find_some in E as [_ He]. apply Z.eqb_eq in He. subst. reflexivity.
  - exfalso. pose proof (List.find_none _ _ E c ltac:(apply in_ids; exact Hc)) as H.
    cbv beta in H. rewrite Z.eqb_refl in H. discriminate H.
Qed.

(** The row a thread leaves. *)
Lemma fixup_row_cell (kds_slot : kern_slot_store) (tup_isnull : list bool)
    (tup_values : list Z) (c : Z) :
  Z.of_nat (length tup_values) = ks_ncols kds_slot -> 0 <= c < ks_ncols kds_slot ->
  rd 0 (fold_left (fixup_column kds_slot tup_isnull) (ids (ks_ncols kds_slot)) tup_values) c
  = if cm_attbyval (rd colmeta0 (ks_colmeta kds_slot) c) then rd 0 tup_values c
    else if rd false tup_isnull c then rd 0 tup_values c
    else fixup_datum kds_slot (rd 0 tup_values c).
Proof.
  intros Hlen Hc.
  set (upd := fun (i v : Z) =>
                if cm_attbyval (rd colmeta0 (ks_colmeta kds_slot) i) then v
                else if rd false tup_isnull i then v
                else fixup_datum kds_slot v).
  rewrite (fold_left_pointwise _ (fun a i => wr a i (upd i (rd 0 a i))))
    by (intros; apply fixup_column_as_update).
  pose proof (fold_update_cells 0 upd (fun i => i) (ids (ks_ncols kds_slot))
                tup_values c) as H.
  cbv beta in H. rewrite H.
  - rewrite find_ids_self by exact Hc. reflexivity.
  - rewrite map_id. apply NoDup_ids.
  - intros i Hi. apply in_ids in Hi. lia.
Qed.

Lemma ids_split (n m : Z) :
  0 <= n <= m -> exists rest, ids m = ids n ++ rest /\ forall x, In x rest -> n <= x.
Proof.
  intros Hnm. unfold ids.
  replace (Z.to_nat m) with (Z.to_nat n + Z.to_nat (m - n))%nat by lia.
  rewrite seq_app, map_app. eexists. split; [reflexivity |].
  intros x Hx. apply in_map_iff in Hx as (k & <- & Hk). apply in_seq in Hk. lia.
Qed.

Lemma fold_left_skip {S B} (f : S -> B -> S) (l : list B) (s : S) :
  (forall x s, In x l -> f s x = s) -> fold_left f l s = s.
Proof.
  revert s. induction l as [| x l IH]; intros s Hf; cbn [fold_left]; [reflexivity |].
  rewrite Hf by (left; reflexivity). apply IH. intros y s' Hy. apply Hf. right. exact Hy.
Qed.

Lemma map_rd_ids (l : list Z) : map (rd 0 l) (ids (Z.of_nat (length l))) = l.
Proof.
  apply list_eq. intros i. unfold ids. rewrite Nat2Z.id, !list_lookup_fmap.
  destruct (l !! i) as [x |] eqn:E.
  - rewrite lookup_seq_lt by (apply lookup_lt_is_Some; eauto). cbn.
    f_equal. apply rd_lookup; [lia |]. rewrite Nat2Z.id. exact E.
  - rewrite lookup_seq_ge by (apply lookup_ge_None; exact E). reflexivity.
Qed.

Lemma find_results (results : list Z) (r : Z) :
  match List.find (fun gid => rd 0 results gid =? r) (ids (Z.of_nat (length results))) with
  | Some gid => rd 0 results gid = r /\ existsb (Z.eqb r) results = true
  | None => existsb (Z.eqb r) results = false
  end.
Proof.
  destruct (List.find _ _) as [gid |] eqn:E.
  - apply List.find_some in E as [Hin He]. apply Z.eqb_eq in He. split; [exact He |].
    apply existsb_exists. exists r. split; [| apply Z.eqb_refl].
    rewrite <- He. rewrite <- (map_rd_ids results) at 2. apply in_map. exact Hin.
  - apply not_true_is_false. intros Hex.
    apply existsb_exists in Hex as (x & Hx & He). apply Z.eqb_eq in He. subst x.
    rewrite <- (map_rd_ids results) in Hx. apply in_map_iff in Hx as (gid & Hg & Hin).
    pose proof (List.find_none _ _ E gid Hin) as H. cbv beta in H.
    rewrite Hg, Z.eqb_refl in H. discriminate H.
Qed.

(** X25: what [gpusort_fixup_pointers] rewrites.  For a result array of
    distinct row numbers of the chunk and a launch with a thread for each
    of them, the kernel replaces the [Datum] of a cell exactly when the
    row is in the result array, the column is not passed by value and the
    cell is not null, and by the [Datum] minus the device address of the
    chunk's [hostptr] field plus the value of that field; every other
    cell keeps its value.  A pointer the device stored as that address
    plus an offset comes out as [hostptr] plus the same offset. *)
Theorem fixup_pointers_cells (nthreads : Z) (results : list Z)
    (kds_slot : kern_slot_store) (r c : Z) :
  Z.of_nat (length results) <= nthreads -> NoDup results ->
  Forall (fun i => 0 <= i < Z.of_nat (length (ks_values kds_slot))) results ->
  Forall (fun row => Z.of_nat (length row) = ks_ncols kds_slot) (ks_values kds_slot) ->
  0 <= r < Z.of_nat (length (ks_values kds_slot)) -> 0 <= c < ks_ncols kds_slot ->
  rd 0 (rd [] (gpusort_fixup_pointers nthreads results kds_slot) r) c
  = (if fixup_applies kds_slot results r c
     then fixup_datum kds_slot (rd 0 (rd [] (ks_values kds_slot) r) c)
     else rd 0 (rd [] (ks_values kds_slot) r) c) /\
  (forall off,
     fixup_datum kds_slot (wrap64 (ks_hostptr_addr kds_slot + off))
     = wrap64 (ks_hostptr kds_slot + off)).
Proof.
  intros Hthreads Hnd Hrows Hcols Hr Hc. split.
  2:{ intros off. unfold fixup_datum, wrap64.
      rewrite Zminus_mod_idemp_l, Zplus_mod_idemp_l. f_equal. lia. }
  unfold gpusort_fixup_pointers, par_for.
  destruct (ids_split (Z.of_nat (length results)) nthreads ltac:(lia)) as (rest & -> & Hrest).
  rewrite fold_left_app.
  rewrite (fold_left_skip _ rest).
  2:{ intros gid values Hin. unfold fixup_thread.
      assert (E : (gid <? Z.of_nat (length results)) = false)
        by (apply Z.ltb_ge; apply Hrest; exact Hin).
      rewrite E. reflexivity. }
  set (F := fun (gid : Z) (row : list Z) =>
              fold_left (fixup_column kds_slot
                           (rd [] (ks_isnull kds_slot) (rd 0 results gid)))
                (ids (ks_ncols kds_slot)) row).
  assert (Hfold : forall l values,
            (forall gid, In gid l -> 0 <= gid < Z.of_nat (length results)) ->
            fold_left (fun v gid => fixup_thread kds_slot results gid v) l values
            = fold_left (fun v gid => wr v (rd 0 results gid)
                                        (F gid (rd [] v (rd 0 results gid)))) l values).
  { induction l as [| gid l IH]; intros values Hl; cbn [fold_left]; [reflexivity |].
    rewrite <- IH by (intros g Hg; apply Hl; right; exact Hg).
    f_equal. unfold fixup_thread.
    assert (E : (gid <? Z.of_nat (length results)) = true)
      by (apply Z.ltb_lt; apply Hl; left; reflexivity).
    rewrite E. reflexivity. }
  rewrite Hfold by (intros gid Hg; apply in_ids in Hg; exact Hg).
  pose proof (fold_update_cells [] F (rd 0 results) (ids (Z.of_nat (length results)))
                (ks_values kds_slot) r) as H.
  cbv beta in H. rewrite H; clear H.
  - pose proof (find_results results r) as Hfind.
    assert (Hrow : Z.of_nat (length (rd [] (ks_values kds_slot) r)) = ks_ncols kds_slot).
    { destruct (lookup_of_index (ks_values kds_slot) r Hr) as [row Hrow].
      rewrite (rd_lookup [] _ r row) by (try lia; exact Hrow).
      rewrite Forall_lookup in Hcols. apply (Hcols _ _ Hrow). }
    unfold fixup_applies.
    destruct (List.find _ _) as [gid |].
    + destruct Hfind as [Hg ->]. unfold F. rewrite Hg.
      rewrite fixup_row_cell by assumption. cbn [andb].
      destruct (cm_attbyval _); [reflexivity |].
      destruct (rd false _ c); reflexivity.
    + rewrite Hfind. reflexivity.
  - rewrite map_rd_ids. exact Hnd.
  - intros gid Hg. apply in_ids in Hg.
    destruct (lookup_of_index results gid Hg) as [x Hx].
    rewrite (rd_lookup 0 _ gid x) by (try lia; exact Hx).
    rewrite Forall_lookup in Hrows. apply (Hrows _ _ Hx).
Qed.

Lemma fixup_pointers_cells_witness :
  rd 0 (rd [] (gpusort_fixup_pointers 32 [1; 0] slot_store_two_rows) 0) 1
  = (if fixup_applies slot_store_two_rows [1; 0] 0 1
     then fixup_datum slot_store_two_rows (rd 0 (rd [] (ks_values slot_store_two_rows) 0) 1)
     else rd 0 (rd [] (ks_values slot_store_two_rows) 0) 1) /\
  (forall off,
     fixup_datum slot_store_two_rows (wrap64 (ks_hostptr_addr slot_store_two_rows + off))
     = wrap64 (ks_hostptr slot_store_two_rows + off)).
Proof.
  apply (fixup_pointers_cells 32 [1; 0] slot_store_two_rows 0 1).
  - cbn. lia.
  - apply (bool_decide_unpack _). vm_compute. reflexivity.
  - repeat constructor; cbn; lia.
  - repeat constructor.
  - cbn. lia.
  - cbn. lia.
Defined.
